(** * Flynn log aggregator: a shallow embedding of [logaggregator/aggregator.go]
    and [logaggregator/server.go], and the properties of the specification
    checked against it.

    Layout of the development:
    - [rfc5424], [gochan], [ring], [logfilter]: the collaborators of the two
      source files (messages, Go channels, the ring buffer, query filters);
    - [Agg]: the methods of [Aggregator] as functions on its state;
    - [Query]: the producer goroutines of [ReadLastN] and
      [ReadLastNAndSubscribe] as select-driven state machines;
    - [Role]: [monitorDiscoverd] and [follow];
    - [Sched]: an interleaving model of the run loop, the syslog ingest
      connections and the replication connections of [server.go];
    - the theorems, one section per claim. *)

From stdpp Require Import base gmap list strings.
From Stdlib Require Import ZArith Lia.

Set Default Proof Using "Type".

(* ===================================================================== *)
(** ** Messages *)
(* ===================================================================== *)

Module rfc5424.

(** Modelled from the spec: package [pkg/syslog/rfc5424] is a collaborator
    outside the sources. A message is an immutable record carrying at
    least an [AppName] (the buffer key) and an arbitrary body. *)
Record Message := mkMessage { AppName : string; Body : string }.

#[global] Instance Message_eq_dec : EqDecision Message.
Proof. solve_decision. Defined.

End rfc5424.

(** [*rfc5424.Message]: a pointer, [None] is Go's [nil]. *)
Abbreviation MsgPtr := (option rfc5424.Message).

(* ===================================================================== *)
(** ** Go channels *)
(* ===================================================================== *)

Module gochan.

(** A buffered channel [make(chan A, cap)]: the queued values, the
    capacity and the closed flag. A send on a closed channel panics, a
    send on a full channel blocks, a receive on a closed and drained
    channel yields the zero value with [ok = false]. *)
Record chan (A : Type) := Chan { buf : list A; cap : nat; closed : bool }.
Arguments Chan {A} _ _ _.
Arguments buf {A} _.
Arguments cap {A} _.
Arguments closed {A} _.

Definition make {A} (n : nat) : chan A := Chan [] n false.

Inductive SendResult (A : Type) :=
| Sent (c : chan A)
| SendBlocks
| SendPanics.
Arguments Sent {A} _.
Arguments SendBlocks {A}.
Arguments SendPanics {A}.

Definition send {A} (x : A) (c : chan A) : SendResult A :=
  if closed c then SendPanics
  else if decide (length (buf c) < cap c)
       then Sent (Chan (buf c ++ [x]) (cap c) (closed c))
       else SendBlocks.

Inductive RecvResult (A : Type) :=
| Received (x : A) (c : chan A)
| RecvClosed
| RecvBlocks.
Arguments Received {A} _ _.
Arguments RecvClosed {A}.
Arguments RecvBlocks {A}.

Definition recv {A} (c : chan A) : RecvResult A :=
  match buf c with
  | x :: rest => Received x (Chan rest (cap c) (closed c))
  | [] => if closed c then RecvClosed else RecvBlocks
  end.

(** [close(c)]: [None] is the panic of closing a closed channel. *)
Definition close {A} (c : chan A) : option (chan A) :=
  if closed c then None else Some (Chan (buf c) (cap c) true).

End gochan.

(* ===================================================================== *)
(** ** The ring buffer *)
(* ===================================================================== *)

Module ring.

(** Modelled from the spec: package [logaggregator/ring] is not among the
    sources. Sections 3 and 4.1 of the specification give a bounded FIFO of
    capacity C holding the messages in insertion order, oldest first, and a
    set of live subscribers; only the number of subscribers is kept here,
    their queues are the [subc] events of [Query]. *)
Record Buffer := mkBuffer {
  capacity : nat;
  messages : list MsgPtr;
  subscribers : nat
}.

Definition DefaultBufferCapacity : nat := Z.to_nat 10000.

Definition NewBuffer : Buffer := mkBuffer DefaultBufferCapacity [] 0.

(** Add(m): append m; if full, overwrite the oldest. *)
Definition Add (m : MsgPtr) (b : Buffer) : Buffer :=
  mkBuffer (capacity b)
           (drop (S (length (messages b)) - capacity b) (messages b ++ [m]))
           (subscribers b).

(** ReadAll(): the messages in insertion order, oldest first. *)
Definition ReadAll (b : Buffer) : list MsgPtr := messages b.

(** ReadLastN(n): the last min(n, count) messages in insertion order. *)
Definition ReadLastN (n : Z) (b : Buffer) : list MsgPtr :=
  drop (length (messages b) - Z.to_nat n) (messages b).

(** ReadAllAndSubscribe(): snapshot and registration of a subscriber,
    atomically. *)
Definition ReadAllAndSubscribe (b : Buffer) : list MsgPtr * Buffer :=
  (ReadAll b, mkBuffer (capacity b) (messages b) (S (subscribers b))).

(** ReadLastNAndSubscribe(n): as above, the snapshot trimmed to the last n. *)
Definition ReadLastNAndSubscribe (n : Z) (b : Buffer) : list MsgPtr * Buffer :=
  (ReadLastN n b, mkBuffer (capacity b) (messages b) (S (subscribers b))).

(** Clone(): an independent copy with no subscribers. *)
Definition Clone (b : Buffer) : Buffer :=
  mkBuffer (capacity b) (messages b) 0.

(** Flush(): discards the messages, keeps the subscribers. *)
Definition Flush (b : Buffer) : Buffer :=
  mkBuffer (capacity b) [] (subscribers b).

End ring.

(* ===================================================================== *)
(** ** Query filters *)
(* ===================================================================== *)

Module logfilter.

(** Modelled from the spec: the [filter] interface and the helpers
    [filterMessages] and [allFiltersMatch] live in a file of package
    [main] that is not among the sources. A filter is a predicate over a
    message (section 6); the helpers apply the conjunction of the filters
    (section 4.2). The predicate is handed the pointer, as [Match] is. *)
Definition filter := MsgPtr -> bool.

Definition allFiltersMatch (msg : MsgPtr) (filters : list filter) : bool :=
  forallb (fun f => f msg) filters.

Definition filterMessages (messages : list MsgPtr) (filters : list filter)
  : list MsgPtr :=
  List.filter (fun m => allFiltersMatch m filters) messages.

End logfilter.

(* ===================================================================== *)
(** ** The aggregator: [aggregator.go] *)
(* ===================================================================== *)

Module Agg.

Import logfilter.

(** [type Aggregator struct]. The mutex [bmu] is held for the whole of
    every access to [buffers], so each such access is one atomic function
    here. [pausec] is unbuffered and carries no data: its two rendezvous
    are steps of [Sched]. [pmu] is [true] while locked. *)
Record Aggregator := mkAggregator {
  buffers : gmap string ring.Buffer;
  msgc : gochan.chan MsgPtr;
  pmu : bool
}.

(** [NewAggregator]. *)
Definition NewAggregator : Aggregator :=
  mkAggregator ∅ (gochan.make 1000) false.

Definition set_buffers (bs : gmap string ring.Buffer) (a : Aggregator) :=
  mkAggregator bs (msgc a) (pmu a).
Definition set_msgc (c : gochan.chan MsgPtr) (a : Aggregator) :=
  mkAggregator (buffers a) c (pmu a).
Definition set_pmu (l : bool) (a : Aggregator) :=
  mkAggregator (buffers a) (msgc a) l.

(** [Shutdown]: [close(a.msgc)]; [None] is the panic of a second close. *)
Definition Shutdown (a : Aggregator) : option Aggregator :=
  c ← gochan.close (msgc a); Some (set_msgc c a).

(** [getBuffer]: a map read, [None] is the nil buffer. *)
Definition getBuffer (id : string) (a : Aggregator) : option ring.Buffer :=
  buffers a !! id.

(** [getOrInitializeBuffer]. *)
Definition getOrInitializeBuffer (id : string) (a : Aggregator)
  : ring.Buffer * Aggregator :=
  match buffers a !! id with
  | Some buf => (buf, a)
  | None => (ring.NewBuffer, set_buffers (<[id := ring.NewBuffer]> (buffers a)) a)
  end.

(** [readLastN]. The nil slice is the empty list. *)
Definition readLastN (id : string) (n : Z) (a : Aggregator) : list MsgPtr :=
  match getBuffer id a with
  | None => []
  | Some buf =>
      if (0 <=? n)%Z then ring.ReadLastN n buf else ring.ReadAll buf
  end.

(** [messages[len(messages)-n:]] under the guard [n > 0 && len(messages) > n]. *)
Definition truncate (n : Z) (messages : list MsgPtr) : list MsgPtr :=
  if ((0 <? n)%Z && (n <? Z.of_nat (length messages))%Z)
  then drop (length messages - Z.to_nat n) messages
  else messages.

(** The slice [messages] computed by the goroutine of [ReadLastN]. *)
Definition ReadLastN_messages (id : string) (n : Z) (filters : list filter)
    (a : Aggregator) : list MsgPtr :=
  if Nat.eqb (length filters) 0
  then readLastN id n a
  else truncate n (filterMessages (readLastN id (-1) a) filters).

(** Which method of the ring buffer took the snapshot and installed the
    subscriber. *)
Inductive RingCall :=
| ViaReadAllAndSubscribe
| ViaReadLastNAndSubscribe (n : Z).

(** The first half of the goroutine of [ReadLastNAndSubscribe], up to the
    two [defer]s: the buffer, the history to deliver, the ring method
    used and the aggregator afterwards (the buffer of [id] is shared with
    the map, so the new subscriber shows there). *)
Definition ReadLastNAndSubscribe_setup (id : string) (n : Z)
    (filters : list filter) (a : Aggregator)
  : list MsgPtr * RingCall * Aggregator :=
  let '(buf, a1) := getOrInitializeBuffer id a in
  let '(messages, buf', via) :=
    if ((0 <? length filters) && negb (n =? 0)%Z) || (n <? 0)%Z
    then let '(ms, b') := ring.ReadAllAndSubscribe buf in
         (ms, b', ViaReadAllAndSubscribe)
    else let '(ms, b') := ring.ReadLastNAndSubscribe n buf in
         (ms, b', ViaReadLastNAndSubscribe n) in
  let messages :=
    if 0 <? length filters
    then truncate n (filterMessages messages filters)
    else messages in
  (messages, via, set_buffers (<[id := buf']> (buffers a1)) a1).

(** [Feed]: [a.msgc <- msg]. *)
Inductive FeedResult :=
| Enqueued (a : Aggregator)
| FeedBlocks
| FeedPanics.

Definition Feed (msg : MsgPtr) (a : Aggregator) : FeedResult :=
  match gochan.send msg (msgc a) with
  | gochan.Sent c => Enqueued (set_msgc c a)
  | gochan.SendBlocks => FeedBlocks
  | gochan.SendPanics => FeedPanics
  end.

(** [Flush]. *)
Definition Flush (a : Aggregator) : Aggregator :=
  set_buffers (ring.Flush <$> buffers a) a.

(** [CopyBuffers]. Go ranges over the map in an unspecified order; the
    order of [map_to_list] stands for it. *)
Definition CopyBuffers (a : Aggregator) : list (list MsgPtr) :=
  (fun kv => ring.ReadAll (ring.Clone kv.2)) <$> map_to_list (buffers a).

(** One iteration of [run] on the inbound case, after [msg] was received:
    [a.getOrInitializeBuffer(string(msg.AppName)).Add(msg)]. A nil [msg]
    panics on [msg.AppName] ([None]). The test hook [afterMessage] is nil
    outside the tests. *)
Definition deliver (msg : MsgPtr) (a : Aggregator) : option Aggregator :=
  m ← msg;
  let '(buf, a1) := getOrInitializeBuffer (rfc5424.AppName m) a in
  Some (set_buffers (<[rfc5424.AppName m := ring.Add msg buf]> (buffers a1)) a1).

(** The buffered messages of [id], oldest first; none without a buffer. *)
Definition buffered (id : string) (a : Aggregator) : list MsgPtr :=
  match buffers a !! id with
  | Some b => ring.ReadAll b
  | None => []
  end.

(** One iteration of [run] on the inbound case: the receive and the
    delivery. On a closed and drained [msgc] the loop returns; on an
    empty one it waits. *)
Definition run_inbound (a : Aggregator) : option Aggregator :=
  match gochan.recv (msgc a) with
  | gochan.Received msg c => deliver msg (set_msgc c a)
  | gochan.RecvClosed => Some a
  | gochan.RecvBlocks => Some a
  end.

(** The entry points of [aggregator.go] that touch the aggregator, and
    their effect on it ([None] is a panic). The readers return their
    result elsewhere ([ReadLastN_messages], [CopyBuffers]); a blocked
    [Feed] or [Pause] has had no effect yet. *)
Inductive Method :=
| MShutdown
| MReadLastN (id : string) (n : Z) (filters : list filter)
| MReadLastNAndSubscribe (id : string) (n : Z) (filters : list filter)
| MFeed (msg : MsgPtr)
| MPauseLock
| MResumeUnlock
| MFlush
| MCopyBuffers
| MRun.

Definition call (m : Method) (a : Aggregator) : option Aggregator :=
  match m with
  | MShutdown => Shutdown a
  | MReadLastN id n filters => Some a
  | MReadLastNAndSubscribe id n filters =>
      Some (ReadLastNAndSubscribe_setup id n filters a).2
  | MFeed msg =>
      match Feed msg a with
      | Enqueued a' => Some a'
      | FeedBlocks => Some a
      | FeedPanics => None
      end
  | MPauseLock => Some (if pmu a then a else set_pmu true a)
  | MResumeUnlock => Some (set_pmu false a)
  | MFlush => Some (Flush a)
  | MCopyBuffers => Some a
  | MRun => run_inbound a
  end.

End Agg.

(* ===================================================================== *)
(** ** The producer goroutines of the two queries *)
(* ===================================================================== *)

Module Query.

Import logfilter.

(** Where the goroutine stands:
    - [History rest]: in [for _, msg := range messages], at the [select]
      that offers the head of [rest] on [msgc];
    - [Live]: at the outer [select] of the [for] loop of
      [ReadLastNAndSubscribe];
    - [LiveSend msg]: at the inner [select] that offers [msg];
    - [Returned]: the goroutine returned; its [defer]s closed [msgc]
      (and called [cancel]). *)
Inductive Phase :=
| History (rest : list MsgPtr)
| Live
| LiveSend (msg : MsgPtr)
| Returned.

(** The goroutine and what it shares: the subscriber channel [subc], the
    [done] channel (signalled or not) and the messages the consumer has
    received from the output channel [msgc]. *)
Record Producer := mkProducer {
  phase : Phase;
  subc : gochan.chan MsgPtr;
  done : bool;
  out : list MsgPtr
}.

(** The steps: three of the environment (the ring buffer enqueues on
    [subc] without blocking, [subc] is closed, [done] is signalled) and
    the three cases a [select] of the goroutine can take. *)
Inductive Label :=
| EnvAdd (m : MsgPtr)
| EnvCloseSub
| EnvDone
| SelDone
| SelSend
| SelSub.

(** After the range loop: [ReadLastN] returns, [ReadLastNAndSubscribe]
    enters its [for] loop. *)
Definition after_history (subscribe : bool) (rest : list MsgPtr) : Phase :=
  match rest with
  | [] => if subscribe then Live else Returned
  | _ :: _ => History rest
  end.

(** [msgc := make(chan *rfc5424.Message)]: the output channel is never
    nil, so the test [msgc == nil] of line 132 is false. *)
Definition msgc_is_nil : bool := false.

Definition set_phase (ph : Phase) (p : Producer) : Producer :=
  mkProducer ph (subc p) (done p) (out p).
Definition set_subc (c : gochan.chan MsgPtr) (p : Producer) : Producer :=
  mkProducer (phase p) c (done p) (out p).
Definition emit (m : MsgPtr) (ph : Phase) (p : Producer) : Producer :=
  mkProducer ph (subc p) (done p) (out p ++ [m]).

(** The body of [case msg := <-subc:]. *)
Definition on_sub (filters : list filter) (msg : MsgPtr) (p : Producer)
  : Producer :=
  if msgc_is_nil then set_phase Returned p
  else if negb (allFiltersMatch msg filters) then set_phase Live p
  else set_phase (LiveSend msg) p.

(** One step; [None] when the step is not enabled. *)
Definition step (subscribe : bool) (filters : list filter) (l : Label)
    (p : Producer) : option Producer :=
  match l with
  | EnvAdd m =>
      match gochan.send m (subc p) with
      | gochan.Sent c => Some (set_subc c p)
      | gochan.SendBlocks => Some p
      | gochan.SendPanics => None
      end
  | EnvCloseSub => c ← gochan.close (subc p); Some (set_subc c p)
  | EnvDone => Some (mkProducer (phase p) (subc p) true (out p))
  | SelDone =>
      match phase p with
      | Returned => None
      | _ => if done p then Some (set_phase Returned p) else None
      end
  | SelSend =>
      match phase p with
      | History (m :: rest) => Some (emit m (after_history subscribe rest) p)
      | LiveSend m => Some (emit m Live p)
      | _ => None
      end
  | SelSub =>
      match phase p with
      | Live =>
          match gochan.recv (subc p) with
          | gochan.Received msg c => Some (on_sub filters msg (set_subc c p))
          | gochan.RecvClosed => Some (on_sub filters None p)
          | gochan.RecvBlocks => None
          end
      | _ => None
      end
  end.

Fixpoint run (subscribe : bool) (filters : list filter) (ls : list Label)
    (p : Producer) : option Producer :=
  match ls with
  | [] => Some p
  | l :: ls' => p' ← step subscribe filters l p; run subscribe filters ls' p'
  end.

(** The goroutine once [messages] is computed. *)
Definition start (subscribe : bool) (messages : list MsgPtr)
    (sub : gochan.chan MsgPtr) : Producer :=
  mkProducer (after_history subscribe messages) sub false [].

(** [ReadLastN]: the goroutine over the aggregator [a]. *)
Definition ReadLastN (id : string) (n : Z) (filters : list filter)
    (a : Agg.Aggregator) : Producer :=
  start false (Agg.ReadLastN_messages id n filters a) (gochan.make 0).

(** [ReadLastNAndSubscribe]: the goroutine and the aggregator after the
    subscription; [sub] is the subscriber channel the ring buffer made. *)
Definition ReadLastNAndSubscribe (id : string) (n : Z) (filters : list filter)
    (sub : gochan.chan MsgPtr) (a : Agg.Aggregator)
  : Producer * Agg.Aggregator :=
  let '(messages, _, a') := Agg.ReadLastNAndSubscribe_setup id n filters a in
  (start true messages sub, a').

(** The output channel is closed exactly when the goroutine returned. *)
Definition closed (p : Producer) : bool :=
  match phase p with Returned => true | _ => false end.

(** What holds of the goroutine of [ReadLastN] over [msgs]: what was
    delivered and what remains make up [msgs]. *)
Definition history_inv (msgs : list MsgPtr) (p : Producer) : Prop :=
  match phase p with
  | History rest => out p ++ rest = msgs /\ rest <> []
  | Returned => out p `prefix_of` msgs
  | _ => False
  end.

End Query.

(* ===================================================================== *)
(** ** The replicator *)
(* ===================================================================== *)

Module Replicator.

(** Modelled from the spec: [replicator.go] of package [main] is not among
    the sources. Sections 3 and 4.3 give a set of follower sinks, each a
    bounded queue; [Feed] enqueues on every registered sink without
    blocking and disconnects (closes) a sink that is full; [Register]
    allocates a sink and deregisters it when the close notification
    fires; [Shutdown] closes all sinks and refuses further registrations.
    A sink is keyed by the connection that registered it.

    [since] and [taken] are history variables: the number of messages fed
    before the sink was registered, and the messages received from the
    sink so far. [fed] is the history of all calls of [Feed]. *)
Record Sink := mkSink {
  queue : list MsgPtr;
  limit : nat;
  closed : bool;
  since : nat;
  taken : list MsgPtr
}.

Record t := mkReplicator {
  sinks : gmap nat Sink;
  sink_limit : nat;
  down : bool;
  fed : list MsgPtr
}.

Definition NewReplicator (lim : nat) : t := mkReplicator ∅ lim false [].

Definition close_sink (sk : Sink) : Sink :=
  mkSink (queue sk) (limit sk) true (since sk) (taken sk).

Definition offer (m : MsgPtr) (sk : Sink) : Sink :=
  if closed sk then sk
  else if decide (length (queue sk) < limit sk)
       then mkSink (queue sk ++ [m]) (limit sk) false (since sk) (taken sk)
       else close_sink sk.

Definition Feed (m : MsgPtr) (r : t) : t :=
  mkReplicator (offer m <$> sinks r) (sink_limit r) (down r) (fed r ++ [m]).

Definition Register (key : nat) (r : t) : t :=
  mkReplicator
    (<[key := mkSink [] (sink_limit r) (down r) (length (fed r)) []]> (sinks r))
    (sink_limit r) (down r) (fed r).

(** The close notification of connection [key] fires. *)
Definition Deregister (key : nat) (r : t) : t :=
  mkReplicator (alter close_sink key (sinks r)) (sink_limit r) (down r) (fed r).

Definition Shutdown (r : t) : t :=
  mkReplicator (close_sink <$> sinks r) (sink_limit r) true (fed r).

(** A receive on the channel [Register] returned to connection [key]. *)
Inductive RecvResult :=
| Got (m : MsgPtr) (r : t)
| SinkClosed
| SinkEmpty.

Definition receive (key : nat) (r : t) : RecvResult :=
  match sinks r !! key with
  | None => SinkEmpty
  | Some sk =>
      match queue sk with
      | m :: rest =>
          Got m (mkReplicator
                   (<[key := mkSink rest (limit sk) (closed sk) (since sk)
                                    (taken sk ++ [m])]> (sinks r))
                   (sink_limit r) (down r) (fed r))
      | [] => if closed sk then SinkClosed else SinkEmpty
      end
  end.

(** The messages fed since the sink of [key] was registered. *)
Definition offered (key : nat) (r : t) : list MsgPtr :=
  match sinks r !! key with
  | Some sk => drop (since sk) (fed r)
  | None => []
  end.

End Replicator.

(* ===================================================================== *)
(** ** The goroutines of the server, interleaved *)
(* ===================================================================== *)

Module Sched.

(** The run loop [Aggregator.run]:
    - [RSelect]: at the [select];
    - [RDeliver msg]: [msg] was received from [msgc], before
      [getOrInitializeBuffer(..).Add(msg)];
    - [RAck]: in [case <-a.pausec:], at [a.pausec <- struct{}{}];
    - [RExit]: [msgc] was closed and drained, the loop returned. *)
Inductive RunPC :=
| RSelect
| RDeliver (msg : MsgPtr)
| RAck
| RExit.

(** The calls of [fillReplicationConn]. *)
Inductive Call :=
| CallPause
| CallCopyBuffers
| CallRegister
| CallUnpause
| CallStreamTo.

(** A replication connection, the goroutine of [fillReplicationConn]:
    - [CStart]: before [s.Aggregator.Pause()];
    - [CLocked]: in [Pause], [a.pmu.Lock()] done, at [a.pausec <- struct{}{}];
    - [CPaused]: [Pause] returned, before [CopyBuffers];
    - [CCopied]: before [Register];
    - [CRegistered]: in [unpause()], at [<-a.pausec];
    - [CUnlocking]: in [unpause()], at [a.pmu.Unlock()];
    - [CResumed]: [unpause()] returned, before [snapshot.StreamTo];
    - [CStream rest]: in [StreamTo], writing the frames of the snapshot;
    - [CTail]: in [StreamTo], forwarding what arrives on [msgc];
    - [CDrain]: [StreamTo] returned an error, in [for range msgc {}];
    - [CDone]: finished. *)
Inductive ConnPC :=
| CStart
| CLocked
| CPaused
| CCopied
| CRegistered
| CUnlocking
| CResumed
| CStream (rest : list MsgPtr)
| CTail
| CDrain
| CDone.

(** [snapshot] is the local variable [buffers], [wire] the frames written
    on the connection, [calls] the history of the calls made. *)
Record Conn := mkConn {
  pc : ConnPC;
  snapshot : list (list MsgPtr);
  wire : list MsgPtr;
  calls : list Call
}.

(** A syslog connection, the goroutine of [drainSyslogConn]: the parsed
    messages still to come, and the message already passed to
    [Aggregator.Feed] but not yet to [Replicator.Feed]. *)
Record Ingest := mkIngest {
  pending : list rfc5424.Message;
  mid : option rfc5424.Message
}.

Inductive Party :=
| PRun
| PConn (i : nat).

Inductive Label :=
| LRunRecv                        (* run: the inbound case of the select *)
| LRunDeliver                     (* run: getOrInitializeBuffer(..).Add(msg) *)
| LPausec (snd rcv : Party)       (* a rendezvous on pausec *)
| LAccept                         (* runReplication accepts a connection *)
| LConn (i : nat)                 (* the next step of connection i *)
| LConnFail (i : nat)             (* a write of StreamTo fails *)
| LCloseNotify (i : nat)          (* the close notification of i fires *)
| LSyslog (msgs : list rfc5424.Message)  (* runSyslog accepts a connection *)
| LIngest (j : nat)               (* the next step of syslog connection j *)
| LFeed (m : MsgPtr)              (* Feed by follow or LoadSnapshot *)
| LFlush                          (* Flush by follow *)
| LSubscribe (id : string) (n : Z) (filters : list logfilter.filter)
| LShutdown                       (* Aggregator.Shutdown *)
| LRepShutdown.                   (* Replicator.Shutdown *)

(** [adds] is a history variable: the messages [run] added to a buffer.
    A panic of any goroutine ends the process. *)
Record State := mkState {
  agg : Agg.Aggregator;
  runpc : RunPC;
  rep : Replicator.t;
  conns : list Conn;
  ingests : list Ingest;
  adds : list MsgPtr;
  panicked : bool
}.

Definition init (lim : nat) : State :=
  mkState Agg.NewAggregator RSelect (Replicator.NewReplicator lim) [] [] [] false.

Definition set_agg (a : Agg.Aggregator) (s : State) : State :=
  mkState a (runpc s) (rep s) (conns s) (ingests s) (adds s) (panicked s).
Definition set_runpc (r : RunPC) (s : State) : State :=
  mkState (agg s) r (rep s) (conns s) (ingests s) (adds s) (panicked s).
Definition set_rep (r : Replicator.t) (s : State) : State :=
  mkState (agg s) (runpc s) r (conns s) (ingests s) (adds s) (panicked s).
Definition set_conns (cs : list Conn) (s : State) : State :=
  mkState (agg s) (runpc s) (rep s) cs (ingests s) (adds s) (panicked s).
Definition set_ingests (gs : list Ingest) (s : State) : State :=
  mkState (agg s) (runpc s) (rep s) (conns s) gs (adds s) (panicked s).
Definition log_add (m : MsgPtr) (s : State) : State :=
  mkState (agg s) (runpc s) (rep s) (conns s) (ingests s) (adds s ++ [m])
          (panicked s).
Definition panic (s : State) : State :=
  mkState (agg s) (runpc s) (rep s) (conns s) (ingests s) (adds s) true.

Definition set_conn (i : nat) (c : Conn) (s : State) : State :=
  set_conns (<[i := c]> (conns s)) s.

Definition goto (p : ConnPC) (c : Conn) : Conn :=
  mkConn p (snapshot c) (wire c) (calls c).
Definition called (k : Call) (c : Conn) : Conn :=
  mkConn (pc c) (snapshot c) (wire c) (calls c ++ [k]).
Definition write (m : MsgPtr) (c : Conn) : Conn :=
  mkConn (pc c) (snapshot c) (wire c ++ [m]) (calls c).

Definition conn_pc (i : nat) (s : State) : option ConnPC :=
  pc <$> conns s !! i.

(** The run loop. *)
Definition run_recv (s : State) : option State :=
  match runpc s with
  | RSelect =>
      match gochan.recv (Agg.msgc (agg s)) with
      | gochan.Received msg c =>
          Some (set_runpc (RDeliver msg) (set_agg (Agg.set_msgc c (agg s)) s))
      | gochan.RecvClosed => Some (set_runpc RExit s)
      | gochan.RecvBlocks => None
      end
  | _ => None
  end.

Definition run_deliver (s : State) : option State :=
  match runpc s with
  | RDeliver msg =>
      match Agg.deliver msg (agg s) with
      | Some a => Some (log_add msg (set_runpc RSelect (set_agg a s)))
      | None => Some (panic s)
      end
  | _ => None
  end.

(** The unbuffered [pausec]: a send and a receive meet. The senders are
    [Pause] and the acknowledgement of [run]; the receivers are the
    [select] of [run] and the closure [Pause] returned. *)
Definition can_send (p : Party) (s : State) : bool :=
  match p with
  | PRun => match runpc s with RAck => true | _ => false end
  | PConn i => match conn_pc i s with Some CLocked => true | _ => false end
  end.

Definition can_recv (p : Party) (s : State) : bool :=
  match p with
  | PRun => match runpc s with RSelect => true | _ => false end
  | PConn i => match conn_pc i s with Some CRegistered => true | _ => false end
  end.

Definition update_conn (i : nat) (f : Conn -> Conn) (s : State) : State :=
  match conns s !! i with
  | Some c => set_conn i (f c) s
  | None => s
  end.

Definition did_send (p : Party) (s : State) : State :=
  match p with
  | PRun => set_runpc RSelect s
  | PConn i => update_conn i (goto CPaused) s
  end.

Definition did_recv (p : Party) (s : State) : State :=
  match p with
  | PRun => set_runpc RAck s
  | PConn i => update_conn i (fun c => called CallUnpause (goto CUnlocking c)) s
  end.

Definition rendezvous (snd rcv : Party) (s : State) : option State :=
  if can_send snd s && can_recv rcv s
  then Some (did_send snd (did_recv rcv s))
  else None.

(** [fillReplicationConn], one step. *)
Definition conn_step (i : nat) (c : Conn) (s : State) : option State :=
  match pc c with
  | CStart =>
      if Agg.pmu (agg s) then None
      else Some (set_conn i (called CallPause (goto CLocked c))
                          (set_agg (Agg.set_pmu true (agg s)) s))
  | CLocked => None
  | CPaused =>
      Some (set_conn i (called CallCopyBuffers
                          (mkConn CCopied (Agg.CopyBuffers (agg s)) (wire c)
                                  (calls c))) s)
  | CCopied =>
      Some (set_conn i (called CallRegister (goto CRegistered c))
                     (set_rep (Replicator.Register i (rep s)) s))
  | CRegistered => None
  | CUnlocking =>
      Some (set_conn i (goto CResumed c)
                     (set_agg (Agg.set_pmu false (agg s)) s))
  | CResumed =>
      Some (set_conn i (called CallStreamTo
                          (goto (CStream (concat (snapshot c))) c)) s)
  | CStream (m :: rest) => Some (set_conn i (write m (goto (CStream rest) c)) s)
  | CStream [] => Some (set_conn i (goto CTail c) s)
  | CTail =>
      match Replicator.receive i (rep s) with
      | Replicator.Got m r => Some (set_conn i (write m c) (set_rep r s))
      | Replicator.SinkClosed => Some (set_conn i (goto CDone c) s)
      | Replicator.SinkEmpty => None
      end
  | CDrain =>
      match Replicator.receive i (rep s) with
      | Replicator.Got m r => Some (set_rep r s)
      | Replicator.SinkClosed => Some (set_conn i (goto CDone c) s)
      | Replicator.SinkEmpty => None
      end
  | CDone => None
  end.

(** A write of [StreamTo] fails: [StreamTo] returns the error and
    [fillReplicationConn] starts the goroutine that drains [msgc]. *)
Definition conn_fail (i : nat) (c : Conn) (s : State) : option State :=
  match pc c with
  | CStream (_ :: _) => Some (set_conn i (goto CDrain c) s)
  | CTail =>
      match Replicator.receive i (rep s) with
      | Replicator.Got m r => Some (set_conn i (goto CDrain c) (set_rep r s))
      | _ => None
      end
  | _ => None
  end.

Definition feed (m : MsgPtr) (s : State) : option State :=
  match Agg.Feed m (agg s) with
  | Agg.Enqueued a => Some (set_agg a s)
  | Agg.FeedBlocks => None
  | Agg.FeedPanics => Some (panic s)
  end.

(** [drainSyslogConn], one step: [s.Aggregator.Feed(msg)], then
    [s.Replicator.Feed(msg)]. *)
Definition ingest_step (j : nat) (g : Ingest) (s : State) : option State :=
  match mid g with
  | Some m =>
      Some (set_ingests (<[j := mkIngest (pending g) None]> (ingests s))
                        (set_rep (Replicator.Feed (Some m) (rep s)) s))
  | None =>
      match pending g with
      | m :: rest =>
          s' ← feed (Some m) s;
          Some (if panicked s' then s'
                else set_ingests (<[j := mkIngest rest (Some m)]> (ingests s')) s')
      | [] => None
      end
  end.

Definition step_live (l : Label) (s : State) : option State :=
  match l with
  | LRunRecv => run_recv s
  | LRunDeliver => run_deliver s
  | LPausec snd rcv => rendezvous snd rcv s
  | LAccept => Some (set_conns (conns s ++ [mkConn CStart [] [] []]) s)
  | LConn i => c ← conns s !! i; conn_step i c s
  | LConnFail i => c ← conns s !! i; conn_fail i c s
  | LCloseNotify i => Some (set_rep (Replicator.Deregister i (rep s)) s)
  | LSyslog msgs => Some (set_ingests (ingests s ++ [mkIngest msgs None]) s)
  | LIngest j => g ← ingests s !! j; ingest_step j g s
  | LFeed m => feed m s
  | LFlush => Some (set_agg (Agg.Flush (agg s)) s)
  | LSubscribe id n filters =>
      Some (set_agg (Agg.ReadLastNAndSubscribe_setup id n filters (agg s)).2 s)
  | LShutdown =>
      match Agg.Shutdown (agg s) with
      | Some a => Some (set_agg a s)
      | None => Some (panic s)
      end
  | LRepShutdown => Some (set_rep (Replicator.Shutdown (rep s)) s)
  end.

(** One step of the system; nothing runs after a panic. *)
Definition step (l : Label) (s : State) : option State :=
  if panicked s then None else step_live l s.

Fixpoint exec (ls : list Label) (s : State) : option State :=
  match ls with
  | [] => Some s
  | l :: ls' => s' ← step l s; exec ls' s'
  end.

(** The states of the executions from [init]. *)
Inductive reachable (lim : nat) : State -> Prop :=
| reach_init : reachable lim (init lim)
| reach_step l s s' :
    reachable lim s -> step l s = Some s' -> reachable lim s'.

(** [Pause] has returned to the connection and its closure has not yet
    received on [pausec]. *)
Definition paused (c : Conn) : bool :=
  match pc c with
  | CPaused | CCopied | CRegistered => true
  | _ => false
  end.

(** The connection holds [pmu]. *)
Definition holding (c : Conn) : bool :=
  match pc c with
  | CLocked | CPaused | CCopied | CRegistered | CUnlocking => true
  | _ => false
  end.

(** The calls of [fillReplicationConn], in the order of the source. *)
Definition protocol : list Call :=
  [CallPause; CallCopyBuffers; CallRegister; CallUnpause; CallStreamTo].

(** How far a connection is in [protocol]. *)
Definition progress (p : ConnPC) : nat :=
  match p with
  | CStart => 0
  | CLocked | CPaused => 1
  | CCopied => 2
  | CRegistered => 3
  | CUnlocking | CResumed => 4
  | CStream _ | CTail | CDrain | CDone => 5
  end.

(** The pause protocol: at most one connection holds [pmu], [pmu] is
    locked while one does, and the run loop stands at its acknowledgement
    while a connection is paused. *)
Definition mutex_inv (s : State) : Prop :=
  (forall i j ci cj,
      conns s !! i = Some ci -> conns s !! j = Some cj ->
      holding ci = true -> holding cj = true -> i = j)
  /\ (forall i c, conns s !! i = Some c -> holding c = true ->
                  Agg.pmu (agg s) = true)
  /\ (forall i c, conns s !! i = Some c -> paused c = true -> runpc s = RAck).

(** The calls made so far are the first [progress] calls of [protocol]. *)
Definition calls_inv (c : Conn) : Prop :=
  calls c = take (progress (pc c)) protocol.

(** The messages received so far from the sink of connection [i]. *)
Definition taken_of (i : nat) (r : Replicator.t) : list MsgPtr :=
  match Replicator.sinks r !! i with
  | Some sk => Replicator.taken sk
  | None => []
  end.

(** A sink holds, in order and without gaps, the messages fed since its
    registration, up to the point where it was closed. *)
Definition sink_inv (r : Replicator.t) : Prop :=
  forall k sk, Replicator.sinks r !! k = Some sk ->
    Replicator.since sk <= length (Replicator.fed r)
    /\ Replicator.taken sk ++ Replicator.queue sk
         `prefix_of` drop (Replicator.since sk) (Replicator.fed r)
    /\ (Replicator.closed sk = false ->
         Replicator.taken sk ++ Replicator.queue sk
         = drop (Replicator.since sk) (Replicator.fed r)).

(** What a connection has written, against its snapshot and its sink. *)
Definition wire_inv (i : nat) (c : Conn) (r : Replicator.t) : Prop :=
  match pc c with
  | CStart | CLocked | CPaused | CCopied =>
      wire c = [] /\ Replicator.sinks r !! i = None
  | CRegistered | CUnlocking | CResumed =>
      wire c = [] /\ taken_of i r = []
  | CStream rest =>
      wire c ++ rest = concat (snapshot c) /\ taken_of i r = []
  | CTail => wire c = concat (snapshot c) ++ taken_of i r
  | CDrain | CDone =>
      wire c `prefix_of` concat (snapshot c) ++ taken_of i r
  end.

Definition stream_inv (s : State) : Prop :=
  sink_inv (rep s)
  /\ (forall k, is_Some (Replicator.sinks (rep s) !! k) -> k < length (conns s))
  /\ (forall i c, conns s !! i = Some c -> wire_inv i c (rep s)).

(** The per-connection invariants, over all connections. *)
Definition calls_ok (s : State) : Prop := Forall calls_inv (conns s).

(** Two executions from [init]. In the first, one message is ingested
    once: it is added to its buffer before the pause and offered to the
    replicator after the registration. In the second, three messages are
    ingested: the second is still queued on the inbound channel when the
    snapshot is taken, and was offered to the replicator before the
    registration. *)
Definition m1 : rfc5424.Message := rfc5424.mkMessage "web" "m1".
Definition m2 : rfc5424.Message := rfc5424.mkMessage "web" "m2".
Definition m3 : rfc5424.Message := rfc5424.mkMessage "web" "m3".

Definition duplicate_schedule : list Label :=
  [LSyslog [m1]; LIngest 0; LRunRecv; LRunDeliver;
   LAccept; LConn 0; LPausec (PConn 0) PRun; LConn 0; LConn 0;
   LIngest 0;
   LPausec PRun (PConn 0); LConn 0; LConn 0; LConn 0; LConn 0; LConn 0].

Definition gap_schedule : list Label :=
  [LSyslog [m1; m2; m3]; LIngest 0; LIngest 0; LRunRecv; LRunDeliver;
   LIngest 0; LIngest 0;
   LAccept; LConn 0; LPausec (PConn 0) PRun; LConn 0; LConn 0;
   LPausec PRun (PConn 0); LConn 0; LConn 0;
   LRunRecv; LRunDeliver; LIngest 0; LIngest 0; LRunRecv; LRunDeliver;
   LConn 0; LConn 0; LConn 0].

(** The state the first execution ends in, and its connection. *)
Definition duplicate_state : State :=
  default (init 8) (exec duplicate_schedule (init 8)).

Definition duplicate_conn : Conn :=
  default (mkConn CStart [] [] []) (conns duplicate_state !! 0).

(** A state in which connection 0 is paused, between [CopyBuffers] and
    [Register], with a message queued on the inbound channel. *)
Definition paused_schedule : list Label :=
  [LSyslog [m1; m2]; LIngest 0; LRunRecv; LRunDeliver;
   LAccept; LConn 0; LPausec (PConn 0) PRun; LConn 0; LIngest 0; LIngest 0].

Definition paused_state : State :=
  default (init 8) (exec paused_schedule (init 8)).

Definition paused_conn : Conn :=
  default (mkConn CStart [] [] []) (conns paused_state !! 0).

(** A state in which connection 0 drains after a failed write, with one
    message in its sink. *)
Definition drain_schedule : list Label :=
  [LSyslog [m1; m2]; LIngest 0; LIngest 0; LRunRecv; LRunDeliver;
   LAccept; LConn 0; LPausec (PConn 0) PRun; LConn 0; LConn 0;
   LPausec PRun (PConn 0); LConn 0; LConn 0;
   LIngest 0; LIngest 0; LConnFail 0].

Definition drain_state : State :=
  default (init 8) (exec drain_schedule (init 8)).

Definition drain_conn : Conn :=
  default (mkConn CStart [] [] []) (conns drain_state !! 0).

End Sched.

(* ===================================================================== *)
(** ** The role controller: [monitorDiscoverd] and [follow] *)
(* ===================================================================== *)

Module Role.

(** Modelled from the spec: the discovery client is a collaborator outside
    the sources. An event has a kind and, for a leader event, the
    instance of the new leader with its address. *)
Inductive EventKind :=
| EventKindUp
| EventKindUpdate
| EventKindDown
| EventKindLeader.

Record Event := mkEvent { Kind : EventKind; Addr : string }.

(** What the controller does to the world, in order. *)
Inductive Effect :=
| EDial (addr : string) (ok : bool)      (* net.Dial("tcp", addr) *)
| EFlush                                 (* s.Aggregator.Flush() *)
| ESpawn (unfollowc : nat) (addr : string)  (* go func() {...}() of follow *)
| EClose (unfollowc : nat)               (* close(unfollowc) *)
| ELogLeader                             (* "status", "leader" *)
| ELogFollower (addr : string)           (* "status", "follower" *)
| ELogError.                             (* "replication error" *)

(** The decoder goroutine of [follow] on the unfollow channel [unfollowc];
    it runs until it returns. *)
Record Decoder := mkDecoder { unfollowc_of : nat; running : bool }.

(** The server as the controller sees it: the aggregator, the own address
    [s.hb.Addr()], the unfollow channels made so far (closed or not), the
    decoder goroutines spawned so far and the trace of effects. *)
Record Server := mkServer {
  agg : Agg.Aggregator;
  self : string;
  chans : list bool;
  decoders : list Decoder;
  trace : list Effect
}.

Definition effect (e : Effect) (s : Server) : Server :=
  mkServer (agg s) (self s) (chans s) (decoders s) (trace s ++ [e]).

(** [follow]. [dial_ok] is the outcome of [net.Dial]. The result is the
    pair [(unfollowc, err)] of the source: the channel or nil, and whether
    [err] is non-nil. *)
Definition follow (dial_ok : bool) (addr : string) (s : Server)
  : option nat * bool * Server :=
  let s := effect (EDial addr dial_ok) s in
  if negb dial_ok then (None, true, s)
  else
    let s := effect EFlush
               (mkServer (Agg.Flush (agg s)) (self s) (chans s) (decoders s)
                         (trace s)) in
    let unfollowc := length (chans s) in
    let s := effect (ESpawn unfollowc addr)
               (mkServer (agg s) (self s) (chans s ++ [false])
                         (decoders s ++ [mkDecoder unfollowc true]) (trace s)) in
    (Some unfollowc, false, s).

(** [close(unfollowc)]; [None] is the panic of closing a closed channel. *)
Definition close_chan (c : nat) (s : Server) : option Server :=
  match chans s !! c with
  | Some false =>
      Some (effect (EClose c)
              (mkServer (agg s) (self s) (<[c := true]> (chans s)) (decoders s)
                        (trace s)))
  | _ => None
  end.

(** The loop of [monitorDiscoverd]: the variable [unfollowc] and the
    server. *)
Record Monitor := mkMonitor { srv : Server; unfollowc : option nat }.

(** The body of [for event := range s.eventc], on one event. The boolean
    of the result is [true] when the loop returns (the server leads). *)
Definition on_event (dial_ok : bool) (event : Event) (m : Monitor)
  : option (Monitor * bool) :=
  match Kind event with
  | EventKindLeader =>
      s1 ← match unfollowc m with
           | Some c => close_chan c (srv m)
           | None => Some (srv m)
           end;
      if negb (String.eqb (Addr event) (self s1))
      then
        let '(u, err, s2) := follow dial_ok (Addr event) s1 in
        let s3 := if err then effect ELogError s2
                  else effect (ELogFollower (Addr event)) s2 in
        Some (mkMonitor s3 u, false)
      else Some (mkMonitor (effect ELogLeader s1) (unfollowc m), true)
  | _ => Some (m, false)
  end.

(** One iteration of the decoder goroutine [d]: [sc.Scan()] yields
    [frame] ([None] at the end of the stream or on an error), then the
    [select] looks at [unfollowc], then [s.Aggregator.Feed(sc.Message)]. *)
Inductive Iter :=
| Stopped (s : Server)
| Fed (s : Server)
| Blocked
| Panicked.

Definition stop (d : nat) (s : Server) : Server :=
  mkServer (agg s) (self s) (chans s)
           (alter (fun x => mkDecoder (unfollowc_of x) false) d (decoders s))
           (trace s).

Definition decoder_iter (d : nat) (frame : option MsgPtr) (s : Server)
  : option Iter :=
  x ← decoders s !! d;
  if negb (running x) then None
  else
    match frame with
    | None => Some (Stopped (stop d s))
    | Some msg =>
        match chans s !! unfollowc_of x with
        | Some true => Some (Stopped (stop d s))
        | _ =>
            match Agg.Feed msg (agg s) with
            | Agg.Enqueued a =>
                Some (Fed (mkServer a (self s) (chans s) (decoders s) (trace s)))
            | Agg.FeedBlocks => Some Blocked
            | Agg.FeedPanics => Some Panicked
            end
        end
    end.

End Role.

(* ===================================================================== *)
(** ** The flow of messages through the run loop *)
(* ===================================================================== *)

Module Flow.

Import Sched.

(** The message [run] has received from [msgc] and not yet added. *)
Definition in_hand (r : RunPC) : list MsgPtr :=
  match r with
  | RDeliver msg => [msg]
  | _ => []
  end.

(** The messages that went into [a.msgc], in the order of their sends:
    those already added to a buffer, the one in the hands of [run], and
    those still queued. *)
Definition inflight (s : State) : list MsgPtr :=
  adds s ++ in_hand (runpc s) ++ gochan.buf (Agg.msgc (agg s)).

(** The message a step sends on [a.msgc]: the argument of a [Feed] by
    [follow] or [LoadSnapshot], or the next message of a syslog connection
    that is at its [s.Aggregator.Feed(msg)]. *)
Definition fed_by (l : Label) (s : State) : list MsgPtr :=
  match l with
  | LFeed m => [m]
  | LIngest j =>
      match ingests s !! j with
      | Some g =>
          match mid g, pending g with
          | None, m :: _ => [Some m]
          | _, _ => []
          end
      | None => []
      end
  | _ => []
  end.

(** The messages sent on [a.msgc] along an execution. *)
Fixpoint fed_along (ls : list Label) (s : State) : list MsgPtr :=
  match ls with
  | [] => []
  | l :: ls' =>
      match step l s with
      | Some s' => fed_by l s ++ fed_along ls' s'
      | None => []
      end
  end.

(** [msg] is a message of application [id]. *)
Definition routed (id : string) (msg : MsgPtr) : bool :=
  match msg with
  | Some m => bool_decide (rfc5424.AppName m = id)
  | None => false
  end.

(** Every buffer holds the latest of the messages [run] added for its
    application, in the order of the additions. *)
Definition buffers_inv (s : State) : Prop :=
  forall id b, Agg.buffers (agg s) !! id = Some b ->
    ring.messages b `suffix_of` List.filter (routed id) (adds s).

(** After [run] has returned, the inbound channel is closed and empty. *)
Definition exit_inv (s : State) : Prop :=
  runpc s = RExit ->
  gochan.closed (Agg.msgc (agg s)) = true
  /\ gochan.buf (Agg.msgc (agg s)) = [].

(** Whoever keeps [pmu] locked or [run] waiting is a connection in the
    middle of its pause. *)
Definition owner_inv (s : State) : Prop :=
  (Agg.pmu (agg s) = true ->
     exists i c, conns s !! i = Some c /\ holding c = true)
  /\ (runpc s = RAck ->
     exists i c, conns s !! i = Some c /\ paused c = true).

(** [run] after [Shutdown]: as many turns of receive and [Add] as there
    are queued messages, then the receive that finds the channel closed. *)
Fixpoint drain_labels (n : nat) : list Label :=
  match n with
  | 0 => [LRunRecv]
  | S n' => LRunRecv :: LRunDeliver :: drain_labels n'
  end.

(** The steps by which a paused connection lets [run] go on. *)
Definition release_labels (i : nat) (p : ConnPC) : list Label :=
  match p with
  | CPaused => [LConn i; LConn i; LPausec PRun (PConn i)]
  | CCopied => [LConn i; LPausec PRun (PConn i)]
  | _ => [LPausec PRun (PConn i)]
  end.

(** Two messages fed in a row, for the examples. *)
Definition two_feeds : list Label :=
  [LFeed (Some m1); LFeed (Some m2); LRunRecv; LRunDeliver].

End Flow.

(* ===================================================================== *)
(** ** Snapshots on disk: [LoadSnapshot] and [WriteSnapshot] *)
(* ===================================================================== *)

Module Persist.

(** The outcome of [os.Open(path)]: the file does not exist, another
    error, or a file whose scanner yields [frames] and then stops, with
    or without a terminal error ([sc.Err()]). *)
Inductive OpenResult :=
| NotExist
| OpenFailed
| Opened (frames : list MsgPtr) (scan_err : bool).

(** [for sc.Scan() { s.Aggregator.Feed(sc.Message) }]: the aggregator
    after all frames were fed, or the aggregator and the frames left when a
    [Feed] blocks, or the panic of a [Feed]. *)
Inductive FeedAll :=
| FedAll (a : Agg.Aggregator)
| FeedAllBlocks (a : Agg.Aggregator) (rest : list MsgPtr)
| FeedAllPanics.

Fixpoint feed_all (frames : list MsgPtr) (a : Agg.Aggregator) : FeedAll :=
  match frames with
  | [] => FedAll a
  | m :: rest =>
      match Agg.Feed m a with
      | Agg.Enqueued a' => feed_all rest a'
      | Agg.FeedBlocks => FeedAllBlocks a (m :: rest)
      | Agg.FeedPanics => FeedAllPanics
      end
  end.

(** [LoadSnapshot]: the error returned ([true] when not nil) and the
    aggregator, unless a [Feed] blocks or panics. *)
Inductive LoadResult :=
| LoadReturns (err : bool) (a : Agg.Aggregator)
| LoadBlocks (a : Agg.Aggregator) (rest : list MsgPtr)
| LoadPanics.

Definition LoadSnapshot (f : OpenResult) (a : Agg.Aggregator) : LoadResult :=
  match f with
  | NotExist => LoadReturns false a
  | OpenFailed => LoadReturns true a
  | Opened frames scan_err =>
      match feed_all frames a with
      | FedAll a' => LoadReturns scan_err a'
      | FeedAllBlocks a' rest => LoadBlocks a' rest
      | FeedAllPanics => LoadPanics
      end
  end.

(** Modelled from the spec: [snapshot.WriteTo] is not among the sources;
    section 4.4 has it write each message of each buffer as one frame, in
    the order given, and return on the first write error. [fail_at] is the
    number of frames written before a write fails, if one does. *)
Definition WriteTo (buffers : list (list MsgPtr)) (fail_at : option nat)
  : list MsgPtr * bool :=
  match fail_at with
  | Some k =>
      if decide (k < length (concat buffers))
      then (take k (concat buffers), true)
      else (concat buffers, false)
  | None => (concat buffers, false)
  end.

(** [WriteSnapshot]: the frames written to the file and the error
    returned. [create_ok] is the outcome of [os.Create]. *)
Definition WriteSnapshot (create_ok : bool) (fail_at : option nat)
    (a : Agg.Aggregator) : list MsgPtr * bool :=
  if create_ok then WriteTo (Agg.CopyBuffers a) fail_at else ([], true).

(** The run loop delivering [msgs] one after the other. *)
Fixpoint replay (msgs : list MsgPtr) (a : Agg.Aggregator)
  : option Agg.Aggregator :=
  match msgs with
  | [] => Some a
  | m :: rest => a' ← Agg.deliver m a; replay rest a'
  end.

(** Every buffer has the capacity of [ring.NewBuffer], holds no more
    than that, and holds messages of its own application only. *)
Definition well_kept (a : Agg.Aggregator) : Prop :=
  forall id b, Agg.buffers a !! id = Some b ->
    ring.capacity b = ring.DefaultBufferCapacity
    /\ length (ring.messages b) <= ring.DefaultBufferCapacity
    /\ Forall (fun m => Flow.routed id m = true) (ring.messages b).

(** An aggregator with two buffers, for the examples. *)
Definition two_apps : Agg.Aggregator :=
  default Agg.NewAggregator
    (replay [Some Sched.m1;
             Some (rfc5424.mkMessage "db" "d1");
             Some Sched.m2] Agg.NewAggregator).

(** The aggregator after [l] went into the open inbound channel. *)
Definition enqueued (l : list MsgPtr) (a : Agg.Aggregator) : Agg.Aggregator :=
  Agg.set_msgc (gochan.Chan (gochan.buf (Agg.msgc a) ++ l)
                            (gochan.cap (Agg.msgc a)) false) a.

End Persist.

(* ===================================================================== *)
(** ** The live loop of [ReadLastNAndSubscribe], along an execution *)
(* ===================================================================== *)

Module Stream.

Import logfilter Query.

(** What a step of the goroutine receives from [subc]: a queued message,
    or the nil of a closed and drained channel. *)
Definition took (l : Label) (p : Producer) : list MsgPtr :=
  match l, phase p with
  | SelSub, Live =>
      match gochan.recv (subc p) with
      | gochan.Received msg _ => [msg]
      | gochan.RecvClosed => [None]
      | gochan.RecvBlocks => []
      end
  | _, _ => []
  end.

(** What a step of the ring buffer queues on [subc]. *)
Definition put (l : Label) (p : Producer) : list MsgPtr :=
  match l with
  | EnvAdd m =>
      match gochan.send m (subc p) with
      | gochan.Sent _ => [m]
      | _ => []
      end
  | _ => []
  end.

(** The messages received from, and queued on, [subc] along an
    execution. *)
Fixpoint along (f : Label -> Producer -> list MsgPtr) (subscribe : bool)
    (filters : list filter) (ls : list Label) (p : Producer) : list MsgPtr :=
  match ls with
  | [] => []
  | l :: ls' =>
      match step subscribe filters l p with
      | Some p' => f l p ++ along f subscribe filters ls' p'
      | None => []
      end
  end.

(** What holds of the goroutine of [ReadLastNAndSubscribe] over the
    history [msgs], when it has received [rcv] from [subc]: the history
    goes first, then the matching ones among [rcv], of which at most the
    last is still to be sent. *)
Definition live_inv (filters : list filter) (msgs rcv : list MsgPtr)
    (p : Producer) : Prop :=
  match phase p with
  | History rest => out p ++ rest = msgs /\ rest <> [] /\ rcv = []
  | Live => out p = msgs ++ filterMessages rcv filters
  | LiveSend m =>
      exists r, rcv = r ++ [m] /\ allFiltersMatch m filters = true
                /\ out p = msgs ++ filterMessages r filters
  | Returned =>
      (rcv = [] /\ out p `prefix_of` msgs)
      \/ exists r, r `prefix_of` rcv /\ length rcv <= S (length r)
                   /\ out p = msgs ++ filterMessages r filters
  end.

(** [subc] is a queue: what was received and what is still queued is
    what was queued at the start and since, followed by one nil for every
    receive on the closed and drained channel. *)
Definition fifo_inv (q0 rcv puts : list MsgPtr) (p : Producer) : Prop :=
  exists k,
    rcv ++ gochan.buf (subc p) = q0 ++ puts ++ replicate k None
    /\ (k <> 0 -> gochan.closed (subc p) = true /\ gochan.buf (subc p) = []).

(** A subscriber that gets two messages after the history, for the
    examples. *)
Definition two_live : list Label :=
  [SelSend; EnvAdd (Some Sched.m2); EnvAdd (Some Sched.m3);
   SelSub; SelSend; SelSub].

End Stream.

(* ===================================================================== *)
(** ** [monitorDiscoverd] and the decoder of [follow], as a whole *)
(* ===================================================================== *)

Module Controller.

Import Role.

(** [monitorDiscoverd] before its loop. [leader] is the address of the
    instance [s.srv.Leader()] returned, if it returned one; its error is
    only logged. The boolean of the result is [true] when
    [monitorDiscoverd] returns there. *)
Definition monitor_start (leader : option string) (dial_ok : bool)
    (s : Server) : Monitor * bool :=
  match leader with
  | None => (mkMonitor s None, false)
  | Some addr =>
      if String.eqb addr (self s)
      then (mkMonitor (effect ELogLeader s) None, true)
      else
        let '(u, err, s2) := follow dial_ok addr s in
        (mkMonitor (if err then effect ELogError s2 else s2) u, false)
  end.

(** [for event := range s.eventc]: the events received, each with the
    outcome of the dial it may cause. The loop returns on the event that
    makes the server the leader; [None] is a panic. *)
Fixpoint monitor_loop (events : list (Event * bool)) (m : Monitor)
  : option (Monitor * bool) :=
  match events with
  | [] => Some (m, false)
  | (event, dial_ok) :: rest =>
      match on_event dial_ok event m with
      | Some (m', true) => Some (m', true)
      | Some (m', false) => monitor_loop rest m'
      | None => None
      end
  end.

Definition monitorDiscoverd (leader : option string) (dial_ok : bool)
    (events : list (Event * bool)) (s : Server) : option (Monitor * bool) :=
  let '(m, returned) := monitor_start leader dial_ok s in
  if returned then Some (m, true) else monitor_loop events m.

(** The only unfollow channel that can be open is the one the loop holds
    in [unfollowc], and it is open as long as the loop runs. *)
Definition tidy (returned : bool) (m : Monitor) : Prop :=
  (forall i, chans (srv m) !! i = Some false ->
             returned = false /\ unfollowc m = Some i)
  /\ (returned = false ->
      forall c, unfollowc m = Some c -> chans (srv m) !! c = Some false).

(** What the controller leaves alone. *)
Definition same_core (s s' : Server) : Prop :=
  self s' = self s
  /\ Agg.msgc (agg s') = Agg.msgc (agg s)
  /\ Agg.pmu (agg s') = Agg.pmu (agg s).

(** The decoder goroutine [d] over the frames its scanner yields, up to
    the end of the stream. *)
Fixpoint decoder_run (d : nat) (frames : list MsgPtr) (s : Server)
  : option Iter :=
  match frames with
  | [] => decoder_iter d None s
  | msg :: rest =>
      match decoder_iter d (Some msg) s with
      | Some (Fed s') => decoder_run d rest s'
      | r => r
      end
  end.

Definition set_agg (a : Agg.Aggregator) (s : Server) : Server :=
  mkServer a (self s) (chans s) (decoders s) (trace s).

(** A server that has just been created, and one that follows. *)
Definition fresh : Server :=
  mkServer Agg.NewAggregator "10.0.0.1:514" [] [] [].

Definition following : Server :=
  (follow true "10.0.0.2:514" fresh).2.

End Controller.

(* ===================================================================== *)
(** ** The two feeds of [drainSyslogConn] *)
(* ===================================================================== *)

Module Ingestion.

Import Sched.

(** The message a syslog connection has passed to [Aggregator.Feed] and
    not yet to [Replicator.Feed]. *)
Definition between (g : Ingest) : option MsgPtr := Some <$> mid g.

(** These messages, over all syslog connections. *)
Definition halfway (s : State) : list MsgPtr := omap between (ingests s).

(** Two syslog connections whose messages reach the replicator in the
    other order than the aggregator. *)
Definition crossed_schedule : list Label :=
  [LSyslog [m1]; LSyslog [m2]; LIngest 0; LIngest 1; LIngest 1; LIngest 0].

End Ingestion.

(* ===================================================================== *)
(** ** The goroutine of [ReadLastNAndSubscribe] with its deferred calls *)
(* ===================================================================== *)

Module Subscription.

Import logfilter Query.

(** Modelled from the spec: [cancel], returned by the ring buffer with
    [subc], detaches the subscriber and closes [subc] (section 4.1). *)
Definition cancel (p : Producer) : Producer :=
  set_subc (gochan.Chan (gochan.buf (subc p)) (gochan.cap (subc p)) true) p.

(** One step of the goroutine or of its environment. When the goroutine
    returns, its deferred calls run: [close(msgc)], then [cancel()]. The
    goroutine keeps [cancel] to itself and a buffer is never destroyed
    (section 3), so nothing else closes [subc]: the steps of the
    environment are the enqueue of the ring buffer and the signal on
    [done]. *)
Definition step (filters : list filter) (l : Label) (p : Producer)
  : option Producer :=
  match l with
  | EnvCloseSub => None
  | _ =>
      p' ← Query.step true filters l p;
      Some (if closed p' && negb (closed p) then cancel p' else p')
  end.

Fixpoint run (filters : list filter) (ls : list Label) (p : Producer)
  : option Producer :=
  match ls with
  | [] => Some p
  | l :: ls' => p' ← step filters l p; run filters ls' p'
  end.

(** The messages the ring buffer offers to the subscriber along an
    execution. *)
Fixpoint offered (ls : list Label) : list MsgPtr :=
  match ls with
  | [] => []
  | EnvAdd m :: ls' => m :: offered ls'
  | _ :: ls' => offered ls'
  end.



End Subscription.

(* ===================================================================== *)
(** * Properties *)
(* ===================================================================== *)

(** ** Lists: the last n elements and filtering *)

Section ListFacts.
Context {A : Type}.
Implicit Types l k : list A.

Lemma drop_sublist n l : sublist (drop n l) l.
Proof. apply sublist_drop. Qed.

Lemma length_drop_last n l : length (drop (length l - n) l) ≤ n.
Proof. rewrite length_drop. lia. Qed.

Lemma filter_sublist (f : A -> bool) l : sublist (List.filter f l) l.
Proof.
  induction l as [|x l IH]; simpl; [constructor|].
  destruct (f x); by constructor.
Qed.

Lemma filter_Forall (f : A -> bool) l :
  Forall (fun x => f x = true) (List.filter f l).
Proof.
  apply Forall_forall. intros x Hx.
  apply list_elem_of_In, List.filter_In in Hx. tauto.
Qed.

Lemma Forall_sublist (P : A -> Prop) l k :
  sublist l k -> Forall P k -> Forall P l.
Proof.
  intros Hs Hk. apply Forall_forall. intros x Hx.
  rewrite Forall_forall in Hk. apply Hk.
  by apply (sublist_subseteq _ _ Hs).
Qed.

Lemma prefix_sublist l k : l `prefix_of` k -> sublist l k.
Proof. intros [r ->]. by apply sublist_inserts_r. Qed.

End ListFacts.

(** ** The aggregator, method by method *)

Section AggFacts.
Import logfilter Agg.
Implicit Types (a : Aggregator) (id : string) (n : Z).
Implicit Types (filters : list filter) (ms : list MsgPtr).

Lemma truncate_positive n ms :
  (0 < n)%Z -> truncate n ms = drop (length ms - Z.to_nat n) ms.
Proof.
  intros Hn. unfold truncate.
  destruct (0 <? n)%Z eqn:H0; [|lia]. simpl.
  destruct (n <? Z.of_nat (length ms))%Z eqn:H1; [done|].
  apply Z.ltb_ge in H1.
  replace (length ms - Z.to_nat n) with 0 by lia. done.
Qed.

Lemma truncate_nonpositive n ms : (n <= 0)%Z -> truncate n ms = ms.
Proof.
  intros Hn. unfold truncate. destruct (0 <? n)%Z eqn:H0; [lia|done].
Qed.

Lemma truncate_nil n : truncate n [] = [].
Proof. unfold truncate. by destruct (_ && _). Qed.

Lemma truncate_sublist n ms : sublist (truncate n ms) ms.
Proof.
  unfold truncate. destruct (_ && _); [apply drop_sublist|done].
Qed.

Lemma truncate_length n ms :
  (0 < n)%Z -> length (truncate n ms) ≤ Z.to_nat n.
Proof. intros Hn. rewrite truncate_positive by done. apply length_drop_last. Qed.

Lemma readLastN_all id a : readLastN id (-1) a = buffered id a.
Proof. unfold readLastN, getBuffer, buffered. by destruct (buffers a !! id). Qed.

Lemma readLastN_nonneg id n a :
  (0 <= n)%Z ->
  readLastN id n a
  = drop (length (buffered id a) - Z.to_nat n) (buffered id a).
Proof.
  intros Hn. unfold readLastN, getBuffer, buffered.
  destruct (buffers a !! id); [|done].
  destruct (0 <=? n)%Z eqn:H0; [done|lia].
Qed.

Lemma readLastN_negative id n a :
  (n < 0)%Z -> readLastN id n a = buffered id a.
Proof.
  intros Hn. unfold readLastN, getBuffer, buffered.
  destruct (buffers a !! id); [|done].
  destruct (0 <=? n)%Z eqn:H0; [lia|done].
Qed.

Lemma filters_nonempty filters : filters <> [] -> Nat.eqb (length filters) 0 = false.
Proof. by destruct filters. Qed.

Lemma filters_nonempty_ltb filters : filters <> [] -> (0 <? length filters) = true.
Proof. by destruct filters. Qed.

Lemma ReadLastN_messages_filtered id n filters a :
  filters <> [] ->
  ReadLastN_messages id n filters a
  = truncate n (filterMessages (buffered id a) filters).
Proof.
  intros Hf. unfold ReadLastN_messages.
  by rewrite filters_nonempty, readLastN_all.
Qed.

Lemma getOrInitializeBuffer_lookup id a :
  buffers (getOrInitializeBuffer id a).2 !! id
  = Some (getOrInitializeBuffer id a).1.
Proof.
  unfold getOrInitializeBuffer.
  destruct (buffers a !! id) eqn:E; simpl; [done|].
  apply lookup_insert_eq.
Qed.

Lemma getOrInitializeBuffer_other id id' a :
  id' <> id ->
  buffers (getOrInitializeBuffer id a).2 !! id' = buffers a !! id'.
Proof.
  intros Hne. unfold getOrInitializeBuffer.
  destruct (buffers a !! id) eqn:E; simpl; [done|].
  by rewrite lookup_insert_ne.
Qed.

Lemma getOrInitializeBuffer_messages id a :
  ring.messages (getOrInitializeBuffer id a).1 = buffered id a.
Proof.
  unfold getOrInitializeBuffer, buffered.
  by destruct (buffers a !! id).
Qed.

End AggFacts.

(** ** The goroutine of [ReadLastN] *)

Section QueryFacts.
Import logfilter Query.
Implicit Types (p : Producer) (msgs : list MsgPtr).

Lemma start_history_inv msgs sub : history_inv msgs (start false msgs sub).
Proof.
  unfold history_inv, start. destruct msgs as [|m msgs]; simpl.
  - by exists [].
  - done.
Qed.

Lemma step_history_inv filters msgs l p p' :
  history_inv msgs p -> step false filters l p = Some p' -> history_inv msgs p'.
Proof.
  unfold history_inv. intros Hinv Hstep.
  destruct l; simpl in Hstep.
  - destruct (gochan.send m (subc p)); simplify_eq; done.
  - destruct (gochan.close (subc p)); simpl in Hstep; simplify_eq; done.
  - simplify_eq. done.
  - destruct (phase p) eqn:Hp; try done.
    destruct (done p); simplify_eq. simpl.
    destruct Hinv as [<- _]. by exists rest.
  - destruct (phase p) as [[|m rest]| | |] eqn:Hp; try done.
    simplify_eq. destruct Hinv as [<- _]. simpl.
    destruct rest as [|m' rest]; simpl.
    + done.
    + split; [by rewrite <- app_assoc|done].
  - by destruct (phase p).
Qed.

Lemma run_history_inv filters msgs ls p p' :
  history_inv msgs p -> run false filters ls p = Some p' -> history_inv msgs p'.
Proof.
  revert p. induction ls as [|l ls IH]; intros p Hinv Hrun; simpl in Hrun.
  - by simplify_eq.
  - destruct (step false filters l p) as [q|] eqn:Hq; [|done].
    simpl in Hrun. eapply IH; [|done]. by eapply step_history_inv.
Qed.

Lemma history_inv_prefix msgs p : history_inv msgs p -> out p `prefix_of` msgs.
Proof.
  unfold history_inv. destruct (phase p); try done.
  intros [<- _]. by exists rest.
Qed.

Lemma history_inv_nil p : history_inv [] p -> out p = [] /\ closed p = true.
Proof.
  unfold history_inv, closed. destruct (phase p) eqn:Hp; try done.
  - intros [H Hne]. by apply app_eq_nil in H as [_ ?].
  - intros H. by apply prefix_nil_inv in H.
Qed.

(** What the loop gets right: on a signal on [done] the goroutine
    returns and closes its output, with nothing more delivered. *)
Lemma producer_returns_on_done subscribe filters p :
  done p = true -> closed p = false ->
  exists p',
    step subscribe filters SelDone p = Some p'
    /\ closed p' = true /\ out p' = out p.
Proof.
  intros Hd Hc. unfold closed in Hc. unfold step.
  destruct (phase p); try done; rewrite Hd; by eexists.
Qed.

End QueryFacts.

(** ** The subscription of [ReadLastNAndSubscribe] *)

Section SetupFacts.
Import logfilter Agg.
Implicit Types (a : Aggregator) (id : string) (n : Z).
Implicit Types (filters : list filter).

(** The buffer after the subscriber was installed. *)
Lemma setup_buffers id n filters a :
  buffers (ReadLastNAndSubscribe_setup id n filters a).2
  = <[id := ring.mkBuffer (ring.capacity (getOrInitializeBuffer id a).1)
                          (buffered id a)
                          (S (ring.subscribers (getOrInitializeBuffer id a).1))]>
      (buffers a).
Proof.
  unfold ReadLastNAndSubscribe_setup.
  rewrite <- (getOrInitializeBuffer_messages id a).
  unfold getOrInitializeBuffer.
  destruct (buffers a !! id) as [buf|] eqn:E;
    destruct (_ || _); simpl; try done;
    by rewrite insert_insert_eq.
Qed.

Lemma setup_via id n filters a :
  (ReadLastNAndSubscribe_setup id n filters a).1.2
  = if ((0 <? length filters) && negb (n =? 0)%Z) || (n <? 0)%Z
    then ViaReadAllAndSubscribe else ViaReadLastNAndSubscribe n.
Proof.
  unfold ReadLastNAndSubscribe_setup.
  destruct (getOrInitializeBuffer id a) as [buf a1].
  by destruct (_ || _).
Qed.

Lemma setup_history id n filters a :
  (ReadLastNAndSubscribe_setup id n filters a).1.1
  = let snapshot :=
      if ((0 <? length filters) && negb (n =? 0)%Z) || (n <? 0)%Z
      then buffered id a
      else drop (length (buffered id a) - Z.to_nat n) (buffered id a) in
    if 0 <? length filters
    then truncate n (filterMessages snapshot filters)
    else snapshot.
Proof.
  unfold ReadLastNAndSubscribe_setup.
  rewrite <- (getOrInitializeBuffer_messages id a).
  destruct (getOrInitializeBuffer id a) as [buf a1].
  by destruct (_ || _).
Qed.

Lemma call_creates_buffer m id a a' :
  call m a = Some a' ->
  buffers a !! id = None -> is_Some (buffers a' !! id) ->
  (exists n filters, m = MReadLastNAndSubscribe id n filters)
  \/ (m = MRun /\ exists msg c,
         gochan.recv (msgc a) = gochan.Received (Some msg) c
         /\ rfc5424.AppName msg = id).
Proof.
  intros Hcall Hnone [b Hb].
  destruct m; simpl in Hcall.
  - unfold Shutdown in Hcall.
    destruct (gochan.close (msgc a)); simpl in Hcall; simplify_eq;
      simpl in Hb; congruence.
  - simplify_eq; congruence.
  - simplify_eq. rewrite setup_buffers in Hb.
    destruct (decide (id0 = id)) as [->|Hne]; [by eauto|].
    rewrite lookup_insert_ne in Hb by done. congruence.
  - unfold Feed in Hcall.
    destruct (gochan.send msg (msgc a)); simplify_eq; simpl in Hb; congruence.
  - simplify_eq; destruct (pmu a); simpl in Hb; congruence.
  - simplify_eq; simpl in Hb; congruence.
  - simplify_eq. simpl in Hb. rewrite lookup_fmap, Hnone in Hb. done.
  - simplify_eq; congruence.
  - right. split; [done|]. unfold run_inbound in Hcall.
    destruct (gochan.recv (msgc a)) as [msg c| |] eqn:Hrecv;
      simplify_eq; try congruence.
    destruct msg as [msg|]; simpl in Hcall; [|done].
    exists msg, c. split; [done|].
    destruct (getOrInitializeBuffer (rfc5424.AppName msg) (set_msgc c a))
      as [buf a1] eqn:Hg.
    simplify_eq. simpl in Hb.
    destruct (decide (rfc5424.AppName msg = id)) as [|Hne]; [done|].
    rewrite lookup_insert_ne in Hb by done.
    pose proof (getOrInitializeBuffer_other (rfc5424.AppName msg) id
                  (set_msgc c a) (not_eq_sym Hne)) as Ho.
    rewrite Hg in Ho. simpl in Ho. congruence.
Qed.

Lemma run_take_all filters msgs p :
  Query.phase p = Query.after_history false msgs ->
  Query.run false filters (replicate (length msgs) Query.SelSend) p
  = Some (Query.mkProducer Query.Returned (Query.subc p) (Query.done p)
                           (Query.out p ++ msgs)).
Proof.
  revert p. induction msgs as [|m msgs IH]; intros [ph sb dn o] Hph;
    simpl in Hph; subst ph.
  - simpl. by rewrite app_nil_r.
  - transitivity
      (Query.run false filters (replicate (length msgs) Query.SelSend)
         (Query.emit m (Query.after_history false msgs)
            (Query.mkProducer (Query.History (m :: msgs)) sb dn o)));
      [reflexivity|].
    rewrite IH by done. simpl. by rewrite <- app_assoc.
Qed.

End SetupFacts.

(** ** The stream of [ReadLastNAndSubscribe] *)

Section StreamFacts.
Import logfilter Query Stream.
Implicit Types (p : Producer) (msgs rcv : list MsgPtr) (l : Label).
Implicit Types (filters : list filter).

Lemma filterMessages_snoc ms m filters :
  filterMessages (ms ++ [m]) filters
  = filterMessages ms filters
    ++ (if allFiltersMatch m filters then [m] else []).
Proof. unfold filterMessages. by rewrite List.filter_app. Qed.

Lemma start_live_inv filters msgs sub :
  live_inv filters msgs [] (start true msgs sub).
Proof.
  unfold live_inv, start. destruct msgs as [|m msgs]; simpl; [done|].
  done.
Qed.

Lemma step_live_inv filters msgs rcv l p p' :
  live_inv filters msgs rcv p -> step true filters l p = Some p' ->
  live_inv filters msgs (rcv ++ took l p) p'.
Proof.
  unfold live_inv, took. intros Hinv Hstep.
  destruct l; simpl in Hstep.
  - rewrite app_nil_r.
    destruct (gochan.send m (subc p)); simplify_eq; done.
  - rewrite app_nil_r.
    destruct (gochan.close (subc p)); simpl in Hstep; simplify_eq; done.
  - rewrite app_nil_r. simplify_eq. done.
  - rewrite app_nil_r.
    destruct (phase p) eqn:Hp; try done;
      destruct (done p); simplify_eq; simpl.
    + destruct Hinv as (<- & _ & ->). left. split; [done|]. by exists rest.
    + right. exists rcv. split; [done|]. split; [lia|done].
    + destruct Hinv as (r & -> & _ & Ho). right. exists r.
      split; [by exists [msg]|]. split; [|done].
      rewrite length_app. simpl. lia.
  - rewrite app_nil_r.
    destruct (phase p) as [[|m rest]| |m|] eqn:Hp; try done;
      simplify_eq; simpl.
    + destruct Hinv as (<- & _ & ->).
      destruct rest as [|m' rest]; simpl.
      * unfold filterMessages. simpl. by rewrite !app_nil_r.
      * split; [by rewrite <- app_assoc|done].
    + destruct Hinv as (r & -> & Hm & ->).
      rewrite filterMessages_snoc, Hm. by rewrite app_assoc.
  - destruct (phase p) eqn:Hp; try done.
    assert (Hon : forall msg q, phase q = Live -> out q = out p ->
              live_inv filters msgs (rcv ++ [msg]) (on_sub filters msg q)).
    { intros msg q Hq Ho. unfold live_inv, on_sub, msgc_is_nil.
      destruct (allFiltersMatch msg filters) eqn:Hm; simpl.
      - exists rcv. split; [done|]. split; [done|]. by rewrite Ho.
      - rewrite Ho, Hinv, filterMessages_snoc, Hm. by rewrite app_nil_r. }
    destruct (gochan.recv (subc p)) as [msg c| |]; simplify_eq.
    + by apply Hon.
    + by apply Hon.
Qed.

Lemma run_live_inv filters msgs rcv ls p p' :
  live_inv filters msgs rcv p -> run true filters ls p = Some p' ->
  live_inv filters msgs (rcv ++ along took true filters ls p) p'.
Proof.
  revert rcv p. induction ls as [|l ls IH]; intros rcv p Hinv Hrun;
    simpl in *.
  - simplify_eq. by rewrite app_nil_r.
  - destruct (step true filters l p) as [q|] eqn:Hq; [|done].
    simpl in Hrun. rewrite app_assoc. eapply IH; [|done].
    by eapply step_live_inv.
Qed.

Lemma step_fifo_inv subscribe filters q0 rcv puts l p p' :
  fifo_inv q0 rcv puts p -> step subscribe filters l p = Some p' ->
  fifo_inv q0 (rcv ++ took l p) (puts ++ put l p) p'.
Proof.
  unfold fifo_inv, took, put. intros (k & Hq & Hk) Hstep.
  destruct l; simpl in Hstep.
  - rewrite app_nil_r. unfold gochan.send in *.
    destruct (gochan.closed (subc p)) eqn:Hc; [done|].
    case_decide; simplify_eq; simpl.
    + destruct k as [|k]; [|by destruct Hk]. exists 0. simpl in *.
      rewrite !app_nil_r in *. rewrite !app_assoc, Hq. done.
    + rewrite app_nil_r. exists k. split; [done|].
      intros Hk0. by destruct (Hk Hk0).
  - rewrite !app_nil_r. unfold gochan.close in Hstep.
    destruct (gochan.closed (subc p)) eqn:Hc; simpl in Hstep; simplify_eq.
    simpl. exists k. split; [done|]. intros Hk0. by destruct Hk.
  - rewrite !app_nil_r. simplify_eq. by exists k.
  - rewrite !app_nil_r.
    destruct (phase p); try done; destruct (done p); simplify_eq;
      by exists k.
  - rewrite !app_nil_r.
    destruct (phase p) as [[|m rest]| |m|]; try done; simplify_eq;
      by exists k.
  - rewrite app_nil_r. destruct (phase p) eqn:Hp; try done.
    assert (Hsub : forall msg q, subc (on_sub filters msg q) = subc q).
    { intros msg q. unfold on_sub, msgc_is_nil.
      by destruct (negb (allFiltersMatch msg filters)). }
    unfold gochan.recv in *.
    destruct (gochan.buf (subc p)) as [|x rest] eqn:Hb.
    + destruct (gochan.closed (subc p)) eqn:Hc; simplify_eq.
      rewrite Hsub, Hb, app_nil_r in *. exists (S k).
      split; [|done]. rewrite Hq, <- !app_assoc. do 2 f_equal.
      clear. induction k as [|k IH]; simpl; [done|]. by rewrite IH.
    + simplify_eq. rewrite Hsub. simpl.
      destruct k as [|k]; [|by destruct Hk]. exists 0.
      split; [|done]. by rewrite <- app_assoc.
Qed.

Lemma run_fifo_inv subscribe filters q0 rcv puts ls p p' :
  fifo_inv q0 rcv puts p -> run subscribe filters ls p = Some p' ->
  fifo_inv q0 (rcv ++ along took subscribe filters ls p)
              (puts ++ along put subscribe filters ls p) p'.
Proof.
  revert rcv puts p. induction ls as [|l ls IH]; intros rcv puts p Hinv Hrun;
    simpl in *.
  - simplify_eq. by rewrite !app_nil_r.
  - destruct (step subscribe filters l p) as [q|] eqn:Hq; [|done].
    simpl in Hrun. rewrite !app_assoc. eapply IH; [|done].
    by eapply step_fifo_inv.
Qed.

End StreamFacts.

(** ** The goroutine of [ReadLastNAndSubscribe] with its deferred calls *)

Section SubscriptionFacts.
Import logfilter Query Stream.
Implicit Types (p q : Producer) (msgs rcv : list MsgPtr) (l : Label).
Implicit Types (filters : list filter).











End SubscriptionFacts.

(* ===================================================================== *)
(** ** C1: the stream of [ReadLastNAndSubscribe] and its end *)
(* ===================================================================== *)



(* ===================================================================== *)
(** ** C3: [Feed] and [Shutdown] *)
(* ===================================================================== *)

(** C3, as stated, fails: after [Shutdown] has closed the inbound channel,
    [Feed] panics on its send. *)
Lemma Feed_after_Shutdown_panics :
  exists a,
    Agg.Shutdown Agg.NewAggregator = Some a
    /\ Agg.Feed (Some (rfc5424.mkMessage "web" "m1")) a = Agg.FeedPanics.
Proof. eexists. split; reflexivity. Qed.

(** C3, amended. While the inbound channel is open (no [Shutdown] yet),
    [Feed] does not fail: below capacity it enqueues the message at the
    back of the queue, at capacity it blocks, and it goes through once the
    run loop has taken a message from a full queue; it never panics. Once
    the channel is closed, [Feed] panics. *)
Theorem Feed_does_not_fail_while_open (msg : MsgPtr) (a : Agg.Aggregator) :
  (gochan.closed (Agg.msgc a) = false ->
     Agg.Feed msg a <> Agg.FeedPanics
     /\ (length (gochan.buf (Agg.msgc a)) < gochan.cap (Agg.msgc a) ->
          Agg.Feed msg a
          = Agg.Enqueued
              (Agg.set_msgc
                 (gochan.Chan (gochan.buf (Agg.msgc a) ++ [msg])
                              (gochan.cap (Agg.msgc a)) false) a))
     /\ (gochan.cap (Agg.msgc a) <= length (gochan.buf (Agg.msgc a)) ->
          Agg.Feed msg a = Agg.FeedBlocks)
     /\ (length (gochan.buf (Agg.msgc a)) = gochan.cap (Agg.msgc a) ->
          forall x c, gochan.recv (Agg.msgc a) = gochan.Received x c ->
            exists a', Agg.Feed msg (Agg.set_msgc c a) = Agg.Enqueued a'))
  /\ (gochan.closed (Agg.msgc a) = true -> Agg.Feed msg a = Agg.FeedPanics).
Proof.
  destruct a as [bs [q cp cl] mu]. unfold Agg.Feed, gochan.send. simpl.
  split.
  - intros ->. repeat split.
    + by case_decide.
    + intros Hlt. by rewrite decide_True.
    + intros Hge. rewrite decide_False by lia. done.
    + intros Hfull x c Hrecv. unfold gochan.recv in Hrecv. simpl in Hrecv.
      destruct q as [|y q]; [done|]. simplify_eq. simpl in *.
      rewrite decide_True by lia. by eexists.
  - by intros ->.
Qed.

Lemma Feed_does_not_fail_while_open_witness :
  Agg.Feed (Some (rfc5424.mkMessage "web" "m1")) Agg.NewAggregator
  <> Agg.FeedPanics.
Proof.
  apply (proj1 (Feed_does_not_fail_while_open
                  (Some (rfc5424.mkMessage "web" "m1")) Agg.NewAggregator)).
  reflexivity.
Defined.

(* ===================================================================== *)
(** ** C5: [ReadLastN] filters, then truncates *)
(* ===================================================================== *)

(** C5. With filters, the messages of [ReadLastN] are all the buffered
    messages of [id], filtered by the conjunction of the filters, then cut
    to the last [n] when [n > 0]; without filters the last [n] are taken
    from the buffer directly ([n >= 0]; all of them for [n < 0]). So with
    filters and [n > 0], whatever the consumer and [done] do, the stream
    carries at most [n] messages, each matching every filter, in insertion
    order; and it carries exactly the computed messages, then closes, when
    the consumer receives them all. *)
Theorem ReadLastN_filters_then_truncates
    (id : string) (n : Z) (filters : list logfilter.filter)
    (a : Agg.Aggregator) :
  (filters <> [] ->
     Agg.ReadLastN_messages id n filters a
     = let matching := logfilter.filterMessages (Agg.buffered id a) filters in
       if (0 <? n)%Z then drop (length matching - Z.to_nat n) matching
       else matching)
  /\ (filters = [] ->
     Agg.ReadLastN_messages id n filters a
     = if (0 <=? n)%Z
       then drop (length (Agg.buffered id a) - Z.to_nat n) (Agg.buffered id a)
       else Agg.buffered id a)
  /\ (filters <> [] -> (0 < n)%Z -> forall ls p,
       Query.run false filters ls (Query.ReadLastN id n filters a) = Some p ->
       length (Query.out p) <= Z.to_nat n
       /\ Forall (fun m => logfilter.allFiltersMatch m filters = true)
                 (Query.out p)
       /\ sublist (Query.out p) (Agg.buffered id a))
  /\ (exists p,
       Query.run false filters
         (replicate (length (Agg.ReadLastN_messages id n filters a))
                    Query.SelSend)
         (Query.ReadLastN id n filters a) = Some p
       /\ Query.out p = Agg.ReadLastN_messages id n filters a
       /\ Query.closed p = true).
Proof.
  split; [|split; [|split]].
  - intros Hf. rewrite ReadLastN_messages_filtered by done. simpl.
    destruct (0 <? n)%Z eqn:Hn.
    + apply truncate_positive. lia.
    + apply truncate_nonpositive. lia.
  - intros ->. unfold Agg.ReadLastN_messages. simpl.
    destruct (0 <=? n)%Z eqn:Hn.
    + apply readLastN_nonneg. lia.
    + apply readLastN_negative. lia.
  - intros Hf Hn ls p Hrun.
    pose proof (run_history_inv filters _ ls _ p
                  (start_history_inv _ _) Hrun) as Hinv.
    apply history_inv_prefix in Hinv.
    rewrite ReadLastN_messages_filtered in Hinv by done.
    split; [|split].
    + etrans; [by apply prefix_length|]. by apply truncate_length.
    + apply (Forall_sublist _ _ (logfilter.filterMessages (Agg.buffered id a)
                                   filters)).
      * etrans; [by apply prefix_sublist|]. apply truncate_sublist.
      * apply filter_Forall.
    + etrans; [by apply prefix_sublist|].
      etrans; [apply truncate_sublist|]. apply filter_sublist.
  - eexists. split; [|split].
    + unfold Query.ReadLastN. apply run_take_all. done.
    + done.
    + done.
Qed.

Lemma ReadLastN_filters_then_truncates_witness :
  Agg.ReadLastN_messages "web" 2 [fun _ => true] Agg.NewAggregator
  = let matching :=
      logfilter.filterMessages (Agg.buffered "web" Agg.NewAggregator)
                               [fun _ => true] in
    if (0 <? 2)%Z then drop (length matching - Z.to_nat 2) matching
    else matching.
Proof.
  apply (proj1 (ReadLastN_filters_then_truncates
                  "web" 2 [fun _ => true] Agg.NewAggregator)).
  discriminate.
Defined.

(* ===================================================================== *)
(** ** C6: the subscription of [ReadLastNAndSubscribe] *)
(* ===================================================================== *)

(** C6. [ReadLastNAndSubscribe] leaves a buffer for [id] in the map (a new
    one when there was none), with one more subscriber and the same
    messages, and touches no other buffer. The snapshot and the subscriber
    come from [ReadAllAndSubscribe] exactly when (filters are given and
    [n <> 0]) or [n < 0], and from [ReadLastNAndSubscribe(n)] otherwise.
    With filters, the history is that snapshot filtered by the conjunction
    of the filters, cut to the last [n] when [n > 0]: the processing of
    [ReadLastN], and for [n <> 0] the very messages [ReadLastN] computes;
    without filters the history is the snapshot. *)
Theorem ReadLastNAndSubscribe_setup_spec
    (id : string) (n : Z) (filters : list logfilter.filter)
    (a : Agg.Aggregator) history via a' :
  Agg.ReadLastNAndSubscribe_setup id n filters a = (history, via, a') ->
  let snapshot :=
    match via with
    | Agg.ViaReadAllAndSubscribe => Agg.buffered id a
    | Agg.ViaReadLastNAndSubscribe k =>
        drop (length (Agg.buffered id a) - Z.to_nat k) (Agg.buffered id a)
    end in
  (exists buf,
      Agg.buffers a' !! id = Some buf
      /\ ring.messages buf = Agg.buffered id a
      /\ (Agg.buffers a !! id = None ->
           buf = (ring.ReadAllAndSubscribe ring.NewBuffer).2)
      /\ (forall old, Agg.buffers a !! id = Some old ->
           ring.subscribers buf = S (ring.subscribers old)))
  /\ (forall id', id' <> id -> Agg.buffers a' !! id' = Agg.buffers a !! id')
  /\ (((filters <> [] /\ n <> 0%Z) \/ (n < 0)%Z) ->
       via = Agg.ViaReadAllAndSubscribe)
  /\ (~ ((filters <> [] /\ n <> 0%Z) \/ (n < 0)%Z) ->
       via = Agg.ViaReadLastNAndSubscribe n)
  /\ (filters <> [] ->
       history
       = let matching := logfilter.filterMessages snapshot filters in
         if (0 <? n)%Z then drop (length matching - Z.to_nat n) matching
         else matching)
  /\ (filters <> [] -> n <> 0%Z ->
       history = Agg.ReadLastN_messages id n filters a)
  /\ (filters = [] -> history = snapshot).
Proof.
  intros Hsetup snapshot.
  pose proof (setup_buffers id n filters a) as Hb.
  pose proof (setup_via id n filters a) as Hv.
  pose proof (setup_history id n filters a) as Hh.
  rewrite Hsetup in Hb, Hv, Hh. simpl in Hb, Hv, Hh.
  assert (Hcond : ((0 <? length filters) && negb (n =? 0)%Z) || (n <? 0)%Z = true
                  <-> ((filters <> [] /\ n <> 0%Z) \/ (n < 0)%Z)).
  { rewrite orb_true_iff, andb_true_iff, negb_true_iff, Z.eqb_neq, Z.ltb_lt.
    assert (Hf : (0 <? length filters) = true <-> filters <> []).
    { clear. destruct filters; simpl; split; intros H; try done; congruence. }
    rewrite Hf. tauto. }
  split; [|split; [|split; [|split; [|split; [|split]]]]].
  - eexists. rewrite Hb, lookup_insert_eq. split; [done|].
    split; [done|]. unfold Agg.buffered, Agg.getOrInitializeBuffer.
    split.
    + intros ->. done.
    + intros old ->. done.
  - intros id' Hne. rewrite Hb. by rewrite lookup_insert_ne.
  - intros Hc. apply Hcond in Hc. by rewrite Hc in Hv.
  - intros Hc. destruct (_ || _) eqn:E in Hv; [|done].
    exfalso. apply Hc, Hcond. done.
  - intros Hf. pose proof (filters_nonempty_ltb _ Hf) as Hlt.
    rewrite Hlt in Hh, Hv. subst snapshot. rewrite Hh, Hv.
    destruct (true && negb (n =? 0)%Z || (n <? 0)%Z); cbn beta iota zeta;
      (destruct (0 <? n)%Z eqn:Hn;
       [apply truncate_positive; lia | apply truncate_nonpositive; lia]).
  - intros Hf Hn. pose proof (filters_nonempty_ltb _ Hf) as Hlt.
    assert (Hc : ((0 <? length filters) && negb (n =? 0)%Z) || (n <? 0)%Z = true).
    { apply Hcond. by left. }
    rewrite Hh, Hc, Hlt. by rewrite ReadLastN_messages_filtered.
  - intros ->. rewrite Hh. subst snapshot. rewrite Hv. simpl.
    by destruct (n <? 0)%Z.
Qed.

Lemma ReadLastNAndSubscribe_setup_spec_witness :
  Agg.ReadLastNAndSubscribe_setup "web" 2 [fun _ => true] Agg.NewAggregator
  = ([], Agg.ViaReadAllAndSubscribe,
     (Agg.ReadLastNAndSubscribe_setup "web" 2 [fun _ => true]
        Agg.NewAggregator).2)
  /\ forall id', id' <> "web" ->
       Agg.buffers (Agg.ReadLastNAndSubscribe_setup "web" 2 [fun _ => true]
                      Agg.NewAggregator).2 !! id'
       = Agg.buffers Agg.NewAggregator !! id'.
Proof.
  split; [reflexivity|].
  exact (proj1 (proj2 (ReadLastNAndSubscribe_setup_spec
                         "web" 2 [fun _ => true] Agg.NewAggregator
                         [] Agg.ViaReadAllAndSubscribe _ eq_refl))).
Defined.

(* ===================================================================== *)
(** ** C10: [ReadLastN] creates no buffer *)
(* ===================================================================== *)

(** C10. When there is no buffer for [id], [ReadLastN] computes no
    message, and its channel is closed with nothing delivered on it,
    whatever the consumer and [done] do. [ReadLastN] leaves the aggregator,
    and so its map of buffers, as it was. Of all the entry points of the
    aggregator, only [ReadLastNAndSubscribe] on [id] and the run loop
    routing an inbound message of application [id] make a buffer for [id]
    appear. *)
Theorem ReadLastN_creates_no_buffer
    (id : string) (n : Z) (filters : list logfilter.filter)
    (a : Agg.Aggregator) :
  (Agg.getBuffer id a = None ->
     Agg.ReadLastN_messages id n filters a = []
     /\ Query.out (Query.ReadLastN id n filters a) = []
     /\ Query.closed (Query.ReadLastN id n filters a) = true
     /\ forall ls p,
          Query.run false filters ls (Query.ReadLastN id n filters a) = Some p ->
          Query.out p = [] /\ Query.closed p = true)
  /\ Agg.call (Agg.MReadLastN id n filters) a = Some a
  /\ (forall m a' id',
       Agg.call m a = Some a' ->
       Agg.buffers a !! id' = None -> is_Some (Agg.buffers a' !! id') ->
       (exists n' filters', m = Agg.MReadLastNAndSubscribe id' n' filters')
       \/ (m = Agg.MRun /\ exists msg c,
              gochan.recv (Agg.msgc a) = gochan.Received (Some msg) c
              /\ rfc5424.AppName msg = id')).
Proof.
  split; [|split].
  - intros Hnone.
    assert (Hm : Agg.ReadLastN_messages id n filters a = []).
    { unfold Agg.ReadLastN_messages, Agg.readLastN. rewrite Hnone.
      destruct (Nat.eqb _ _); [done|].
      unfold logfilter.filterMessages. simpl. apply truncate_nil. }
    split; [done|]. unfold Query.ReadLastN. rewrite Hm.
    split; [done|]. split; [done|].
    intros ls p Hrun. apply history_inv_nil.
    eapply run_history_inv; [|done]. apply start_history_inv.
  - done.
  - intros m a' id' Hcall Hnone Hsome. by eapply call_creates_buffer.
Qed.

Lemma ReadLastN_creates_no_buffer_witness :
  Agg.ReadLastN_messages "other" 10 [] Agg.NewAggregator = [].
Proof.
  apply (proj1 (ReadLastN_creates_no_buffer "other" 10 [] Agg.NewAggregator)).
  reflexivity.
Defined.

(* ===================================================================== *)
(** ** The role controller *)
(* ===================================================================== *)

Section RoleFacts.
Import Role.
Implicit Types (s : Server) (m : Monitor) (addr : string).

Lemma follow_failed addr s :
  follow false addr s
  = (None, true, effect (EDial addr false) s).
Proof. done. Qed.

Lemma follow_dialled addr s :
  follow true addr s
  = (Some (length (chans s)), false,
     mkServer (Agg.Flush (agg s)) (self s) (chans s ++ [false])
              (decoders s ++ [mkDecoder (length (chans s)) true])
              (trace s ++ [EDial addr true; EFlush;
                           ESpawn (length (chans s)) addr])).
Proof.
  unfold follow, effect. simpl. by rewrite <- !app_assoc.
Qed.

Lemma Flush_discards id a : Agg.buffered id (Agg.Flush a) = [].
Proof.
  unfold Agg.buffered, Agg.Flush. simpl. rewrite lookup_fmap.
  by destruct (Agg.buffers a !! id).
Qed.

Lemma close_chan_open c s :
  chans s !! c = Some false ->
  close_chan c s
  = Some (mkServer (agg s) (self s) (<[c := true]> (chans s)) (decoders s)
                   (trace s ++ [EClose c])).
Proof. intros H. unfold close_chan. by rewrite H. Qed.

Lemma on_event_leader dial_ok event m :
  Kind event = EventKindLeader ->
  (forall c, unfollowc m = Some c -> chans (srv m) !! c = Some false) ->
  let s1 :=
    match unfollowc m with
    | Some c =>
        mkServer (agg (srv m)) (self (srv m)) (<[c := true]> (chans (srv m)))
                 (decoders (srv m)) (trace (srv m) ++ [EClose c])
    | None => srv m
    end in
  on_event dial_ok event m
  = if String.eqb (Addr event) (self (srv m))
    then Some (mkMonitor (effect ELogLeader s1) (unfollowc m), true)
    else Some (mkMonitor
                 (effect (if dial_ok then ELogFollower (Addr event)
                          else ELogError)
                         (follow dial_ok (Addr event) s1).2)
                 (follow dial_ok (Addr event) s1).1.1, false).
Proof.
  intros Hk Hwf. unfold on_event. rewrite Hk.
  destruct (unfollowc m) as [c|] eqn:Hu; simpl.
  - rewrite close_chan_open by auto. simpl.
    destruct (String.eqb (Addr event) (self (srv m))); simpl; [done|].
    by destruct dial_ok.
  - destruct (String.eqb (Addr event) (self (srv m))); simpl; [done|].
    by destruct dial_ok.
Qed.

End RoleFacts.

(* ===================================================================== *)
(** ** C7: [follow] *)
(* ===================================================================== *)

(** C7. [follow] dials first. When the dial fails it returns the nil
    channel and the error, and nothing else happened: no [Flush] (the
    aggregator is as before), no goroutine, no channel. When the dial
    succeeds, [Flush] comes next and empties every buffer, then the decoder
    goroutine is spawned on a fresh open unfollow channel, which is
    returned. A running decoder feeds the frame it has scanned into the
    aggregator as long as the unfollow channel is open; it stops, feeding
    nothing, at the first frame scanned after the channel was closed, or
    when the stream ends; once stopped it does nothing. After a leader
    event whose dial failed the controller holds the nil channel, with the
    aggregator and the goroutines as before, and the next leader event for
    another address calls [follow], which dials again. *)
Theorem follow_dials_flushes_spawns (addr : string) (s : Role.Server) :
  (exists s',
      Role.follow false addr s = (None, true, s')
      /\ Role.agg s' = Role.agg s
      /\ Role.chans s' = Role.chans s
      /\ Role.decoders s' = Role.decoders s
      /\ Role.trace s' = Role.trace s ++ [Role.EDial addr false])
  /\ (exists s',
      Role.follow true addr s = (Some (length (Role.chans s)), false, s')
      /\ Role.trace s'
         = Role.trace s ++ [Role.EDial addr true; Role.EFlush;
                            Role.ESpawn (length (Role.chans s)) addr]
      /\ Role.agg s' = Agg.Flush (Role.agg s)
      /\ (forall id, Agg.buffered id (Role.agg s') = [])
      /\ Role.chans s' !! length (Role.chans s) = Some false
      /\ Role.decoders s'
         = Role.decoders s ++ [Role.mkDecoder (length (Role.chans s)) true])
  /\ (forall d x, Role.decoders s !! d = Some x -> Role.running x = true ->
       Role.decoder_iter d None s = Some (Role.Stopped (Role.stop d s))
       /\ (forall msg,
            Role.chans s !! Role.unfollowc_of x = Some true ->
            Role.decoder_iter d (Some msg) s
            = Some (Role.Stopped (Role.stop d s)))
       /\ (forall msg a,
            Role.chans s !! Role.unfollowc_of x = Some false ->
            Agg.Feed msg (Role.agg s) = Agg.Enqueued a ->
            Role.decoder_iter d (Some msg) s
            = Some (Role.Fed (Role.mkServer a (Role.self s) (Role.chans s)
                                (Role.decoders s) (Role.trace s)))
              /\ gochan.buf (Agg.msgc a)
                 = gochan.buf (Agg.msgc (Role.agg s)) ++ [msg]))
  /\ (forall d x frame,
       Role.decoders s !! d = Some x -> Role.running x = false ->
       Role.decoder_iter d frame s = None)
  /\ (forall event event' dial_ok' u0,
       Role.Kind event = Role.EventKindLeader ->
       Role.Kind event' = Role.EventKindLeader ->
       Role.Addr event <> Role.self s ->
       Role.Addr event' <> Role.self s ->
       (forall c, u0 = Some c -> Role.chans s !! c = Some false) ->
       exists m1 m2,
         Role.on_event false event (Role.mkMonitor s u0) = Some (m1, false)
         /\ Role.unfollowc m1 = None
         /\ Role.agg (Role.srv m1) = Role.agg s
         /\ Role.decoders (Role.srv m1) = Role.decoders s
         /\ Role.on_event dial_ok' event' m1 = Some (m2, false)
         /\ Role.unfollowc m2
            = (Role.follow dial_ok' (Role.Addr event') (Role.srv m1)).1.1
         /\ exists rest,
              Role.trace (Role.srv m2)
              = Role.trace (Role.srv m1)
                ++ Role.EDial (Role.Addr event') dial_ok' :: rest).
Proof.
  split; [|split; [|split; [|split]]].
  - eexists. rewrite follow_failed. done.
  - eexists. rewrite follow_dialled. simpl.
    repeat split; try done.
    + intros id. apply Flush_discards.
    + simpl. by apply list_lookup_middle.
  - intros d x Hd Hrun. unfold Role.decoder_iter. rewrite Hd. simpl.
    rewrite Hrun. simpl. split; [done|]. split.
    + intros msg ->. done.
    + intros msg a -> Hfeed. rewrite Hfeed. split; [done|].
      unfold Agg.Feed, gochan.send in Hfeed.
      destruct (gochan.closed _); [done|]. case_decide; [|done].
      by simplify_eq.
  - intros d x frame Hd Hrun. unfold Role.decoder_iter. rewrite Hd. simpl.
    by rewrite Hrun.
  - intros event event' dial_ok' u0 Hk Hk' Hne Hne' Hwf.
    apply String.eqb_neq in Hne, Hne'.
    pose proof (on_event_leader false event (Role.mkMonitor s u0) Hk Hwf) as H1.
    simpl in H1.
    assert (Hself : Role.self
                      (match u0 with
                       | Some c =>
                           Role.mkServer (Role.agg s) (Role.self s)
                             (<[c := true]> (Role.chans s)) (Role.decoders s)
                             (Role.trace s ++ [Role.EClose c])
                       | None => s
                       end) = Role.self s) by (by destruct u0).
    rewrite Hne in H1.
    eexists _, _. split; [exact H1|]. simpl.
    split; [done|]. split; [by destruct u0|]. split; [by destruct u0|].
    match goal with |- Role.on_event _ _ ?m = _ /\ _ =>
      pose proof (on_event_leader dial_ok' event' m Hk') as H2 end.
    simpl in H2. rewrite Hself, Hne' in H2.
    split; [apply H2; done|]. simpl. split; [done|].
    destruct dial_ok'; simpl; eexists; rewrite <- !app_assoc; simpl; done.
Qed.

Lemma follow_dials_flushes_spawns_witness :
  Role.decoder_iter 0 None
    (Role.follow true "10.0.0.2:3000"
       (Role.mkServer Agg.NewAggregator "10.0.0.1:3000" [] [] [])).2
  = Some (Role.Stopped
            (Role.stop 0
               (Role.follow true "10.0.0.2:3000"
                  (Role.mkServer Agg.NewAggregator "10.0.0.1:3000" [] [] [])).2)).
Proof.
  refine (proj1 (proj1 (proj2 (proj2 (follow_dials_flushes_spawns
            "10.0.0.2:3000"
            (Role.follow true "10.0.0.2:3000"
               (Role.mkServer Agg.NewAggregator "10.0.0.1:3000" [] [] [])).2)))
            0 (Role.mkDecoder 0 true) _ _));
    reflexivity.
Defined.

(* ===================================================================== *)
(** ** C8: a leader event *)
(* ===================================================================== *)

(** C8. On a leader event, with [unfollowc] nil or an open channel: when
    [unfollowc] is not nil it is closed first; then, when the address of
    the new leader is the own address, the controller logs that it leads
    and the loop returns, without calling [follow]; otherwise it calls
    [follow] on the address of the new leader and keeps the channel
    [follow] returned, and the loop goes on. The channel it keeps is again
    nil or open, so no channel is closed twice. *)
Theorem leader_event_closes_then_leads_or_follows
    (dial_ok : bool) (event : Role.Event) (m : Role.Monitor) :
  Role.Kind event = Role.EventKindLeader ->
  (forall c, Role.unfollowc m = Some c ->
             Role.chans (Role.srv m) !! c = Some false) ->
  exists m' exit s1,
    Role.on_event dial_ok event m = Some (m', exit)
    /\ (forall c, Role.unfollowc m = Some c ->
         Role.close_chan c (Role.srv m) = Some s1
         /\ Role.chans s1 !! c = Some true
         /\ Role.trace s1 = Role.trace (Role.srv m) ++ [Role.EClose c])
    /\ (Role.unfollowc m = None -> s1 = Role.srv m)
    /\ (Role.Addr event = Role.self (Role.srv m) ->
         exit = true /\ Role.srv m' = Role.effect Role.ELogLeader s1)
    /\ (Role.Addr event <> Role.self (Role.srv m) ->
         exit = false
         /\ exists s2,
              Role.follow dial_ok (Role.Addr event) s1
              = (Role.unfollowc m', negb dial_ok, s2)
              /\ Role.srv m'
                 = Role.effect (if dial_ok
                                then Role.ELogFollower (Role.Addr event)
                                else Role.ELogError) s2)
    /\ (exit = false ->
         forall c, Role.unfollowc m' = Some c ->
                   Role.chans (Role.srv m') !! c = Some false).
Proof.
  intros Hk Hwf.
  pose proof (on_event_leader dial_ok event m Hk Hwf) as H. simpl in H.
  set (s1 := match Role.unfollowc m with
             | Some c => _
             | None => _
             end) in H.
  assert (Hclose : forall c, Role.unfollowc m = Some c ->
            Role.close_chan c (Role.srv m) = Some s1
            /\ Role.chans s1 !! c = Some true
            /\ Role.trace s1 = Role.trace (Role.srv m) ++ [Role.EClose c]).
  { intros c Hc. subst s1. rewrite Hc. rewrite close_chan_open by auto.
    split; [done|]. split; [|done]. simpl.
    apply list_lookup_insert_eq. by eapply lookup_lt_Some, Hwf. }
  assert (Hnil : Role.unfollowc m = None -> s1 = Role.srv m).
  { intros Hn. subst s1. by rewrite Hn. }
  destruct (String.eqb (Role.Addr event) (Role.self (Role.srv m))) eqn:He.
  - apply String.eqb_eq in He.
    eexists _, _, s1. split; [exact H|].
    split; [done|]. split; [done|]. split; [done|]. split; [done|]. done.
  - apply String.eqb_neq in He.
    eexists _, _, s1. split; [exact H|].
    split; [done|]. split; [done|]. split; [done|]. split.
    + intros _. split; [done|]. simpl. eexists. split; [|done].
      destruct dial_ok; [by rewrite follow_dialled|by rewrite follow_failed].
    + intros _ c. simpl. destruct dial_ok.
      * rewrite follow_dialled. simpl. intros [= <-].
        by apply list_lookup_middle.
      * rewrite follow_failed. done.
Qed.

Lemma leader_event_closes_then_leads_or_follows_witness :
  exists m' exit s1,
    Role.on_event true (Role.mkEvent Role.EventKindLeader "10.0.0.2:3000")
      (Role.mkMonitor
         (Role.mkServer Agg.NewAggregator "10.0.0.1:3000" [false]
                        [Role.mkDecoder 0 true] [])
         (Some 0))
    = Some (m', exit)
    /\ Role.chans s1 !! 0 = Some true.
Proof.
  destruct (leader_event_closes_then_leads_or_follows true
              (Role.mkEvent Role.EventKindLeader "10.0.0.2:3000")
              (Role.mkMonitor
                 (Role.mkServer Agg.NewAggregator "10.0.0.1:3000" [false]
                                [Role.mkDecoder 0 true] [])
                 (Some 0)))
    as (m' & exit & s1 & H1 & H2 & _).
  - reflexivity.
  - intros c [= <-]. reflexivity.
  - exists m', exit, s1. split; [exact H1|]. apply (H2 0 eq_refl).
Defined.

(* ===================================================================== *)
(** ** The interleaving model: the pause protocol *)
(* ===================================================================== *)

Section SchedFacts.
Import Sched.
Implicit Types (s : State) (c : Conn) (l : Label).

(** Every reachable state satisfies an invariant that holds initially and
    is kept by every step. *)
Lemma reachable_ind_inv (P : State -> Prop) lim :
  P (init lim) ->
  (forall l s s', P s -> step l s = Some s' -> P s') ->
  forall s, reachable lim s -> P s.
Proof.
  intros Hinit Hstep s Hr. induction Hr; [done|]. by eapply Hstep.
Qed.

Lemma exec_reachable lim ls s s' :
  reachable lim s -> exec ls s = Some s' -> reachable lim s'.
Proof.
  revert s. induction ls as [|l ls IH]; intros s Hr He; simpl in He.
  - by simplify_eq.
  - destruct (step l s) as [s1|] eqn:Hs; [|done]. simpl in He.
    eapply IH; [|done]. by eapply reach_step.
Qed.

Lemma feed_frame m s s' :
  feed m s = Some s' ->
  conns s' = conns s /\ runpc s' = runpc s /\ rep s' = rep s
  /\ adds s' = adds s /\ Agg.pmu (agg s') = Agg.pmu (agg s)
  /\ Agg.buffers (agg s') = Agg.buffers (agg s)
  /\ gochan.buf (Agg.msgc (agg s))
       `prefix_of` gochan.buf (Agg.msgc (agg s')).
Proof.
  unfold feed, Agg.Feed, gochan.send. intros H.
  destruct (gochan.closed (Agg.msgc (agg s))); simplify_eq; [done|].
  case_decide; simplify_eq. simpl. repeat split; try done.
  by eexists.
Qed.

(** A step that leaves the connections, [pmu] and the run loop alone. *)
Lemma mutex_inv_frame s s' :
  conns s' = conns s -> Agg.pmu (agg s') = Agg.pmu (agg s) ->
  runpc s' = runpc s -> mutex_inv s -> mutex_inv s'.
Proof.
  unfold mutex_inv. intros -> -> ->. done.
Qed.

(** Connection [i] moves from [c] to [c']. *)
Lemma mutex_inv_update s s' i c c' :
  conns s !! i = Some c -> conns s' = <[i := c']> (conns s) ->
  (holding c' = true -> holding c = true \/ Agg.pmu (agg s) = false) ->
  (holding c' = true -> Agg.pmu (agg s') = true) ->
  (Agg.pmu (agg s) = true -> Agg.pmu (agg s') = true \/ holding c = true) ->
  (paused c' = true -> runpc s' = RAck) ->
  (runpc s' = runpc s \/ holding c = true) ->
  mutex_inv s -> mutex_inv s'.
Proof.
  intros Hi Hc HA HB HC HD HE (H1 & H2 & H3).
  pose proof (lookup_lt_Some _ _ _ Hi) as Hlt.
  assert (Hother : forall j cj, j <> i -> conns s !! j = Some cj ->
                     holding cj = true -> holding c = false).
  { intros j cj Hji Hj Hhj. destruct (holding c) eqn:Hhc; [|done].
    exfalso. apply Hji. by eapply (H1 j i). }
  unfold mutex_inv. rewrite Hc. split; [|split].
  - intros j k cj ck Hj Hk Hhj Hhk.
    destruct (decide (j = i)) as [->|Hji];
      [rewrite list_lookup_insert_eq in Hj by done
      |rewrite list_lookup_insert_ne in Hj by done];
    (destruct (decide (k = i)) as [->|Hki];
      [rewrite list_lookup_insert_eq in Hk by done
      |rewrite list_lookup_insert_ne in Hk by done]);
    simplify_eq; try done.
    + destruct (HA Hhj) as [Hhc|Hmu].
      * by rewrite (Hother k ck) in Hhc.
      * by rewrite (H2 k ck) in Hmu.
    + destruct (HA Hhk) as [Hhc|Hmu].
      * by rewrite (Hother j cj) in Hhc.
      * by rewrite (H2 j cj) in Hmu.
    + by eapply (H1 j k).
  - intros j cj Hj Hhj.
    destruct (decide (j = i)) as [->|Hji];
      [rewrite list_lookup_insert_eq in Hj by done
      |rewrite list_lookup_insert_ne in Hj by done]; simplify_eq.
    + by apply HB.
    + destruct HC as [Hmu|Hhc]; [by eapply H2|done|].
      by rewrite (Hother j cj) in Hhc.
  - intros j cj Hj Hpj.
    destruct (decide (j = i)) as [->|Hji];
      [rewrite list_lookup_insert_eq in Hj by done
      |rewrite list_lookup_insert_ne in Hj by done]; simplify_eq.
    + by apply HD.
    + destruct HE as [->|Hhc]; [by eapply H3|].
      rewrite (Hother j cj) in Hhc; try done.
      unfold paused, holding in *. by destruct (pc cj).
Qed.

(** The run loop moves on, and it was not at its acknowledgement. *)
Lemma mutex_inv_run s s' :
  conns s' = conns s -> Agg.pmu (agg s') = Agg.pmu (agg s) ->
  runpc s <> RAck -> mutex_inv s -> mutex_inv s'.
Proof.
  intros Hc Hmu Hrun (H1 & H2 & H3). unfold mutex_inv. rewrite Hc, Hmu.
  split; [done|]. split; [done|].
  intros i c Hi Hp. exfalso. apply Hrun. by eapply H3.
Qed.

Lemma mutex_inv_init lim : mutex_inv (init lim).
Proof. unfold mutex_inv, init. simpl. by repeat split. Qed.

Lemma conn_pc_Some i s p :
  conn_pc i s = Some p -> exists c, conns s !! i = Some c /\ pc c = p.
Proof.
  unfold conn_pc. destruct (conns s !! i) as [c|]; simpl; [|done].
  intros [= <-]. by exists c.
Qed.

Lemma Shutdown_pmu a a' :
  Agg.Shutdown a = Some a' ->
  Agg.pmu a' = Agg.pmu a /\ Agg.buffers a' = Agg.buffers a
  /\ gochan.buf (Agg.msgc a') = gochan.buf (Agg.msgc a).
Proof.
  unfold Agg.Shutdown, gochan.close.
  destruct (gochan.closed (Agg.msgc a)); simpl; [done|].
  by intros [= <-].
Qed.

Lemma setup_frame id n filters a :
  Agg.pmu (Agg.ReadLastNAndSubscribe_setup id n filters a).2 = Agg.pmu a
  /\ Agg.msgc (Agg.ReadLastNAndSubscribe_setup id n filters a).2 = Agg.msgc a.
Proof.
  unfold Agg.ReadLastNAndSubscribe_setup, Agg.getOrInitializeBuffer.
  destruct (Agg.buffers a !! id); by destruct (_ || _).
Qed.

Lemma paused_holding c : paused c = true -> holding c = true.
Proof. unfold paused, holding. by destruct (pc c). Qed.


(** The side conditions of [mutex_inv_update], from what the invariant
    says of the connection that moves. *)
Ltac conn_status Hpc :=
  simpl; unfold holding, paused in *; simpl in *; rewrite ?Hpc in *;
  simpl in *; intuition congruence.

Lemma step_mutex_inv l s s' : mutex_inv s -> step l s = Some s' -> mutex_inv s'.
Proof.
  intros Hinv Hstep. unfold step in Hstep.
  destruct (panicked s); [done|].
  destruct l; simpl in Hstep.
  - (* LRunRecv *)
    unfold run_recv in Hstep.
    destruct (runpc s) eqn:Hrun; try done.
    destruct (gochan.recv _); simplify_eq;
      (eapply (mutex_inv_run s); [| |by rewrite Hrun|done]; done).
  - (* LRunDeliver *)
    unfold run_deliver in Hstep.
    destruct (runpc s) eqn:Hrun; try done.
    unfold Agg.deliver in Hstep. destruct msg as [m|]; simpl in Hstep.
    + destruct (Agg.getOrInitializeBuffer _ _) as [buf a1] eqn:Hg.
      simplify_eq.
      eapply (mutex_inv_run s); [done| |by rewrite Hrun|done]. simpl.
      unfold Agg.getOrInitializeBuffer in Hg.
      destruct (Agg.buffers (agg s) !! _); by simplify_eq.
    + simplify_eq.
      eapply (mutex_inv_run s); [done|done|by rewrite Hrun|done].
  - (* LPausec *)
    unfold rendezvous in Hstep.
    destruct (can_send snd s) eqn:Hsnd; [|done].
    destruct (can_recv rcv s) eqn:Hrcv; [|done].
    simpl in Hstep. simplify_eq.
    pose proof Hinv as (H1 & H2 & H3).
    destruct snd as [|i], rcv as [|j]; simpl in Hsnd, Hrcv.
    + by destruct (runpc s).
    + destruct (runpc s) eqn:Hrun; try done.
      destruct (conn_pc j s) as [p|] eqn:Hj; [|done].
      destruct p; try done.
      apply conn_pc_Some in Hj as (c & Hj & Hpc).
      pose proof (H2 j c Hj) as Hh2. pose proof (H3 j c Hj) as Hp3.
      simpl. unfold update_conn. rewrite Hj.
      eapply (mutex_inv_update s _ j c); [done|done|..|done];
        conn_status Hpc.
    + destruct (runpc s) eqn:Hrun; try done.
      destruct (conn_pc i s) as [p|] eqn:Hi; [|done].
      destruct p; try done.
      apply conn_pc_Some in Hi as (c & Hi & Hpc).
      pose proof (H2 i c Hi) as Hh2. pose proof (H3 i c Hi) as Hp3.
      simpl. unfold update_conn. simpl. rewrite Hi.
      eapply (mutex_inv_update s _ i c); [done|done|..|done];
        conn_status Hpc.
    + destruct (conn_pc i s) as [p|] eqn:Hi; [|done].
      destruct p; try done.
      destruct (conn_pc j s) as [q|] eqn:Hj; [|done].
      destruct q; try done.
      apply conn_pc_Some in Hi as (ci & Hi & Hpi).
      apply conn_pc_Some in Hj as (cj & Hj & Hpj).
      assert (i = j) as ->.
      { eapply H1; [done|done| |]; unfold holding.
        - by rewrite Hpi.
        - by rewrite Hpj. }
      simplify_eq. congruence.
  - (* LAccept *)
    simplify_eq. destruct Hinv as (H1 & H2 & H3).
    assert (Hnew : forall i c,
              (conns s ++ [mkConn CStart [] [] []]) !! i = Some c ->
              holding c = true -> conns s !! i = Some c).
    { intros i c Hi Hh. apply lookup_app_Some in Hi as [Hi|[_ Hi]]; [done|].
      apply list_lookup_singleton_Some in Hi as [_ <-]. done. }
    unfold mutex_inv. simpl. split; [|split].
    + intros i j ci cj Hi Hj Hhi Hhj. eapply H1; eauto.
    + intros i c Hi Hh. eapply H2; eauto.
    + intros i c Hi Hp. eapply H3; eauto using paused_holding.
  - (* LConn *)
    destruct (conns s !! i) as [c|] eqn:Hi; simpl in Hstep; [|done].
    pose proof Hinv as (H1 & H2 & H3).
    pose proof (H2 i c Hi) as Hh2. pose proof (H3 i c Hi) as Hp3.
    unfold conn_step in Hstep.
    destruct (pc c) eqn:Hpc; try done;
      repeat match type of Hstep with
             | context [match ?x with _ => _ end] => destruct x eqn:?
             end;
      simplify_eq;
      try (by eapply (mutex_inv_frame s));
      (eapply (mutex_inv_update s _ i c); [done|done|..|done];
       conn_status Hpc).
  - (* LConnFail *)
    destruct (conns s !! i) as [c|] eqn:Hi; simpl in Hstep; [|done].
    pose proof Hinv as (H1 & H2 & H3).
    pose proof (H2 i c Hi) as Hh2. pose proof (H3 i c Hi) as Hp3.
    unfold conn_fail in Hstep.
    destruct (pc c) eqn:Hpc; try done;
      repeat match type of Hstep with
             | context [match ?x with _ => _ end] => destruct x eqn:?
             end;
      simplify_eq;
      (eapply (mutex_inv_update s _ i c); [done|done|..|done];
       conn_status Hpc).
  - (* LCloseNotify *)
    simplify_eq. by eapply (mutex_inv_frame s).
  - (* LSyslog *)
    simplify_eq. by eapply (mutex_inv_frame s).
  - (* LIngest *)
    destruct (ingests s !! j) as [g|] eqn:Hj; simpl in Hstep; [|done].
    unfold ingest_step in Hstep. destruct (mid g).
    + simplify_eq. by eapply (mutex_inv_frame s).
    + destruct (pending g) as [|m rest]; [done|].
      destruct (feed (Some m) s) as [s1|] eqn:Hf; simpl in Hstep; [|done].
      apply feed_frame in Hf as (Hc & Hr & _ & _ & Hmu & _).
      simplify_eq. destruct (panicked s1);
        (eapply (mutex_inv_frame s); [| | |done]; done).
  - (* LFeed *)
    apply feed_frame in Hstep as (Hc & Hr & _ & _ & Hmu & _).
    by eapply (mutex_inv_frame s).
  - (* LFlush *)
    simplify_eq. by eapply (mutex_inv_frame s).
  - (* LSubscribe *)
    simplify_eq. eapply (mutex_inv_frame s); [done| |done|done].
    simpl. apply setup_frame.
  - (* LShutdown *)
    destruct (Agg.Shutdown (agg s)) as [a|] eqn:Ha; simplify_eq.
    + apply Shutdown_pmu in Ha as (Hmu & _). by eapply (mutex_inv_frame s).
    + by eapply (mutex_inv_frame s).
  - (* LRepShutdown *)
    simplify_eq. by eapply (mutex_inv_frame s).
Qed.

Lemma reachable_mutex_inv lim s : reachable lim s -> mutex_inv s.
Proof.
  apply reachable_ind_inv; [apply mutex_inv_init|].
  intros l s1 s2. by apply step_mutex_inv.
Qed.


(** *** The replicator *)

Lemma receive_Got i r m r' :
  Replicator.receive i r = Replicator.Got m r' ->
  exists sk rest,
    Replicator.sinks r !! i = Some sk
    /\ Replicator.queue sk = m :: rest
    /\ Replicator.fed r' = Replicator.fed r
    /\ Replicator.sinks r'
       = <[i := Replicator.mkSink rest (Replicator.limit sk)
                 (Replicator.closed sk) (Replicator.since sk)
                 (Replicator.taken sk ++ [m])]> (Replicator.sinks r).
Proof.
  unfold Replicator.receive.
  destruct (Replicator.sinks r !! i) as [sk|] eqn:Hsk; [|done].
  destruct (Replicator.queue sk) as [|x rest] eqn:Hq.
  - by destruct (Replicator.closed sk).
  - intros [= <- <-]. by exists sk, rest.
Qed.

Lemma receive_Got_taken i r m r' :
  Replicator.receive i r = Replicator.Got m r' ->
  taken_of i r' = taken_of i r ++ [m].
Proof.
  intros (sk & rest & Hsk & Hq & _ & Hs)%receive_Got.
  unfold taken_of. by rewrite Hs, lookup_insert_eq, Hsk.
Qed.

Lemma receive_Got_other i j r m r' :
  Replicator.receive i r = Replicator.Got m r' -> j <> i ->
  Replicator.sinks r' !! j = Replicator.sinks r !! j.
Proof.
  intros (sk & rest & Hsk & Hq & _ & Hs)%receive_Got Hne.
  rewrite Hs. by rewrite lookup_insert_ne.
Qed.

Lemma sink_inv_receive i r m r' :
  Replicator.receive i r = Replicator.Got m r' -> sink_inv r -> sink_inv r'.
Proof.
  intros (sk & rest & Hsk & Hq & Hfed & Hs)%receive_Got Hinv k sk' Hk.
  rewrite Hs in Hk. rewrite Hfed.
  destruct (decide (k = i)) as [->|Hne].
  - rewrite lookup_insert_eq in Hk. simplify_eq. simpl.
    destruct (Hinv i sk Hsk) as (H1 & H2 & H3).
    rewrite Hq in H2, H3. rewrite <- app_assoc. simpl. done.
  - rewrite lookup_insert_ne in Hk by done. exact (Hinv _ _ Hk).
Qed.

Lemma sink_inv_Register i r : sink_inv r -> sink_inv (Replicator.Register i r).
Proof.
  intros Hinv k sk Hk. unfold Replicator.Register in *. simpl in *.
  destruct (decide (k = i)) as [->|Hne].
  - rewrite lookup_insert_eq in Hk. simplify_eq. simpl.
    rewrite drop_all. done.
  - rewrite lookup_insert_ne in Hk by done. exact (Hinv _ _ Hk).
Qed.

Lemma sink_inv_close (f : gmap nat Replicator.Sink -> gmap nat Replicator.Sink)
    r lim dn :
  (forall k sk', f (Replicator.sinks r) !! k = Some sk' ->
     exists sk, Replicator.sinks r !! k = Some sk
                /\ (sk' = sk \/ sk' = Replicator.close_sink sk)) ->
  sink_inv r ->
  sink_inv (Replicator.mkReplicator (f (Replicator.sinks r)) lim dn
                                    (Replicator.fed r)).
Proof.
  intros Hf Hinv k sk' Hk. simpl in *.
  destruct (Hf k sk' Hk) as (sk & Hsk & [->| ->]); [exact (Hinv _ _ Hsk)|].
  destruct (Hinv k sk Hsk) as (H1 & H2 & H3). simpl. done.
Qed.

Lemma sink_inv_Deregister i r :
  sink_inv r -> sink_inv (Replicator.Deregister i r).
Proof.
  apply sink_inv_close. intros k sk' Hk.
  rewrite lookup_alter in Hk. case_decide.
  - subst k. destruct (Replicator.sinks r !! i) as [sk|]; simplify_eq.
    simpl in Hk. simplify_eq. eauto.
  - eauto.
Qed.

Lemma sink_inv_Shutdown r : sink_inv r -> sink_inv (Replicator.Shutdown r).
Proof.
  apply sink_inv_close. intros k sk' Hk.
  rewrite lookup_fmap in Hk.
  destruct (Replicator.sinks r !! k) as [sk|]; simplify_eq.
  simpl in Hk. simplify_eq. eauto.
Qed.

Lemma sink_inv_Feed m r : sink_inv r -> sink_inv (Replicator.Feed m r).
Proof.
  intros Hinv k sk' Hk. unfold Replicator.Feed in *. simpl in *.
  rewrite lookup_fmap in Hk.
  destruct (Replicator.sinks r !! k) as [sk|] eqn:Hsk; [|done].
  simpl in Hk. simplify_eq.
  destruct (Hinv k sk Hsk) as (H1 & H2 & H3).
  unfold Replicator.offer.
  destruct (Replicator.closed sk) eqn:Hcl.
  - rewrite drop_app_le by done.
    split; [rewrite length_app; lia|]. split; [by apply prefix_app_r|].
    congruence.
  - case_decide; simpl; rewrite drop_app_le by done.
    + split; [rewrite length_app; lia|].
      rewrite app_assoc, H3 by done. done.
    + split; [rewrite length_app; lia|]. split; [by apply prefix_app_r|done].
Qed.

Lemma offer_taken m sk :
  Replicator.taken (Replicator.offer m sk) = Replicator.taken sk.
Proof.
  unfold Replicator.offer. destruct (Replicator.closed sk); [done|].
  by case_decide.
Qed.

(** *** What a step leaves alone *)

Lemma step_frame l s s' :
  step l s = Some s' ->
  match l with
  | LPausec _ _ | LAccept | LConn _ | LConnFail _ => True
  | LCloseNotify _ | LIngest _ | LRepShutdown => conns s' = conns s
  | _ => conns s' = conns s /\ rep s' = rep s
  end.
Proof.
  unfold step. destruct (panicked s); [done|].
  destruct l; simpl; intros Hstep; try done.
  - unfold run_recv in Hstep. destruct (runpc s); try done.
    destruct (gochan.recv _); by simplify_eq.
  - unfold run_deliver in Hstep. destruct (runpc s); try done.
    destruct (Agg.deliver _ _); by simplify_eq.
  - by simplify_eq.
  - by simplify_eq.
  - destruct (ingests s !! j) as [g|]; simpl in Hstep; [|done].
    unfold ingest_step in Hstep. destruct (mid g); [by simplify_eq|].
    destruct (pending g); [done|].
    destruct (feed _ s) as [s1|] eqn:Hf; simpl in Hstep; [|done].
    apply feed_frame in Hf as (Hc & _). simplify_eq.
    by destruct (panicked s1).
  - apply feed_frame in Hstep. tauto.
  - by simplify_eq.
  - by simplify_eq.
  - destruct (Agg.Shutdown _); by simplify_eq.
  - by simplify_eq.
Qed.

(** A rendezvous on [pausec], once the pause protocol is known to hold:
    either the run loop acknowledges and the closure of a paused connection
    receives, or [Pause] sends and the run loop receives at its [select]. *)
Lemma rendezvous_cases snd rcv s s' :
  mutex_inv s -> rendezvous snd rcv s = Some s' ->
  (exists j c,
      snd = PRun /\ rcv = PConn j /\ runpc s = RAck
      /\ conns s !! j = Some c /\ pc c = CRegistered
      /\ s' = set_runpc RSelect
                 (set_conn j (called CallUnpause (goto CUnlocking c)) s))
  \/ (exists i c,
      snd = PConn i /\ rcv = PRun /\ runpc s = RSelect
      /\ conns s !! i = Some c /\ pc c = CLocked
      /\ s' = set_conn i (goto CPaused c) (set_runpc RAck s)).
Proof.
  intros (H1 & _ & _) Hstep. unfold rendezvous in Hstep.
  destruct (can_send snd s) eqn:Hsnd; [|done].
  destruct (can_recv rcv s) eqn:Hrcv; [|done].
  simpl in Hstep. simplify_eq.
  destruct snd as [|i], rcv as [|j]; simpl in Hsnd, Hrcv.
  - by destruct (runpc s).
  - left. destruct (runpc s) eqn:Hrun; try done.
    destruct (conn_pc j s) as [p|] eqn:Hj; [|done].
    destruct p; try done.
    apply conn_pc_Some in Hj as (c & Hj & Hpc).
    exists j, c. simpl. unfold update_conn. rewrite Hj. done.
  - right. destruct (runpc s) eqn:Hrun; try done.
    destruct (conn_pc i s) as [p|] eqn:Hi; [|done].
    destruct p; try done.
    apply conn_pc_Some in Hi as (c & Hi & Hpc).
    exists i, c. simpl. unfold update_conn. simpl. rewrite Hi. done.
  - destruct (conn_pc i s) as [p|] eqn:Hi; [|done].
    destruct p; try done.
    destruct (conn_pc j s) as [q|] eqn:Hj; [|done].
    destruct q; try done.
    apply conn_pc_Some in Hi as (ci & Hi & Hpi).
    apply conn_pc_Some in Hj as (cj & Hj & Hpj).
    assert (i = j) as ->.
    { eapply H1; [done|done| |]; unfold holding.
      - by rewrite Hpi.
      - by rewrite Hpj. }
    simplify_eq. congruence.
Qed.


(** *** The order of the calls *)

Ltac destruct_step H :=
  repeat match type of H with
         | context [match ?x with _ => _ end] => destruct x eqn:?
         end.

Lemma step_calls_ok l s s' :
  mutex_inv s -> calls_ok s -> step l s = Some s' -> calls_ok s'.
Proof.
  intros Hm Hc Hstep. pose proof (step_frame _ _ _ Hstep) as Hf.
  unfold step in Hstep. destruct (panicked s); [done|].
  unfold calls_ok in *.
  destruct l; simpl in Hstep, Hf;
    try (by rewrite Hf); try (by rewrite (proj1 Hf)).
  - destruct (rendezvous_cases _ _ _ _ Hm Hstep)
      as [(j & c & _ & _ & _ & Hj & Hpc & ->)|(i & c & _ & _ & _ & Hi & Hpc & ->)];
      simpl; (apply Forall_insert; [done|]).
    + pose proof (Forall_lookup_1 _ _ _ _ Hc Hj) as Hcj.
      unfold calls_inv in *. simpl. rewrite Hpc in Hcj. by rewrite Hcj.
    + pose proof (Forall_lookup_1 _ _ _ _ Hc Hi) as Hci.
      unfold calls_inv in *. simpl. rewrite Hpc in Hci. by rewrite Hci.
  - simplify_eq. simpl. apply Forall_app. split; [done|]. by constructor.
  - destruct (conns s !! i) as [c|] eqn:Hi; simpl in Hstep; [|done].
    pose proof (Forall_lookup_1 _ _ _ _ Hc Hi) as Hci.
    unfold conn_step in Hstep.
    destruct (pc c) eqn:Hpc; try done; destruct_step Hstep; simplify_eq;
      simpl; try done; (apply Forall_insert; [done|]);
      unfold calls_inv in *; simpl; rewrite ?Hpc in *; simpl in *;
      rewrite ?Hci; done.
  - destruct (conns s !! i) as [c|] eqn:Hi; simpl in Hstep; [|done].
    pose proof (Forall_lookup_1 _ _ _ _ Hc Hi) as Hci.
    unfold conn_fail in Hstep.
    destruct (pc c) eqn:Hpc; try done; destruct_step Hstep; simplify_eq;
      simpl; (apply Forall_insert; [done|]);
      unfold calls_inv in *; simpl; rewrite ?Hpc in *; simpl in *;
      rewrite ?Hci; done.
Qed.

Lemma reachable_calls_ok lim s : reachable lim s -> calls_ok s.
Proof.
  intros Hr. induction Hr as [|l s s' Hr IH Hstep].
  - constructor.
  - eapply step_calls_ok; [|done|done]. by eapply reachable_mutex_inv.
Qed.

(** *** No [Add] while the run loop stands at its acknowledgement *)

Lemma update_conn_frame i f s :
  agg (update_conn i f s) = agg s /\ adds (update_conn i f s) = adds s
  /\ runpc (update_conn i f s) = runpc s /\ rep (update_conn i f s) = rep s.
Proof. unfold update_conn. by destruct (conns s !! i). Qed.

Lemma step_adds_msgc l s s' :
  runpc s = RAck -> step l s = Some s' ->
  adds s' = adds s
  /\ gochan.buf (Agg.msgc (agg s))
       `prefix_of` gochan.buf (Agg.msgc (agg s')).
Proof.
  intros Hrun Hstep. unfold step in Hstep. destruct (panicked s); [done|].
  destruct l; simpl in Hstep.
  - unfold run_recv in Hstep. by rewrite Hrun in Hstep.
  - unfold run_deliver in Hstep. by rewrite Hrun in Hstep.
  - unfold rendezvous in Hstep. destruct (_ && _); simplify_eq.
    destruct snd, rcv; simpl;
      repeat match goal with
             | |- context [update_conn ?i ?f ?s] =>
                 destruct (update_conn_frame i f s) as (-> & -> & _)
             end; done.
  - by simplify_eq.
  - destruct (conns s !! i) as [c|] eqn:Hi; simpl in Hstep; [|done].
    unfold conn_step in Hstep.
    destruct (pc c); try done; destruct_step Hstep; simplify_eq; done.
  - destruct (conns s !! i) as [c|] eqn:Hi; simpl in Hstep; [|done].
    unfold conn_fail in Hstep.
    destruct (pc c); try done; destruct_step Hstep; simplify_eq; done.
  - by simplify_eq.
  - by simplify_eq.
  - destruct (ingests s !! j) as [g|]; simpl in Hstep; [|done].
    unfold ingest_step in Hstep. destruct (mid g); [by simplify_eq|].
    destruct (pending g); [done|].
    destruct (feed _ s) as [s1|] eqn:Hf; simpl in Hstep; [|done].
    apply feed_frame in Hf as (_ & _ & _ & Ha & _ & _ & Hp). simplify_eq.
    by destruct (panicked s1).
  - apply feed_frame in Hstep. tauto.
  - by simplify_eq.
  - simplify_eq. simpl. split; [done|].
    by rewrite (proj2 (setup_frame id n filters (agg s))).
  - destruct (Agg.Shutdown _) eqn:Ha; simplify_eq; [|done].
    apply Shutdown_pmu in Ha as (_ & _ & Hb). simpl. by rewrite Hb.
  - by simplify_eq.
Qed.


(** *** What a connection has written *)

Lemma wire_inv_ext i c r r' :
  Replicator.sinks r' !! i = Replicator.sinks r !! i ->
  wire_inv i c r -> wire_inv i c r'.
Proof. unfold wire_inv, taken_of. by intros ->. Qed.

Lemma stream_inv_init lim : stream_inv (init lim).
Proof.
  unfold stream_inv, init, sink_inv. simpl. split; [|split].
  - intros k sk Hk. by rewrite lookup_empty in Hk.
  - intros k [sk Hk]. by rewrite lookup_empty in Hk.
  - intros i c Hi. done.
Qed.

(** Neither the connections nor the replicator change. *)
Lemma stream_inv_frame s s' :
  conns s' = conns s -> rep s' = rep s -> stream_inv s -> stream_inv s'.
Proof. unfold stream_inv. by intros -> ->. Qed.

(** The replicator changes under connections that stay as they are. *)
Lemma stream_inv_rep s s' :
  conns s' = conns s -> sink_inv (rep s') ->
  (forall k, taken_of k (rep s') = taken_of k (rep s)) ->
  (forall k, Replicator.sinks (rep s') !! k = None
             <-> Replicator.sinks (rep s) !! k = None) ->
  stream_inv s -> stream_inv s'.
Proof.
  intros Hc Hs Ht Hn (_ & Hk & Hw). unfold stream_inv. rewrite Hc.
  split; [done|]. split.
  - intros k Hsome. apply Hk. rewrite <- not_eq_None_Some in *.
    by rewrite <- Hn.
  - intros i c Hi. specialize (Hw i c Hi). unfold wire_inv in *.
    destruct (pc c); rewrite ?Ht; try done;
      (split; [apply Hw|apply Hn, Hw]).
Qed.

(** Connection [i] moves from [c] to [c'], and only its sink changes. *)
Lemma stream_inv_update s s' i c c' :
  conns s !! i = Some c -> conns s' = <[i := c']> (conns s) ->
  (forall j, j <> i ->
     Replicator.sinks (rep s') !! j = Replicator.sinks (rep s) !! j) ->
  sink_inv (rep s') -> wire_inv i c' (rep s') ->
  stream_inv s -> stream_inv s'.
Proof.
  intros Hi Hc Ho Hs Hwi (_ & Hk & Hw).
  pose proof (lookup_lt_Some _ _ _ Hi) as Hlt.
  unfold stream_inv. rewrite Hc, length_insert.
  split; [done|]. split.
  - intros k Hsome. destruct (decide (k = i)) as [->|Hne]; [done|].
    apply Hk. by rewrite <- Ho.
  - intros j cj Hj. destruct (decide (j = i)) as [->|Hne].
    + rewrite list_lookup_insert_eq in Hj by done. by simplify_eq.
    + rewrite list_lookup_insert_ne in Hj by done.
      eapply wire_inv_ext; [by apply Ho|]. by apply Hw.
Qed.

Lemma taken_of_fmap (f : Replicator.Sink -> Replicator.Sink) k r lim dn fd :
  (forall sk, Replicator.taken (f sk) = Replicator.taken sk) ->
  taken_of k (Replicator.mkReplicator (f <$> Replicator.sinks r) lim dn fd)
  = taken_of k r.
Proof.
  intros Hf. unfold taken_of. simpl. rewrite lookup_fmap.
  destruct (Replicator.sinks r !! k); simpl; [apply Hf|done].
Qed.

Lemma taken_of_Deregister i k r :
  taken_of k (Replicator.Deregister i r) = taken_of k r.
Proof.
  unfold taken_of, Replicator.Deregister. simpl.
  rewrite lookup_alter. case_decide; [|done]. subst k.
  by destruct (Replicator.sinks r !! i).
Qed.

Lemma sinks_None_Deregister i k r :
  Replicator.sinks (Replicator.Deregister i r) !! k = None
  <-> Replicator.sinks r !! k = None.
Proof.
  unfold Replicator.Deregister. simpl.
  rewrite lookup_alter. case_decide; [|done]. subst k.
  by destruct (Replicator.sinks r !! i).
Qed.

Lemma stream_inv_Feed m s s' :
  conns s' = conns s -> rep s' = Replicator.Feed m (rep s) ->
  stream_inv s -> stream_inv s'.
Proof.
  intros Hc Hr Hinv. eapply (stream_inv_rep s); try done; rewrite Hr.
  - apply sink_inv_Feed, Hinv.
  - intros k. apply taken_of_fmap, offer_taken.
  - intros k. unfold Replicator.Feed. simpl. rewrite lookup_fmap.
    by destruct (Replicator.sinks (rep s) !! k).
Qed.

Lemma step_stream_inv l s s' :
  mutex_inv s -> stream_inv s -> step l s = Some s' -> stream_inv s'.
Proof.
  intros Hm Hinv Hstep. pose proof (step_frame _ _ _ Hstep) as Hf.
  unfold step in Hstep. destruct (panicked s); [done|].
  destruct l; simpl in Hstep, Hf;
    try (by eapply (stream_inv_frame s); tauto).
  - (* LPausec *)
    destruct Hinv as (Hs & Hk & Hw).
    destruct (rendezvous_cases _ _ _ _ Hm Hstep)
      as [(j & c & _ & _ & _ & Hj & Hpc & ->)|(i & c & _ & _ & _ & Hi & Hpc & ->)].
    + eapply (stream_inv_update s _ j c); try done.
      specialize (Hw j c Hj). unfold wire_inv in *. simpl.
      by rewrite Hpc in Hw.
    + eapply (stream_inv_update s _ i c); try done.
      specialize (Hw i c Hi). unfold wire_inv in *. simpl.
      by rewrite Hpc in Hw.
  - (* LAccept *)
    simplify_eq. destruct Hinv as (Hs & Hk & Hw).
    unfold stream_inv. simpl. split; [done|]. split.
    + intros k Hsome. rewrite length_app. simpl. specialize (Hk k Hsome). lia.
    + intros i c Hi. apply lookup_app_Some in Hi as [Hi|[Hge Hi]]; [by apply Hw|].
      apply list_lookup_singleton_Some in Hi as [H0 <-].
      unfold wire_inv. simpl. split; [done|].
      destruct (Replicator.sinks (rep s) !! i) eqn:Hsk; [|done].
      assert (i < length (conns s)) by (apply Hk; by eexists). lia.
  - (* LConn *)
    destruct (conns s !! i) as [c|] eqn:Hi; simpl in Hstep; [|done].
    pose proof Hinv as (Hs & Hk & Hw).
    pose proof (Hw i c Hi) as Hwi. unfold wire_inv in Hwi.
    unfold conn_step in Hstep.
    destruct (pc c) eqn:Hpc; try done.
    + destruct (Agg.pmu _); simplify_eq.
      by eapply (stream_inv_update s _ i c).
    + simplify_eq. by eapply (stream_inv_update s _ i c).
    + simplify_eq.
      eapply (stream_inv_update s _ i c); [done|done|..|done]; simpl.
      * intros j Hne. by rewrite lookup_insert_ne.
      * by apply sink_inv_Register.
      * unfold wire_inv, taken_of. simpl. rewrite lookup_insert_eq.
        split; [apply Hwi|done].
    + simplify_eq. by eapply (stream_inv_update s _ i c).
    + simplify_eq.
      eapply (stream_inv_update s _ i c); [done|done|done|done| |done].
      unfold wire_inv. simpl. destruct Hwi as [-> Ht]. done.
    + destruct rest as [|m rest]; simplify_eq.
      * eapply (stream_inv_update s _ i c); [done|done|done|done| |done].
        unfold wire_inv. simpl. destruct Hwi as [Hwi Ht].
        rewrite app_nil_r in Hwi. by rewrite Hwi, Ht, app_nil_r.
      * eapply (stream_inv_update s _ i c); [done|done|done|done| |done].
        unfold wire_inv. simpl. destruct Hwi as [Hwi Ht].
        by rewrite <- app_assoc.
    + destruct (Replicator.receive i (rep s)) as [m r| |] eqn:Hrecv;
        simplify_eq.
      * eapply (stream_inv_update s _ i c); [done|done|..|done]; simpl.
        -- intros j Hne. by eapply receive_Got_other.
        -- by eapply sink_inv_receive.
        -- unfold wire_inv. simpl. rewrite Hpc.
           rewrite (receive_Got_taken _ _ _ _ Hrecv), Hwi.
           by rewrite app_assoc.
      * eapply (stream_inv_update s _ i c); [done|done|done|done| |done].
        unfold wire_inv. simpl. by rewrite Hwi.
    + destruct (Replicator.receive i (rep s)) as [m r| |] eqn:Hrecv;
        simplify_eq.
      * eapply (stream_inv_update s _ i c c); [done| |..|done]; simpl.
        -- by rewrite list_insert_id.
        -- intros j Hne. by eapply receive_Got_other.
        -- by eapply sink_inv_receive.
        -- unfold wire_inv. rewrite Hpc.
           rewrite (receive_Got_taken _ _ _ _ Hrecv), app_assoc.
           by apply prefix_app_r.
      * eapply (stream_inv_update s _ i c); [done|done|done|done| |done].
        unfold wire_inv. simpl. done.
  - (* LConnFail *)
    destruct (conns s !! i) as [c|] eqn:Hi; simpl in Hstep; [|done].
    pose proof Hinv as (Hs & Hk & Hw).
    pose proof (Hw i c Hi) as Hwi. unfold wire_inv in Hwi.
    unfold conn_fail in Hstep.
    destruct (pc c) eqn:Hpc; try done.
    + destruct rest as [|m rest]; simplify_eq.
      eapply (stream_inv_update s _ i c); [done|done|done|done| |done].
      unfold wire_inv. simpl. destruct Hwi as [<- ->].
      rewrite app_nil_r. by eexists.
    + destruct (Replicator.receive i (rep s)) as [m r| |] eqn:Hrecv;
        simplify_eq.
      eapply (stream_inv_update s _ i c); [done|done|..|done]; simpl.
      * intros j Hne. by eapply receive_Got_other.
      * by eapply sink_inv_receive.
      * unfold wire_inv. simpl.
        rewrite (receive_Got_taken _ _ _ _ Hrecv), Hwi, app_assoc.
        by apply prefix_app_r.
  - (* LCloseNotify *)
    simplify_eq. eapply (stream_inv_rep s); try done; simpl.
    + apply sink_inv_Deregister, Hinv.
    + intros k. apply taken_of_Deregister.
    + intros k. apply sinks_None_Deregister.
  - (* LIngest *)
    destruct (ingests s !! j) as [g|]; simpl in Hstep; [|done].
    unfold ingest_step in Hstep. destruct (mid g).
    + simplify_eq. by eapply (stream_inv_Feed _ s).
    + destruct (pending g); [done|].
      destruct (feed _ s) as [s1|] eqn:Hfd; simpl in Hstep; [|done].
      apply feed_frame in Hfd as (Hc & _ & Hr & _). simplify_eq.
      destruct (panicked s1); by eapply (stream_inv_frame s).
  - (* LRepShutdown *)
    simplify_eq. eapply (stream_inv_rep s); try done; simpl.
    + apply sink_inv_Shutdown, Hinv.
    + intros k. by apply taken_of_fmap.
    + intros k. rewrite lookup_fmap.
      by destruct (Replicator.sinks (rep s) !! k).
Qed.

Lemma reachable_stream_inv lim s : reachable lim s -> stream_inv s.
Proof.
  intros Hr. induction Hr as [|l s s' Hr IH Hstep].
  - apply stream_inv_init.
  - eapply step_stream_inv; [|done|done]. by eapply reachable_mutex_inv.
Qed.

(** What a connection has written is a prefix of its snapshot followed by
    the messages fed to the replicator since its registration. *)
Lemma stream_inv_wire s i c :
  stream_inv s -> conns s !! i = Some c ->
  wire c `prefix_of` concat (snapshot c) ++ Replicator.offered i (rep s).
Proof.
  intros (Hs & _ & Hw) Hi. specialize (Hw i c Hi).
  assert (Ht : taken_of i (rep s) `prefix_of` Replicator.offered i (rep s)).
  { unfold taken_of, Replicator.offered.
    destruct (Replicator.sinks (rep s) !! i) as [sk|] eqn:Hsk; [|done].
    destruct (Hs i sk Hsk) as (_ & Hp & _).
    etrans; [|exact Hp]. by apply prefix_app_r. }
  unfold wire_inv in Hw.
  destruct (pc c).
  1-7: destruct Hw as [-> _]; apply prefix_nil.
  - destruct Hw as [Hw _]. rewrite <- Hw, <- app_assoc. by apply prefix_app_r.
  - rewrite Hw. by apply prefix_app.
  - etrans; [exact Hw|]. by apply prefix_app.
  - etrans; [exact Hw|]. by apply prefix_app.
Qed.


(** *** How one connection moves *)

Lemma conn_step_conns k ck s s' :
  conns s !! k = Some ck -> conn_step k ck s = Some s' ->
  exists ck', conns s' = <[k := ck']> (conns s)
              /\ (pc ck' = CDrain -> pc ck = CDrain)
              /\ (pc ck = CDrain -> wire ck' = wire ck)
              /\ runpc s' = runpc s /\ adds s' = adds s.
Proof.
  intros Hk Hstep. unfold conn_step in Hstep.
  destruct (pc ck) eqn:Hpc; try done; destruct_step Hstep; simplify_eq;
    try (solve [eexists; split; [reflexivity|]; simpl; rewrite ?Hpc;
                repeat split; congruence]).
  exists ck. simpl. by rewrite list_insert_id.
Qed.

Lemma conn_fail_conns k ck s s' :
  conn_fail k ck s = Some s' ->
  conns s' = <[k := goto CDrain ck]> (conns s)
  /\ ((exists rest, pc ck = CStream rest) \/ pc ck = CTail)
  /\ runpc s' = runpc s /\ adds s' = adds s.
Proof.
  intros Hstep. unfold conn_fail in Hstep.
  destruct (pc ck) eqn:Hpc; try done; destruct_step Hstep; simplify_eq;
    simpl; eauto 6.
Qed.

Lemma step_conn_cases l s s' i c c' :
  mutex_inv s -> step l s = Some s' ->
  conns s !! i = Some c -> conns s' !! i = Some c' ->
  c' = c
  \/ (l = LPausec PRun (PConn i) /\ runpc s = RAck /\ pc c = CRegistered
      /\ c' = called CallUnpause (goto CUnlocking c) /\ runpc s' = RSelect)
  \/ (l = LPausec (PConn i) PRun /\ runpc s = RSelect /\ pc c = CLocked
      /\ c' = goto CPaused c /\ runpc s' = RAck)
  \/ (l = LConn i /\ conn_step i c s = Some s')
  \/ (l = LConnFail i /\ conn_fail i c s = Some s').
Proof.
  intros Hm Hstep Hi Hi'. pose proof (step_frame _ _ _ Hstep) as Hf.
  pose proof (lookup_lt_Some _ _ _ Hi) as Hlt.
  unfold step in Hstep. destruct (panicked s); [done|].
  destruct l; simpl in Hstep, Hf;
    try (left; rewrite Hf in Hi'; congruence);
    try (left; rewrite (proj1 Hf) in Hi'; congruence).
  - destruct (rendezvous_cases _ _ _ _ Hm Hstep)
      as [(j & cj & -> & -> & Hrun & Hj & Hpc & ->)
         |(j & cj & -> & -> & Hrun & Hj & Hpc & ->)];
      simpl in Hi'; (destruct (decide (i = j)) as [->|Hne];
        [rewrite list_lookup_insert_eq in Hi' by done
        |rewrite list_lookup_insert_ne in Hi' by done; left; congruence]);
      simplify_eq.
    + right. left. done.
    + right. right. left. done.
  - simplify_eq. simpl in Hi'. rewrite lookup_app_l in Hi' by done.
    left. congruence.
  - destruct (conns s !! i0) as [ck|] eqn:Hk; simpl in Hstep; [|done].
    destruct (decide (i = i0)) as [->|Hne].
    + simplify_eq. right. right. right. left. done.
    + apply conn_step_conns in Hstep as (ck' & Hc & _); [|done].
      rewrite Hc, list_lookup_insert_ne in Hi' by done. left. congruence.
  - destruct (conns s !! i0) as [ck|] eqn:Hk; simpl in Hstep; [|done].
    destruct (decide (i = i0)) as [->|Hne].
    + simplify_eq. right. right. right. right. done.
    + apply conn_fail_conns in Hstep as (Hc & _).
      rewrite Hc, list_lookup_insert_ne in Hi' by done. left. congruence.
Qed.

(** While a connection is paused the run loop stays at its
    acknowledgement, until the closure of that connection receives. *)
Lemma paused_step_runpc l s s' i c :
  mutex_inv s -> conns s !! i = Some c -> paused c = true ->
  step l s = Some s' ->
  runpc s' = RAck \/ (l = LPausec PRun (PConn i) /\ pc c = CRegistered).
Proof.
  intros Hm Hi Hp Hstep. pose proof Hm as (H1 & H2 & H3).
  pose proof (H3 i c Hi Hp) as Hrun.
  unfold step in Hstep. destruct (panicked s); [done|].
  destruct l; simpl in Hstep.
  - unfold run_recv in Hstep. by rewrite Hrun in Hstep.
  - unfold run_deliver in Hstep. by rewrite Hrun in Hstep.
  - destruct (rendezvous_cases _ _ _ _ Hm Hstep)
      as [(j & cj & -> & -> & _ & Hj & Hpc & ->)
         |(j & cj & -> & -> & Hsel & _)]; [|congruence].
    right. assert (i = j) as ->.
    { eapply H1; [done|done|by apply paused_holding|].
      unfold holding. by rewrite Hpc. }
    by simplify_eq.
  - left. by simplify_eq.
  - left. destruct (conns s !! i0) as [ck|] eqn:Hk; simpl in Hstep; [|done].
    apply conn_step_conns in Hstep as (_ & _ & _ & _ & -> & _); done.
  - left. destruct (conns s !! i0) as [ck|] eqn:Hk; simpl in Hstep; [|done].
    apply conn_fail_conns in Hstep as (_ & _ & -> & _). done.
  - left. by simplify_eq.
  - left. by simplify_eq.
  - left. destruct (ingests s !! j) as [g|]; simpl in Hstep; [|done].
    unfold ingest_step in Hstep. destruct (mid g); [by simplify_eq|].
    destruct (pending g); [done|].
    destruct (feed _ s) as [s1|] eqn:Hf; simpl in Hstep; [|done].
    apply feed_frame in Hf as (_ & Hr & _). simplify_eq.
    destruct (panicked s1); simpl; congruence.
  - left. apply feed_frame in Hstep as (_ & -> & _). done.
  - left. by simplify_eq.
  - left. by simplify_eq.
  - left. destruct (Agg.Shutdown _); by simplify_eq.
  - left. by simplify_eq.
Qed.


(** *** The drain *)

Lemma drain_queue s i c sk :
  panicked s = false -> conns s !! i = Some c -> pc c = CDrain ->
  Replicator.sinks (rep s) !! i = Some sk ->
  exists s',
    exec (replicate (length (Replicator.queue sk)) (LConn i)) s = Some s'
    /\ conns s' = conns s /\ panicked s' = false
    /\ Replicator.sinks (rep s') !! i
       = Some (Replicator.mkSink [] (Replicator.limit sk)
                 (Replicator.closed sk) (Replicator.since sk)
                 (Replicator.taken sk ++ Replicator.queue sk)).
Proof.
  remember (Replicator.queue sk) as q eqn:Hq.
  revert s sk Hq. induction q as [|m q IH]; intros s sk Hq Hp Hi Hpc Hsk.
  - exists s. simpl. repeat split; try done.
    rewrite app_nil_r, Hsk. destruct sk; simpl in *. by subst.
  - simpl. unfold step. rewrite Hp. simpl. rewrite Hi. simpl.
    unfold conn_step. rewrite Hpc.
    unfold Replicator.receive. rewrite Hsk, <- Hq.
    match goal with |- context [Some (set_rep ?r s)] => set (r' := r) end.
    simpl.
    destruct (IH (set_rep r' s)
                 (Replicator.mkSink q (Replicator.limit sk)
                    (Replicator.closed sk) (Replicator.since sk)
                    (Replicator.taken sk ++ [m])))
      as (s' & He & Hc & Hp' & Hs'); try done.
    { subst r'. simpl. by rewrite lookup_insert_eq. }
    exists s'. split; [done|]. split; [done|]. split; [done|].
    rewrite Hs'. simpl. by rewrite <- app_assoc.
Qed.

End SchedFacts.

(* ===================================================================== *)
(** ** C2: the replication handshake *)
(* ===================================================================== *)

(** C2, as stated, fails on the part that no message appears twice. One
    message is ingested once; the run loop adds it to its buffer; a
    follower connects and the leader pauses, copies the buffers and
    registers the follower; only then does the syslog connection pass the
    message to the replicator, which is not held by the pause. The leader
    went through the five calls in order, and the follower receives the
    message twice. *)
Lemma replication_duplicates_message :
  exists s c,
    Sched.exec Sched.duplicate_schedule (Sched.init 8) = Some s
    /\ Sched.conns s !! 0 = Some c
    /\ Sched.calls c = Sched.protocol
    /\ Sched.adds s = [Some Sched.m1]
    /\ Replicator.fed (Sched.rep s) = [Some Sched.m1]
    /\ Sched.wire c = [Some Sched.m1; Some Sched.m1].
Proof.
  eexists _, _. split; [vm_compute; reflexivity|].
  split; [vm_compute; reflexivity|]. by vm_compute.
Qed.

(** The same handshake can leave a gap: of three messages ingested in
    order, the follower receives the first and the third; the second was
    passed to the replicator before the registration while still queued on
    the inbound channel when the buffers were copied. *)
Lemma replication_misses_message :
  exists s c,
    Sched.exec Sched.gap_schedule (Sched.init 8) = Some s
    /\ Sched.conns s !! 0 = Some c
    /\ Sched.adds s = [Some Sched.m1; Some Sched.m2; Some Sched.m3]
    /\ Sched.wire c = [Some Sched.m1; Some Sched.m3].
Proof.
  eexists _, _. split; [vm_compute; reflexivity|].
  split; [vm_compute; reflexivity|]. by vm_compute.
Qed.

(** C2, amended. In every execution and for every replication connection:
    the calls made so far are the first calls of Pause, CopyBuffers,
    Register, unpause, StreamTo, in this order; CopyBuffers and Register
    run while the connection is paused; while it is paused the run loop
    stands at its acknowledgement, no step adds a message to a buffer, and
    the run loop leaves only through the receive of the closure of this
    connection, which comes after the registration; what the follower has
    received is a prefix of the snapshot followed by the messages passed to
    the replicator since the registration; and while the connection
    forwards the tail on an open sink, everything passed to the replicator
    since the registration is written or queued. *)
Theorem replication_handshake
    (lim : nat) (s : Sched.State) (i : nat) (c : Sched.Conn) :
  Sched.reachable lim s -> Sched.conns s !! i = Some c ->
  Sched.calls c = take (Sched.progress (Sched.pc c)) Sched.protocol
  /\ (Sched.panicked s = false -> Sched.pc c = Sched.CPaused ->
       Sched.paused c = true
       /\ Sched.step (Sched.LConn i) s
          = Some (Sched.set_conn i
                    (Sched.called Sched.CallCopyBuffers
                       (Sched.mkConn Sched.CCopied
                          (Agg.CopyBuffers (Sched.agg s)) (Sched.wire c)
                          (Sched.calls c))) s))
  /\ (Sched.panicked s = false -> Sched.pc c = Sched.CCopied ->
       Sched.paused c = true
       /\ Sched.step (Sched.LConn i) s
          = Some (Sched.set_conn i
                    (Sched.called Sched.CallRegister
                       (Sched.goto Sched.CRegistered c))
                    (Sched.set_rep (Replicator.Register i (Sched.rep s)) s)))
  /\ (Sched.paused c = true ->
       Sched.runpc s = Sched.RAck
       /\ forall l s', Sched.step l s = Some s' ->
            Sched.adds s' = Sched.adds s
            /\ (Sched.runpc s' = Sched.RAck
                \/ (l = Sched.LPausec Sched.PRun (Sched.PConn i)
                    /\ Sched.pc c = Sched.CRegistered)))
  /\ Sched.wire c
       `prefix_of` concat (Sched.snapshot c)
                     ++ Replicator.offered i (Sched.rep s)
  /\ (Sched.pc c = Sched.CTail ->
       forall sk, Replicator.sinks (Sched.rep s) !! i = Some sk ->
                  Replicator.closed sk = false ->
                  Sched.wire c ++ Replicator.queue sk
                  = concat (Sched.snapshot c)
                    ++ Replicator.offered i (Sched.rep s)).
Proof.
  intros Hr Hi.
  pose proof (reachable_mutex_inv _ _ Hr) as Hm.
  pose proof (reachable_calls_ok _ _ Hr) as Hc.
  pose proof (reachable_stream_inv _ _ Hr) as Hs.
  split; [|split; [|split; [|split; [|split]]]].
  - exact (Forall_lookup_1 _ _ _ _ Hc Hi).
  - intros Hp Hpc. split; [unfold Sched.paused; by rewrite Hpc|].
    unfold Sched.step. rewrite Hp. simpl. rewrite Hi. simpl.
    unfold Sched.conn_step. by rewrite Hpc.
  - intros Hp Hpc. split; [unfold Sched.paused; by rewrite Hpc|].
    unfold Sched.step. rewrite Hp. simpl. rewrite Hi. simpl.
    unfold Sched.conn_step. by rewrite Hpc.
  - intros Hp. destruct Hm as (H1 & H2 & H3).
    pose proof (H3 i c Hi Hp) as Hrun. split; [done|].
    intros l s' Hstep. split.
    + by apply (step_adds_msgc l s s').
    + by apply (paused_step_runpc l s s' i c).
  - by apply stream_inv_wire.
  - intros Hpc sk Hsk Hcl. destruct Hs as (Hsink & _ & Hw).
    specialize (Hw i c Hi). unfold Sched.wire_inv in Hw. rewrite Hpc in Hw.
    destruct (Hsink i sk Hsk) as (_ & _ & Heq).
    unfold Replicator.offered, Sched.taken_of in *. rewrite Hsk in *.
    rewrite Hw, <- app_assoc. by rewrite Heq.
Qed.

Lemma replication_handshake_witness :
  Sched.wire Sched.duplicate_conn
    `prefix_of` concat (Sched.snapshot Sched.duplicate_conn)
                  ++ Replicator.offered 0 (Sched.rep Sched.duplicate_state).
Proof.
  refine (proj1 (proj2 (proj2 (proj2 (proj2
            (replication_handshake 8 Sched.duplicate_state 0
               Sched.duplicate_conn _ _)))))).
  - apply (exec_reachable 8 Sched.duplicate_schedule (Sched.init 8));
      [apply Sched.reach_init|vm_compute; reflexivity].
  - vm_compute; reflexivity.
Defined.


(* ===================================================================== *)
(** ** C4: [Pause] *)
(* ===================================================================== *)

(** C4. In every execution: at most one connection is between the lock
    of [pmu] in [Pause] and its unlock in the closure, and [pmu] is locked
    while one is; [Pause] returns to a connection only through the
    rendezvous in which the run loop receives at its [select], so not
    between the receive of a message and its [Add], and that leaves the run
    loop at its acknowledgement; and from the return of [Pause] until the
    closure receives, the run loop stands at its acknowledgement, its two
    steps are disabled, no step adds a message to a buffer or takes one
    from the inbound channel, the run loop leaves only through the receive
    of the closure of this very connection, and a [Feed] that goes through
    puts its message at the back of the inbound queue. *)
Theorem Pause_stops_the_run_loop (lim : nat) (s : Sched.State) :
  Sched.reachable lim s ->
  (forall i j ci cj,
      Sched.conns s !! i = Some ci -> Sched.conns s !! j = Some cj ->
      Sched.holding ci = true -> Sched.holding cj = true -> i = j)
  /\ (forall i c, Sched.conns s !! i = Some c -> Sched.holding c = true ->
                  Agg.pmu (Sched.agg s) = true)
  /\ (forall l s' i c c',
       Sched.step l s = Some s' ->
       Sched.conns s !! i = Some c -> Sched.conns s' !! i = Some c' ->
       Sched.pc c = Sched.CLocked -> Sched.pc c' = Sched.CPaused ->
       l = Sched.LPausec (Sched.PConn i) Sched.PRun
       /\ Sched.runpc s = Sched.RSelect /\ Sched.runpc s' = Sched.RAck)
  /\ (forall i c,
       Sched.conns s !! i = Some c -> Sched.paused c = true ->
       Sched.runpc s = Sched.RAck
       /\ Sched.step Sched.LRunRecv s = None
       /\ Sched.step Sched.LRunDeliver s = None
       /\ (forall l s', Sched.step l s = Some s' ->
             Sched.adds s' = Sched.adds s
             /\ gochan.buf (Agg.msgc (Sched.agg s))
                  `prefix_of` gochan.buf (Agg.msgc (Sched.agg s'))
             /\ (Sched.runpc s' = Sched.RAck
                 \/ (l = Sched.LPausec Sched.PRun (Sched.PConn i)
                     /\ Sched.pc c = Sched.CRegistered)))
       /\ (forall m s', Sched.step (Sched.LFeed m) s = Some s' ->
             Sched.panicked s' = false ->
             gochan.buf (Agg.msgc (Sched.agg s'))
             = gochan.buf (Agg.msgc (Sched.agg s)) ++ [m])).
Proof.
  intros Hr. pose proof (reachable_mutex_inv _ _ Hr) as Hm.
  pose proof Hm as (H1 & H2 & H3).
  split; [done|]. split; [done|]. split.
  - intros l s' i c c' Hstep Hi Hi' Hpc Hpc'.
    destruct (step_conn_cases _ _ _ _ _ _ Hm Hstep Hi Hi')
      as [->|[(_ & _ & Hp & _)|[(-> & Hsel & _ & _ & Hack)|[(_ & Hc)|(_ & Hc)]]]].
    + congruence.
    + congruence.
    + done.
    + unfold Sched.conn_step in Hc. by rewrite Hpc in Hc.
    + unfold Sched.conn_fail in Hc. by rewrite Hpc in Hc.
  - intros i c Hi Hp. pose proof (H3 i c Hi Hp) as Hrun.
    split; [done|]. split; [|split; [|split]].
    + unfold Sched.step. destruct (Sched.panicked s); [done|]. simpl.
      unfold Sched.run_recv. by rewrite Hrun.
    + unfold Sched.step. destruct (Sched.panicked s); [done|]. simpl.
      unfold Sched.run_deliver. by rewrite Hrun.
    + intros l s' Hstep.
      destruct (step_adds_msgc l s s' Hrun Hstep) as [Ha Hb].
      split; [done|]. split; [done|].
      by apply (paused_step_runpc l s s' i c).
    + intros m s' Hstep Hnp. unfold Sched.step in Hstep.
      destruct (Sched.panicked s) eqn:Hps; [done|]. simpl in Hstep.
      unfold Sched.feed, Agg.Feed, gochan.send in Hstep.
      destruct (gochan.closed (Agg.msgc (Sched.agg s))); [by simplify_eq|].
      case_decide; by simplify_eq.
Qed.

Lemma Pause_stops_the_run_loop_witness :
  Sched.runpc Sched.paused_state = Sched.RAck
  /\ Sched.step Sched.LRunRecv Sched.paused_state = None.
Proof.
  assert (Hr : Sched.reachable 8 Sched.paused_state).
  { apply (exec_reachable 8 Sched.paused_schedule (Sched.init 8));
      [apply Sched.reach_init|vm_compute; reflexivity]. }
  assert (Hc : Sched.conns Sched.paused_state !! 0 = Some Sched.paused_conn)
    by (vm_compute; reflexivity).
  assert (Hp : Sched.paused Sched.paused_conn = true)
    by (vm_compute; reflexivity).
  pose proof (proj2 (proj2 (proj2
                (Pause_stops_the_run_loop 8 Sched.paused_state Hr)))
                0 Sched.paused_conn Hc Hp) as H.
  exact (conj (proj1 H) (proj1 (proj2 H))).
Defined.

(* ===================================================================== *)
(** ** C9: a failed write is followed by the drain *)
(* ===================================================================== *)

(** C9. In every execution and for every replication connection: a
    failed write of [StreamTo], which can only happen while the snapshot or
    the tail is being written, ends the streaming and starts the drain,
    with nothing more written; the drain is entered on such a failure only;
    in the drain, each step receives one message from the sink and drops
    it, the connection waits on an empty open sink, and it finishes exactly
    when the sink is closed and empty; whatever the sink holds is received
    by as many steps as it holds messages; and [Replicator.Feed] is never
    blocked: the step of a syslog connection that passes its message to the
    replicator is always enabled. *)
Theorem StreamTo_error_is_drained
    (lim : nat) (s : Sched.State) (i : nat) (c : Sched.Conn) :
  Sched.reachable lim s -> Sched.conns s !! i = Some c ->
  (forall s', Sched.step (Sched.LConnFail i) s = Some s' ->
     ((exists rest, Sched.pc c = Sched.CStream rest)
      \/ Sched.pc c = Sched.CTail)
     /\ Sched.conns s' !! i = Some (Sched.goto Sched.CDrain c))
  /\ (forall l s' c',
       Sched.step l s = Some s' -> Sched.conns s' !! i = Some c' ->
       Sched.pc c' = Sched.CDrain -> Sched.pc c <> Sched.CDrain ->
       l = Sched.LConnFail i)
  /\ (Sched.pc c = Sched.CDrain -> Sched.panicked s = false ->
       (forall m r,
           Replicator.receive i (Sched.rep s) = Replicator.Got m r ->
           Sched.step (Sched.LConn i) s = Some (Sched.set_rep r s))
       /\ (Replicator.receive i (Sched.rep s) = Replicator.SinkClosed ->
           Sched.step (Sched.LConn i) s
           = Some (Sched.set_conn i (Sched.goto Sched.CDone c) s))
       /\ (Replicator.receive i (Sched.rep s) = Replicator.SinkEmpty ->
           Sched.step (Sched.LConn i) s = None)
       /\ (forall l s' c',
             Sched.step l s = Some s' -> Sched.conns s' !! i = Some c' ->
             Sched.wire c' = Sched.wire c
             /\ (Sched.pc c' <> Sched.CDrain ->
                 l = Sched.LConn i /\ Sched.pc c' = Sched.CDone
                 /\ Replicator.receive i (Sched.rep s)
                    = Replicator.SinkClosed))
       /\ (forall sk,
             Replicator.sinks (Sched.rep s) !! i = Some sk ->
             exists s',
               Sched.exec (replicate (length (Replicator.queue sk))
                                     (Sched.LConn i)) s = Some s'
               /\ Sched.conns s' !! i = Some c
               /\ Replicator.sinks (Sched.rep s') !! i
                  = Some (Replicator.mkSink [] (Replicator.limit sk)
                            (Replicator.closed sk) (Replicator.since sk)
                            (Replicator.taken sk ++ Replicator.queue sk))))
  /\ (Sched.panicked s = false ->
       forall j g m, Sched.ingests s !! j = Some g ->
                     Sched.mid g = Some m ->
                     is_Some (Sched.step (Sched.LIngest j) s)).
Proof.
  intros Hr Hi. pose proof (reachable_mutex_inv _ _ Hr) as Hm.
  pose proof (lookup_lt_Some _ _ _ Hi) as Hlt.
  split; [|split; [|split]].
  - intros s' Hstep. unfold Sched.step in Hstep.
    destruct (Sched.panicked s); [done|]. simpl in Hstep.
    rewrite Hi in Hstep. simpl in Hstep.
    apply conn_fail_conns in Hstep as (Hc & Hpc & _).
    split; [done|]. rewrite Hc. by apply list_lookup_insert_eq.
  - intros l s' c' Hstep Hi' Hpc' Hpc.
    destruct (step_conn_cases _ _ _ _ _ _ Hm Hstep Hi Hi')
      as [->|[(_ & _ & _ & -> & _)|[(_ & _ & _ & -> & _)|[(_ & Hc)|(-> & _)]]]];
      try done.
    apply conn_step_conns in Hc as (ck' & Hc & Hd & _); [|done].
    rewrite Hc, list_lookup_insert_eq in Hi' by done. simplify_eq. tauto.
  - intros Hpc Hp.
    assert (Hstep : Sched.step (Sched.LConn i) s = Sched.conn_step i c s).
    { unfold Sched.step. rewrite Hp. simpl. by rewrite Hi. }
    rewrite Hstep. unfold Sched.conn_step. rewrite Hpc.
    split; [by intros m r ->|]. split; [by intros ->|].
    split; [by intros ->|]. split.
    + intros l s' c' Hst Hi'.
      destruct (step_conn_cases _ _ _ _ _ _ Hm Hst Hi Hi')
        as [->|[(_ & _ & Hq & _)|[(_ & _ & Hq & _)|[(-> & Hc)|(_ & Hc)]]]];
        try congruence.
      * done.
      * unfold Sched.conn_step in Hc. rewrite Hpc in Hc.
        destruct (Replicator.receive i (Sched.rep s)) eqn:Hrecv;
          simplify_eq; simpl in Hi'.
        -- rewrite Hi in Hi'. by simplify_eq.
        -- rewrite list_lookup_insert_eq in Hi' by done. by simplify_eq.
      * unfold Sched.conn_fail in Hc. by rewrite Hpc in Hc.
    + intros sk Hsk.
      destruct (drain_queue s i c sk Hp Hi Hpc Hsk) as (s' & He & Hc & _ & Hs).
      exists s'. by rewrite Hc.
  - intros Hp j g m Hj Hmid. unfold Sched.step. rewrite Hp. simpl.
    rewrite Hj. simpl. unfold Sched.ingest_step. rewrite Hmid. by eexists.
Qed.

Lemma StreamTo_error_is_drained_witness :
  exists s',
    Sched.exec (replicate 1 (Sched.LConn 0)) Sched.drain_state = Some s'
    /\ Sched.conns s' !! 0 = Some Sched.drain_conn
    /\ Replicator.sinks (Sched.rep s') !! 0
       = Some (Replicator.mkSink [] 8 false 1 [Some Sched.m2]).
Proof.
  assert (Hr : Sched.reachable 8 Sched.drain_state).
  { apply (exec_reachable 8 Sched.drain_schedule (Sched.init 8));
      [apply Sched.reach_init|vm_compute; reflexivity]. }
  assert (Hc : Sched.conns Sched.drain_state !! 0 = Some Sched.drain_conn)
    by (vm_compute; reflexivity).
  assert (Hpc : Sched.pc Sched.drain_conn = Sched.CDrain)
    by (vm_compute; reflexivity).
  assert (Hp : Sched.panicked Sched.drain_state = false)
    by (vm_compute; reflexivity).
  assert (Hsk : Replicator.sinks (Sched.rep Sched.drain_state) !! 0
                = Some (Replicator.mkSink [Some Sched.m2] 8 false 1 []))
    by (vm_compute; reflexivity).
  exact (proj2 (proj2 (proj2 (proj2 (proj1 (proj2 (proj2
           (StreamTo_error_is_drained 8 Sched.drain_state 0 Sched.drain_conn
              Hr Hc))) Hpc Hp)))) _ Hsk).
Defined.

(* ===================================================================== *)
(** * Further properties of the code *)
(* ===================================================================== *)

(** ** The flow of messages through the run loop *)

Ltac case_step H :=
  repeat match type of H with
         | context [match ?x with _ => _ end] => destruct x eqn:?
         end.

Section FlowFacts.
Import Sched Flow.
Implicit Types (s : State) (l : Label).

Lemma recv_Received {A} (c c' : gochan.chan A) x :
  gochan.recv c = gochan.Received x c' ->
  gochan.buf c = x :: gochan.buf c' /\ gochan.closed c' = gochan.closed c
  /\ gochan.cap c' = gochan.cap c.
Proof.
  unfold gochan.recv. destruct (gochan.buf c) as [|y rest] eqn:Hb.
  - by destruct (gochan.closed c).
  - by intros [= <- <-].
Qed.

Lemma recv_RecvClosed {A} (c : gochan.chan A) :
  gochan.recv c = gochan.RecvClosed ->
  gochan.buf c = [] /\ gochan.closed c = true.
Proof.
  unfold gochan.recv. destruct (gochan.buf c); [|done].
  by destruct (gochan.closed c).
Qed.

Lemma deliver_frame msg a a' :
  Agg.deliver msg a = Some a' ->
  Agg.msgc a' = Agg.msgc a /\ Agg.pmu a' = Agg.pmu a
  /\ exists m, msg = Some m
       /\ Agg.buffers a'
          = <[rfc5424.AppName m :=
                ring.Add msg
                  (default ring.NewBuffer
                     (Agg.buffers a !! rfc5424.AppName m))]> (Agg.buffers a).
Proof.
  unfold Agg.deliver. destruct msg as [m|]; simpl; [|done].
  unfold Agg.getOrInitializeBuffer.
  destruct (Agg.buffers a !! rfc5424.AppName m) as [b|] eqn:Hb; simpl;
    intros [= <-]; simpl; (split; [done|]); (split; [done|]);
    exists m; (split; [done|]); rewrite ?insert_insert_eq, Hb; done.
Qed.

Lemma conn_step_agg k ck s s' :
  conn_step k ck s = Some s' ->
  Agg.msgc (agg s') = Agg.msgc (agg s)
  /\ Agg.buffers (agg s') = Agg.buffers (agg s)
  /\ panicked s' = panicked s /\ ingests s' = ingests s.
Proof.
  intros Hstep. unfold conn_step in Hstep.
  destruct (pc ck); try done; case_step Hstep; by simplify_eq.
Qed.

Lemma conn_fail_agg k ck s s' :
  conn_fail k ck s = Some s' ->
  agg s' = agg s /\ panicked s' = panicked s /\ ingests s' = ingests s.
Proof.
  intros Hstep. unfold conn_fail in Hstep.
  destruct (pc ck); try done; case_step Hstep; by simplify_eq.
Qed.

Lemma feed_cases m s s' :
  feed m s = Some s' ->
  (s' = panic s /\ gochan.closed (Agg.msgc (agg s)) = true)
  \/ (panicked s' = panicked s
      /\ gochan.closed (Agg.msgc (agg s)) = false
      /\ length (gochan.buf (Agg.msgc (agg s))) < gochan.cap (Agg.msgc (agg s))
      /\ gochan.buf (Agg.msgc (agg s'))
         = gochan.buf (Agg.msgc (agg s)) ++ [m]
      /\ gochan.closed (Agg.msgc (agg s')) = false
      /\ runpc s' = runpc s /\ adds s' = adds s /\ conns s' = conns s
      /\ ingests s' = ingests s
      /\ Agg.buffers (agg s') = Agg.buffers (agg s)
      /\ Agg.pmu (agg s') = Agg.pmu (agg s)).
Proof.
  unfold feed, Agg.Feed, gochan.send. intros H.
  destruct (gochan.closed (Agg.msgc (agg s))) eqn:Hc; simplify_eq;
    [by left|].
  case_decide; simplify_eq. right. simpl. done.
Qed.

Lemma rendezvous_frame snd rcv s s' :
  rendezvous snd rcv s = Some s' ->
  agg s' = agg s /\ adds s' = adds s /\ panicked s' = panicked s
  /\ ingests s' = ingests s /\ in_hand (runpc s') = in_hand (runpc s)
  /\ (runpc s' = RExit <-> runpc s = RExit).
Proof.
  unfold rendezvous. destruct (can_send snd s) eqn:Hs; [|done].
  destruct (can_recv rcv s) eqn:Hr; [|done]. simpl. intros [= <-].
  assert (Hu : forall i f t,
            agg (update_conn i f t) = agg t /\ adds (update_conn i f t) = adds t
            /\ panicked (update_conn i f t) = panicked t
            /\ ingests (update_conn i f t) = ingests t
            /\ runpc (update_conn i f t) = runpc t).
  { intros i f t. unfold update_conn. by destruct (conns t !! i). }
  destruct snd as [|i], rcv as [|j]; simpl in *.
  - by destruct (runpc s).
  - destruct (Hu j (fun c => called CallUnpause (goto CUnlocking c)) s)
      as (-> & -> & -> & -> & _).
    by destruct (runpc s).
  - destruct (Hu i (goto CPaused) (set_runpc RAck s))
      as (-> & -> & -> & -> & ->). simpl.
    by destruct (runpc s).
  - destruct (Hu i (goto CPaused)
                (update_conn j (fun c => called CallUnpause (goto CUnlocking c)) s))
      as (-> & -> & -> & -> & ->).
    destruct (Hu j (fun c => called CallUnpause (goto CUnlocking c)) s)
      as (-> & -> & -> & -> & ->).
    done.
Qed.

Lemma step_inflight l s s' :
  step l s = Some s' ->
  inflight s' = inflight s ++ (if panicked s' then [] else fed_by l s).
Proof.
  unfold step. destruct (panicked s) eqn:Hp; [done|].
  unfold inflight. destruct l; simpl; intros Hstep.
  - unfold run_recv in Hstep. destruct (runpc s) eqn:Hrun; try done.
    destruct (gochan.recv _) as [msg c| |] eqn:Hrecv; simplify_eq; simpl.
    + apply recv_Received in Hrecv as (-> & _).
      rewrite ?Hp, ?app_nil_r; done.
    + apply recv_RecvClosed in Hrecv as (-> & _).
      rewrite ?Hp, ?app_nil_r; done.
  - unfold run_deliver in Hstep. destruct (runpc s) eqn:Hrun; try done.
    destruct (Agg.deliver msg (agg s)) as [a|] eqn:Hd; simplify_eq; simpl.
    + apply deliver_frame in Hd as (-> & _).
      rewrite ?Hp, ?app_nil_r, <- ?app_assoc; done.
    + rewrite Hrun, ?app_nil_r; done.
  - apply rendezvous_frame in Hstep as (-> & -> & -> & _ & -> & _).
    rewrite ?Hp, ?app_nil_r; done.
  - simplify_eq. simpl. rewrite ?Hp, ?app_nil_r; done.
  - destruct (conns s !! i) as [c|] eqn:Hi; simpl in Hstep; [|done].
    pose proof (conn_step_agg _ _ _ _ Hstep) as (-> & _ & -> & _).
    apply conn_step_conns in Hstep as (_ & _ & _ & _ & -> & ->); [|done].
    rewrite ?Hp, ?app_nil_r; done.
  - destruct (conns s !! i) as [c|] eqn:Hi; simpl in Hstep; [|done].
    pose proof (conn_fail_agg _ _ _ _ Hstep) as (-> & -> & _).
    apply conn_fail_conns in Hstep as (_ & _ & -> & ->).
    rewrite ?Hp, ?app_nil_r; done.
  - simplify_eq. simpl. rewrite ?Hp, ?app_nil_r; done.
  - simplify_eq. simpl. rewrite ?Hp, ?app_nil_r; done.
  - destruct (ingests s !! j) as [g|] eqn:Hj; simpl in Hstep; [|done].
    unfold ingest_step in Hstep. destruct (mid g) eqn:Hmid.
    + simplify_eq. simpl. rewrite ?Hp, ?app_nil_r; done.
    + destruct (pending g) as [|m rest] eqn:Hpend; [done|].
      destruct (feed (Some m) s) as [s1|] eqn:Hf; simpl in Hstep; [|done].
      apply feed_cases in Hf
        as [[-> _]|(Hp1 & _ & _ & Hb & _ & Hr & Ha & _)].
      * simplify_eq. simpl. rewrite ?app_nil_r; done.
      * rewrite Hp in Hp1. rewrite Hp1 in Hstep. simplify_eq. simpl.
        rewrite Hp1, Hb, Hr, Ha. by rewrite !app_assoc.
  - apply feed_cases in Hstep
      as [[-> _]|(Hp1 & _ & _ & Hb & _ & Hr & Ha & _)].
    + simpl. rewrite ?app_nil_r; done.
    + rewrite Hp in Hp1. rewrite Hp1, Hb, Hr, Ha. by rewrite !app_assoc.
  - simplify_eq. simpl. rewrite ?Hp, ?app_nil_r; done.
  - simplify_eq. simpl.
    rewrite (proj2 (setup_frame id n filters (agg s))).
    rewrite ?Hp, ?app_nil_r; done.
  - destruct (Agg.Shutdown (agg s)) as [a|] eqn:Ha; simplify_eq; simpl.
    + apply Shutdown_pmu in Ha as (_ & _ & ->).
      rewrite ?Hp, ?app_nil_r; done.
    + rewrite ?app_nil_r; done.
  - simplify_eq. simpl. rewrite ?Hp, ?app_nil_r; done.
Qed.

Lemma exec_not_panicked ls s s' :
  exec ls s = Some s' -> panicked s' = false -> panicked s = false.
Proof.
  destruct ls as [|l ls]; simpl.
  - by intros [= ->].
  - unfold step. by destruct (panicked s).
Qed.

End FlowFacts.

(** X1. The run loop hands the messages on in the order of their sends,
    losing and repeating none: along every execution that does not panic,
    the messages added to a buffer, followed by the one [run] holds and by
    those still queued on the inbound channel, are the messages already
    there followed by the messages sent on the channel, in the order of
    the sends. *)
Theorem run_keeps_the_order_of_Feed
    (ls : list Sched.Label) (s s' : Sched.State) :
  Sched.exec ls s = Some s' -> Sched.panicked s' = false ->
  Flow.inflight s' = Flow.inflight s ++ Flow.fed_along ls s.
Proof.
  revert s. induction ls as [|l ls IH]; intros s He Hp; simpl in *.
  - simplify_eq. by rewrite app_nil_r.
  - destruct (Sched.step l s) as [s1|] eqn:Hs; [|done]. simpl in He.
    pose proof (exec_not_panicked _ _ _ He Hp) as Hp1.
    rewrite (IH s1 He Hp), (step_inflight _ _ _ Hs), Hp1.
    by rewrite app_assoc.
Qed.

Lemma run_keeps_the_order_of_Feed_witness :
  Flow.inflight (default (Sched.init 8) (Sched.exec Flow.two_feeds (Sched.init 8)))
  = Flow.inflight (Sched.init 8) ++ [Some Sched.m1; Some Sched.m2].
Proof.
  apply (run_keeps_the_order_of_Feed Flow.two_feeds (Sched.init 8));
    vm_compute; reflexivity.
Defined.

(** ** What the buffers hold *)

Section BufferFacts.
Import Sched Flow.
Implicit Types (s : State) (l : Label).

Lemma filter_routed_snoc id (ms : list MsgPtr) m :
  List.filter (routed id) (ms ++ [Some m])
  = List.filter (routed id) ms
    ++ (if decide (rfc5424.AppName m = id) then [Some m] else []).
Proof.
  rewrite List.filter_app. simpl. by case_decide; case_bool_decide.
Qed.

Lemma Add_suffix m (b : ring.Buffer) :
  ring.messages (ring.Add m b) `suffix_of` ring.messages b ++ [m].
Proof. apply suffix_drop. Qed.

(** A step other than the three that touch the buffers. *)
Lemma step_buffers_frame l s s' :
  step l s = Some s' ->
  match l with
  | LRunDeliver | LFlush | LSubscribe _ _ _ => True
  | _ => Agg.buffers (agg s') = Agg.buffers (agg s) /\ adds s' = adds s
  end.
Proof.
  unfold step. destruct (panicked s); [done|].
  destruct l; simpl; intros Hstep; try done.
  - unfold run_recv in Hstep. destruct (runpc s); try done.
    destruct (gochan.recv _); by simplify_eq.
  - by apply rendezvous_frame in Hstep as (-> & -> & _).
  - by simplify_eq.
  - destruct (conns s !! i) as [c|] eqn:Hi; simpl in Hstep; [|done].
    pose proof (conn_step_agg _ _ _ _ Hstep) as (_ & -> & _).
    by apply conn_step_conns in Hstep as (_ & _ & _ & _ & _ & ->).
  - destruct (conns s !! i) as [c|] eqn:Hi; simpl in Hstep; [|done].
    pose proof (conn_fail_agg _ _ _ _ Hstep) as (-> & _).
    by apply conn_fail_conns in Hstep as (_ & _ & _ & ->).
  - by simplify_eq.
  - by simplify_eq.
  - destruct (ingests s !! j) as [g|]; simpl in Hstep; [|done].
    unfold ingest_step in Hstep. destruct (mid g); [by simplify_eq|].
    destruct (pending g); [done|].
    destruct (feed _ s) as [s1|] eqn:Hf; simpl in Hstep; [|done].
    apply feed_frame in Hf as (_ & _ & _ & Ha & _ & Hb & _). simplify_eq.
    by destruct (panicked s1).
  - apply feed_frame in Hstep. tauto.
  - destruct (Agg.Shutdown _) eqn:Ha; simplify_eq; [|done].
    apply Shutdown_pmu in Ha as (_ & Hb & _). simpl. by rewrite Hb.
  - by simplify_eq.
Qed.

Lemma step_buffers_inv l s s' :
  buffers_inv s -> step l s = Some s' -> buffers_inv s'.
Proof.
  intros Hinv Hstep. pose proof (step_buffers_frame _ _ _ Hstep) as Hf.
  unfold step in Hstep. destruct (panicked s); [done|].
  unfold buffers_inv in *.
  destruct l; simpl in Hstep, Hf;
    try (rewrite (proj1 Hf), (proj2 Hf); exact Hinv).
  - unfold run_deliver in Hstep. destruct (runpc s); try done.
    destruct (Agg.deliver msg (agg s)) as [a|] eqn:Hd; simplify_eq;
      [|exact Hinv].
    apply deliver_frame in Hd as (_ & _ & m & -> & Hb). simpl.
    intros id b. rewrite Hb, filter_routed_snoc.
    destruct (decide (rfc5424.AppName m = id)) as [<-|Hne].
    + rewrite lookup_insert_eq. intros [= <-].
      etrans; [apply Add_suffix|]. apply suffix_app.
      destruct (Agg.buffers (agg s) !! rfc5424.AppName m) as [b0|] eqn:Hb0;
        simpl; [by apply Hinv|apply suffix_nil].
    + rewrite lookup_insert_ne, app_nil_r by done. apply Hinv.
  - simplify_eq. simpl. intros id b. rewrite lookup_fmap.
    destruct (Agg.buffers (agg s) !! id); simpl; [|done].
    intros [= <-]. apply suffix_nil.
  - simplify_eq. simpl. intros id0 b. rewrite setup_buffers.
    destruct (decide (id = id0)) as [<-|Hne].
    + rewrite lookup_insert_eq. intros [= <-]. simpl.
      unfold Agg.buffered.
      destruct (Agg.buffers (agg s) !! id) as [b0|] eqn:Hb0;
        [by apply Hinv|apply suffix_nil].
    + rewrite lookup_insert_ne by done. apply Hinv.
Qed.

Lemma reachable_buffers_inv lim s : reachable lim s -> buffers_inv s.
Proof.
  apply reachable_ind_inv.
  - intros id b Hb. simpl in Hb. by rewrite lookup_empty in Hb.
  - intros l s1 s2. apply step_buffers_inv.
Qed.

Lemma deliver_Some m a : is_Some (Agg.deliver (Some m) a).
Proof.
  unfold Agg.deliver. simpl.
  by destruct (Agg.getOrInitializeBuffer (rfc5424.AppName m) a).
Qed.

Lemma step_run_recv_msg s m rest :
  panicked s = false -> runpc s = RSelect ->
  gochan.buf (Agg.msgc (agg s)) = m :: rest ->
  step LRunRecv s
  = Some (set_runpc (RDeliver m)
            (set_agg (Agg.set_msgc
                        (gochan.Chan rest (gochan.cap (Agg.msgc (agg s)))
                                     (gochan.closed (Agg.msgc (agg s))))
                        (agg s)) s)).
Proof.
  intros Hp Hrun Hbuf. unfold step. rewrite Hp. simpl.
  unfold run_recv, gochan.recv. by rewrite Hrun, Hbuf.
Qed.

Lemma step_run_recv_closed s :
  panicked s = false -> runpc s = RSelect ->
  gochan.buf (Agg.msgc (agg s)) = [] ->
  gochan.closed (Agg.msgc (agg s)) = true ->
  step LRunRecv s = Some (set_runpc RExit s).
Proof.
  intros Hp Hrun Hbuf Hcl. unfold step. rewrite Hp. simpl.
  unfold run_recv, gochan.recv. by rewrite Hrun, Hbuf, Hcl.
Qed.

Lemma step_run_deliver s m a :
  panicked s = false -> runpc s = RDeliver m ->
  Agg.deliver m (agg s) = Some a ->
  step LRunDeliver s = Some (log_add m (set_runpc RSelect (set_agg a s))).
Proof.
  intros Hp Hrun Hd. unfold step. rewrite Hp. simpl.
  unfold run_deliver. by rewrite Hrun, Hd.
Qed.

Lemma shutdown_drains (q : list rfc5424.Message) s :
  panicked s = false -> runpc s = RSelect ->
  gochan.closed (Agg.msgc (agg s)) = true ->
  gochan.buf (Agg.msgc (agg s)) = Some <$> q ->
  exists s',
    exec (drain_labels (length q)) s = Some s'
    /\ runpc s' = RExit /\ adds s' = adds s ++ (Some <$> q)
    /\ gochan.buf (Agg.msgc (agg s')) = [] /\ panicked s' = false.
Proof.
  revert s. induction q as [|m q IH]; intros s Hp Hrun Hcl Hbuf.
  - exists (set_runpc RExit s).
    cbn [drain_labels length exec].
    rewrite step_run_recv_closed by done. simpl. by rewrite app_nil_r.
  - cbn [drain_labels length exec].
    rewrite (step_run_recv_msg s (Some m) (Some <$> q)) by done.
    cbn [mbind option_bind].
    set (s1 := set_runpc _ _).
    destruct (deliver_Some m (agg s1)) as [a Ha].
    rewrite (step_run_deliver s1 (Some m) a) by done.
    cbn [mbind option_bind].
    apply deliver_frame in Ha as (Hm & _).
    destruct (IH (log_add (Some m) (set_runpc RSelect (set_agg a s1))))
      as (s' & He & Hr' & Ha' & Hb' & Hp'); simpl; try done.
    + by rewrite Hm.
    + by rewrite Hm.
    + exists s'. split; [done|]. split; [done|]. split; [|done].
      rewrite Ha'. simpl. by rewrite <- app_assoc.
Qed.

End BufferFacts.

(** X2. In every execution, each buffer of the aggregator holds only
    messages of its own application, none of them nil, and they are the
    latest of the messages the run loop added for that application, in the
    order in which it added them. *)
Theorem buffer_holds_latest_of_its_application
    (lim : nat) (s : Sched.State) (id : string) (b : ring.Buffer) :
  Sched.reachable lim s -> Agg.buffers (Sched.agg s) !! id = Some b ->
  ring.messages b `suffix_of` List.filter (Flow.routed id) (Sched.adds s)
  /\ Forall (fun msg => exists m, msg = Some m /\ rfc5424.AppName m = id)
            (ring.messages b).
Proof.
  intros Hr Hb. pose proof (reachable_buffers_inv _ _ Hr id b Hb) as Hs.
  split; [done|]. apply Forall_forall. intros msg Hin.
  destruct Hs as [k Hk].
  assert (Hin' : In msg (List.filter (Flow.routed id) (Sched.adds s))).
  { rewrite Hk. apply in_or_app. right. by apply list_elem_of_In. }
  apply List.filter_In in Hin' as [_ Hrt].
  destruct msg as [m|]; [|done]. exists m. split; [done|].
  unfold Flow.routed in Hrt. by case_bool_decide.
Qed.

Lemma buffer_holds_latest_of_its_application_witness :
  ring.messages
    (default ring.NewBuffer
       (Agg.buffers (Sched.agg Sched.duplicate_state) !! "web"))
    `suffix_of` List.filter (Flow.routed "web")
                  (Sched.adds Sched.duplicate_state).
Proof.
  refine (proj1 (buffer_holds_latest_of_its_application 8
                   Sched.duplicate_state "web" _ _ _)).
  - apply (exec_reachable 8 Sched.duplicate_schedule (Sched.init 8));
      [apply Sched.reach_init|vm_compute; reflexivity].
  - vm_compute; reflexivity.
Defined.

(** X3. [Shutdown] loses nothing that was already received: when the run
    loop is at its [select] and the inbound channel, still open, holds
    messages none of which is nil, then after [Shutdown] the run loop adds
    every one of them to a buffer, in order, and only then returns, leaving
    the channel empty; nothing panics. *)
Theorem Shutdown_drains_the_inbound_queue
    (q : list rfc5424.Message) (s : Sched.State) :
  Sched.panicked s = false -> Sched.runpc s = Sched.RSelect ->
  gochan.closed (Agg.msgc (Sched.agg s)) = false ->
  gochan.buf (Agg.msgc (Sched.agg s)) = Some <$> q ->
  exists s',
    Sched.exec (Sched.LShutdown :: Flow.drain_labels (length q)) s = Some s'
    /\ Sched.runpc s' = Sched.RExit
    /\ Sched.adds s' = Sched.adds s ++ (Some <$> q)
    /\ gochan.buf (Agg.msgc (Sched.agg s')) = []
    /\ Sched.panicked s' = false.
Proof.
  intros Hp Hrun Hcl Hbuf. cbn [Sched.exec].
  assert (Hs : Sched.step Sched.LShutdown s
               = Some (Sched.set_agg
                         (Agg.set_msgc
                            (gochan.Chan (gochan.buf (Agg.msgc (Sched.agg s)))
                               (gochan.cap (Agg.msgc (Sched.agg s))) true)
                            (Sched.agg s)) s)).
  { unfold Sched.step. rewrite Hp. simpl.
    unfold Agg.Shutdown, gochan.close. by rewrite Hcl. }
  rewrite Hs. cbn [mbind option_bind].
  match goal with |- context [Sched.exec _ ?t] =>
    destruct (shutdown_drains q t) as (s' & He & H) end; try done.
  by exists s'.
Qed.

Lemma Shutdown_drains_the_inbound_queue_witness :
  exists s',
    Sched.exec (Sched.LShutdown :: Flow.drain_labels 1)
               (default (Sched.init 8)
                  (Sched.exec [Sched.LFeed (Some Sched.m1)] (Sched.init 8)))
    = Some s'
    /\ Sched.runpc s' = Sched.RExit
    /\ Sched.adds s' = [Some Sched.m1].
Proof.
  destruct (Shutdown_drains_the_inbound_queue [Sched.m1]
              (default (Sched.init 8)
                 (Sched.exec [Sched.LFeed (Some Sched.m1)] (Sched.init 8))))
    as (s' & He & Hr & Ha & _); try (vm_compute; reflexivity).
  exists s'. split; [exact He|]. split; [exact Hr|exact Ha].
Defined.

(** ** After the run loop has returned; who holds the pause *)

Section PauseFacts.
Import Sched Flow.
Implicit Types (s : State) (l : Label) (c : Conn).

(** A step other than those of the run loop and of [pausec]. *)
Lemma step_run_frame l s s' :
  step l s = Some s' ->
  match l with
  | LRunRecv | LRunDeliver | LPausec _ _ => True
  | _ => runpc s' = runpc s /\ adds s' = adds s
  end.
Proof.
  unfold step. destruct (panicked s); [done|].
  destruct l; simpl; intros Hstep; try done; try (by simplify_eq).
  - destruct (conns s !! i) as [c|] eqn:Hi; simpl in Hstep; [|done].
    by apply conn_step_conns in Hstep as (_ & _ & _ & _ & -> & ->).
  - destruct (conns s !! i) as [c|] eqn:Hi; simpl in Hstep; [|done].
    by apply conn_fail_conns in Hstep as (_ & _ & -> & ->).
  - destruct (ingests s !! j) as [g|]; simpl in Hstep; [|done].
    unfold ingest_step in Hstep. destruct (mid g); [by simplify_eq|].
    destruct (pending g); [done|].
    destruct (feed _ s) as [s1|] eqn:Hf; simpl in Hstep; [|done].
    apply feed_frame in Hf as (_ & Hr & _ & Ha & _). simplify_eq.
    by destruct (panicked s1).
  - apply feed_frame in Hstep. tauto.
  - destruct (Agg.Shutdown _); by simplify_eq.
Qed.

Lemma step_msgc_frame l s s' :
  step l s = Some s' ->
  match l with
  | LRunRecv | LFeed _ | LIngest _ | LShutdown => True
  | _ => Agg.msgc (agg s') = Agg.msgc (agg s)
  end.
Proof.
  unfold step. destruct (panicked s); [done|].
  destruct l; simpl; intros Hstep; try done; try (by simplify_eq).
  - unfold run_deliver in Hstep. destruct (runpc s); try done.
    destruct (Agg.deliver msg (agg s)) as [a|] eqn:Hd; simplify_eq; [|done].
    apply deliver_frame in Hd as (Hx & _). simpl. by rewrite Hx.
  - by apply rendezvous_frame in Hstep as (-> & _).
  - destruct (conns s !! i) as [c|] eqn:Hi; simpl in Hstep; [|done].
    by apply conn_step_agg in Hstep as (-> & _).
  - destruct (conns s !! i) as [c|] eqn:Hi; simpl in Hstep; [|done].
    by apply conn_fail_agg in Hstep as (-> & _).
  - simplify_eq. simpl. apply setup_frame.
Qed.

Lemma step_exit_inv l s s' : exit_inv s -> step l s = Some s' -> exit_inv s'.
Proof.
  intros Hinv Hstep.
  pose proof (step_run_frame _ _ _ Hstep) as Hr.
  pose proof (step_msgc_frame _ _ _ Hstep) as Hm.
  unfold step in Hstep. destruct (panicked s); [done|].
  unfold exit_inv in *.
  destruct l; simpl in Hstep, Hr, Hm;
    try (rewrite (proj1 Hr), Hm; exact Hinv).
  - unfold run_recv in Hstep. destruct (runpc s) eqn:Hrun; try done.
    destruct (gochan.recv _) as [msg c| |] eqn:Hrecv; simplify_eq; simpl.
    + done.
    + intros _. by apply recv_RecvClosed in Hrecv as [? ?].
  - unfold run_deliver in Hstep. destruct (runpc s) eqn:Hrun; try done.
    destruct (Agg.deliver _ _); simplify_eq; simpl.
    + done.
    + by rewrite Hrun.
  - apply rendezvous_frame in Hstep as (-> & _ & _ & _ & _ & ->). exact Hinv.
  - destruct (ingests s !! j) as [g|]; simpl in Hstep; [|done].
    destruct Hr as [Hr _]. rewrite Hr. intros Hx. specialize (Hinv Hx).
    unfold ingest_step in Hstep. destruct (mid g); [by simplify_eq|].
    destruct (pending g); [done|].
    destruct (feed _ s) as [s1|] eqn:Hf; simpl in Hstep; [|done].
    apply feed_cases in Hf as [[-> _]|(_ & Hc & _)]; [|destruct Hinv; congruence].
    by simplify_eq.
  - destruct Hr as [Hr _]. rewrite Hr. intros Hx. specialize (Hinv Hx).
    apply feed_cases in Hstep as [[-> _]|(_ & Hc & _)];
      [done|destruct Hinv; congruence].
  - destruct Hr as [Hr _]. rewrite Hr. intros Hx. specialize (Hinv Hx).
    unfold Agg.Shutdown, gochan.close in Hstep.
    destruct Hinv as [Hc Hb]. rewrite Hc in Hstep. simpl in Hstep.
    by simplify_eq.
Qed.

Lemma reachable_exit_inv lim s : reachable lim s -> exit_inv s.
Proof.
  apply reachable_ind_inv; [done|]. intros l s1 s2. apply step_exit_inv.
Qed.

Lemma step_conns_lookup l s s' i c :
  step l s = Some s' -> conns s !! i = Some c ->
  exists c', conns s' !! i = Some c'.
Proof.
  intros Hstep Hi. apply lookup_lt_is_Some.
  apply lookup_lt_Some in Hi.
  assert (Hu : forall k f t, length (conns (update_conn k f t)) = length (conns t)).
  { intros k f t. unfold update_conn. destruct (conns t !! k); [|done].
    simpl. by rewrite length_insert. }
  pose proof (step_frame _ _ _ Hstep) as Hf.
  unfold step in Hstep. destruct (panicked s); [done|].
  destruct l; simpl in Hstep, Hf;
    try (by rewrite Hf); try (by rewrite (proj1 Hf)).
  - unfold rendezvous in Hstep. destruct (_ && _); simplify_eq.
    destruct snd, rcv; simpl; rewrite ?Hu; simpl; rewrite ?Hu; done.
  - simplify_eq. simpl. rewrite length_app. lia.
  - destruct (conns s !! i0) as [ck|] eqn:Hk; simpl in Hstep; [|done].
    apply conn_step_conns in Hstep as (ck' & -> & _); [|done].
    by rewrite length_insert.
  - destruct (conns s !! i0) as [ck|] eqn:Hk; simpl in Hstep; [|done].
    apply conn_fail_conns in Hstep as (-> & _).
    by rewrite length_insert.
Qed.

(** A step of connection [i] out of a state in which it holds [pmu]. *)
Lemma conn_step_holding i c s s' :
  conns s !! i = Some c -> holding c = true -> conn_step i c s = Some s' ->
  exists c', conns s' !! i = Some c' /\ runpc s' = runpc s
    /\ ((holding c' = true /\ paused c' = paused c
         /\ Agg.pmu (agg s') = Agg.pmu (agg s))
        \/ (pc c = CUnlocking /\ Agg.pmu (agg s') = false)).
Proof.
  intros Hi Hh Hstep. pose proof (lookup_lt_Some _ _ _ Hi) as Hlt.
  unfold conn_step in Hstep. unfold holding, paused in *.
  destruct (pc c) eqn:Hpc; try done; simplify_eq; simpl;
    rewrite list_lookup_insert_eq by done; eexists; (split; [done|]);
    (split; [done|]); simpl; rewrite ?Hpc; auto.
Qed.

Lemma step_owner_inv l s s' :
  mutex_inv s -> owner_inv s -> step l s = Some s' -> owner_inv s'.
Proof.
  intros Hm (Hpmu & Hack) Hstep. pose proof Hm as (H1 & H2 & H3).
  assert (Hkeep : forall i c, conns s !! i = Some c -> holding c = true ->
            exists c', conns s' !! i = Some c'
              /\ ((holding c' = true /\ (paused c = true -> runpc s' = RAck ->
                                         paused c' = true))
                  \/ (Agg.pmu (agg s') = false /\ paused c = false))).
  { intros i c Hi Hh.
    destruct (step_conns_lookup _ _ _ _ _ Hstep Hi) as [c' Hi'].
    exists c'. split; [done|].
    destruct (step_conn_cases _ _ _ _ _ _ Hm Hstep Hi Hi')
      as [->|[(_ & _ & Hq & -> & Hsel)|[(_ & _ & Hq & -> & _)
         |[(_ & Hc)|(_ & Hc)]]]].
    - left. done.
    - left. split; [done|]. intros _ Hx. congruence.
    - left. split; [done|]. unfold paused in *. by rewrite Hq.
    - destruct (conn_step_holding _ _ _ _ Hi Hh Hc)
        as (c'' & Hi'' & _ & [(Hh' & Hp' & _)|(Hq & Hmu)]); simplify_eq.
      + left. split; [done|]. intros Hp _. congruence.
      + right. split; [done|]. unfold paused. by rewrite Hq.
    - apply conn_fail_conns in Hc as (_ & [[rest Hq]|Hq] & _);
        unfold holding in Hh; by rewrite Hq in Hh. }
  pose proof (step_run_frame _ _ _ Hstep) as Hr.
  split.
  - intros Hmu'.
    destruct (Agg.pmu (agg s)) eqn:Hmu.
    + destruct (Hpmu eq_refl) as (i & c & Hi & Hh).
      destruct (Hkeep i c Hi Hh) as (c' & Hi' & [[Hh' _]|[Hf _]]);
        [by eauto|congruence].
    + (* the lock was taken by this step *)
      unfold step in Hstep. destruct (panicked s); [done|].
      destruct l; simpl in Hstep.
      * unfold run_recv in Hstep. destruct (runpc s); try done.
        destruct (gochan.recv _); simplify_eq; simpl in Hmu'; congruence.
      * unfold run_deliver in Hstep. destruct (runpc s); try done.
        destruct (Agg.deliver msg (agg s)) as [a|] eqn:Hd; simplify_eq;
          simpl in Hmu'; [|congruence].
        apply deliver_frame in Hd as (_ & Hx & _). congruence.
      * apply rendezvous_frame in Hstep as (Ha & _). congruence.
      * simplify_eq. simpl in Hmu'. congruence.
      * destruct (conns s !! i) as [c|] eqn:Hi; simpl in Hstep; [|done].
        pose proof (lookup_lt_Some _ _ _ Hi) as Hlt.
        unfold conn_step in Hstep.
        destruct (pc c) eqn:Hpc; try done; case_step Hstep; simplify_eq;
          simpl in Hmu'; try congruence.
        exists i. eexists. simpl. rewrite list_lookup_insert_eq by done.
        split; [done|]. done.
      * destruct (conns s !! i) as [c|] eqn:Hi; simpl in Hstep; [|done].
        apply conn_fail_agg in Hstep as (Ha & _). congruence.
      * simplify_eq. simpl in Hmu'. congruence.
      * simplify_eq. simpl in Hmu'. congruence.
      * destruct (ingests s !! j) as [g|]; simpl in Hstep; [|done].
        unfold ingest_step in Hstep.
        destruct (mid g); [simplify_eq; simpl in Hmu'; congruence|].
        destruct (pending g); [done|].
        destruct (feed _ s) as [s1|] eqn:Hf; simpl in Hstep; [|done].
        apply feed_frame in Hf as (_ & _ & _ & _ & Hx & _). simplify_eq.
        destruct (panicked s1); simpl in Hmu'; congruence.
      * apply feed_frame in Hstep as (_ & _ & _ & _ & Hx & _). congruence.
      * simplify_eq. simpl in Hmu'. congruence.
      * simplify_eq. simpl in Hmu'.
        rewrite (proj1 (setup_frame id n filters (agg s))) in Hmu'.
        congruence.
      * destruct (Agg.Shutdown _) eqn:Ha; simplify_eq; simpl in Hmu';
          [|congruence].
        apply Shutdown_pmu in Ha as (Hx & _). congruence.
      * simplify_eq. simpl in Hmu'. congruence.
  - intros Hack'.
    assert (Hdec : runpc s = RAck \/ runpc s <> RAck)
      by (destruct (runpc s); auto).
    destruct Hdec as [Hrun|Hrun].
    + destruct (Hack Hrun) as (i & c & Hi & Hp).
      destruct (Hkeep i c Hi (paused_holding _ Hp))
        as (c' & Hi' & [[_ Hp']|[_ Hf]]); [|congruence].
      exists i, c'. auto.
    + unfold step in Hstep. destruct (panicked s); [done|].
      destruct l; simpl in Hstep, Hr;
        try (pose proof (proj1 Hr); congruence).
      * unfold run_recv in Hstep. destruct (runpc s); try done.
        destruct (gochan.recv _); by simplify_eq.
      * unfold run_deliver in Hstep. destruct (runpc s) eqn:Hx; try done.
        destruct (Agg.deliver _ _); simplify_eq; simpl in Hack'; congruence.
      * destruct (rendezvous_cases _ _ _ _ Hm Hstep)
          as [(j & cj & _ & _ & _ & _ & _ & ->)
             |(j & cj & _ & _ & _ & Hj & Hpc & ->)]; [done|].
        pose proof (lookup_lt_Some _ _ _ Hj) as Hlt.
        exists j. eexists. simpl. rewrite list_lookup_insert_eq by done.
        split; [done|]. done.
Qed.

Lemma reachable_owner_inv lim s : reachable lim s -> owner_inv s.
Proof.
  intros Hr. induction Hr as [|l s s' Hr IH Hstep].
  - split; [done|done].
  - eapply step_owner_inv; [|done|done]. by eapply reachable_mutex_inv.
Qed.

Lemma step_conn_registered s i c :
  panicked s = false -> runpc s = RAck ->
  conns s !! i = Some c -> pc c = CRegistered ->
  step (LPausec PRun (PConn i)) s
  = Some (set_runpc RSelect
            (set_conn i (called CallUnpause (goto CUnlocking c)) s)).
Proof.
  intros Hp Hrun Hi Hpc. unfold step. rewrite Hp. simpl.
  unfold rendezvous, can_send, can_recv, conn_pc. rewrite Hrun, Hi. simpl.
  rewrite Hpc. simpl. unfold update_conn. by rewrite Hi.
Qed.

Lemma step_conn_copied s i c :
  panicked s = false -> conns s !! i = Some c -> pc c = CCopied ->
  step (LConn i) s
  = Some (set_conn i (called CallRegister (goto CRegistered c))
            (set_rep (Replicator.Register i (rep s)) s)).
Proof.
  intros Hp Hi Hpc. unfold step. rewrite Hp. simpl. rewrite Hi. simpl.
  unfold conn_step. by rewrite Hpc.
Qed.

Lemma step_conn_paused s i c :
  panicked s = false -> conns s !! i = Some c -> pc c = CPaused ->
  step (LConn i) s
  = Some (set_conn i
            (called CallCopyBuffers
               (mkConn CCopied (Agg.CopyBuffers (agg s)) (wire c) (calls c)))
            s).
Proof.
  intros Hp Hi Hpc. unfold step. rewrite Hp. simpl. rewrite Hi. simpl.
  unfold conn_step. by rewrite Hpc.
Qed.

End PauseFacts.

(** X4. Once the run loop has returned, which it does only on a closed and
    empty inbound channel, the aggregator is dead for good: in every
    execution, from then on the run loop stays returned, no message is
    ever added to a buffer, every [Feed] panics, and a connection that
    stands in [Pause] behind the lock of [pmu] stays there, so its [Pause]
    never returns. *)
Theorem nothing_runs_after_the_run_loop_returned
    (lim : nat) (s : Sched.State) :
  Sched.reachable lim s -> Sched.runpc s = Sched.RExit ->
  gochan.closed (Agg.msgc (Sched.agg s)) = true
  /\ gochan.buf (Agg.msgc (Sched.agg s)) = []
  /\ forall l s', Sched.step l s = Some s' ->
       Sched.runpc s' = Sched.RExit
       /\ Sched.adds s' = Sched.adds s
       /\ (forall m, l = Sched.LFeed m -> Sched.panicked s' = true)
       /\ (forall i c c',
             Sched.conns s !! i = Some c -> Sched.conns s' !! i = Some c' ->
             Sched.pc c = Sched.CLocked -> Sched.pc c' = Sched.CLocked).
Proof.
  intros Hr Hx.
  pose proof (reachable_exit_inv _ _ Hr Hx) as [Hc Hb].
  pose proof (reachable_mutex_inv _ _ Hr) as Hm.
  split; [done|]. split; [done|].
  intros l s' Hstep.
  assert (Hrun : Sched.runpc s' = Sched.RExit /\ Sched.adds s' = Sched.adds s).
  { pose proof (step_run_frame _ _ _ Hstep) as Hf.
    unfold Sched.step in Hstep. destruct (Sched.panicked s); [done|].
    destruct l; simpl in Hstep, Hf;
      try (split; [rewrite (proj1 Hf)|rewrite (proj2 Hf)]; done).
    - unfold Sched.run_recv in Hstep. by rewrite Hx in Hstep.
    - unfold Sched.run_deliver in Hstep. by rewrite Hx in Hstep.
    - apply rendezvous_frame in Hstep as (_ & -> & _ & _ & _ & Hiff).
      split; [by apply Hiff|done]. }
  split; [apply Hrun|]. split; [apply Hrun|]. split.
  - intros m ->. unfold Sched.step in Hstep.
    destruct (Sched.panicked s); [done|]. simpl in Hstep.
    apply feed_cases in Hstep as [[-> _]|(_ & Hc' & _)]; [done|congruence].
  - intros i c c' Hi Hi' Hpc.
    destruct (step_conn_cases _ _ _ _ _ _ Hm Hstep Hi Hi')
      as [->|[(_ & _ & Hq & _)|[(_ & Hsel & _)|[(_ & Hcs)|(_ & Hcs)]]]];
      try congruence.
    + unfold Sched.conn_step in Hcs. by rewrite Hpc in Hcs.
    + unfold Sched.conn_fail in Hcs. by rewrite Hpc in Hcs.
Qed.

Lemma nothing_runs_after_the_run_loop_returned_witness :
  Sched.panicked
    (default (Sched.init 8)
       (Sched.exec [Sched.LShutdown; Sched.LRunRecv;
                    Sched.LFeed (Some Sched.m1)] (Sched.init 8))) = true.
Proof.
  assert (Hr : Sched.reachable 8
                 (default (Sched.init 8)
                    (Sched.exec [Sched.LShutdown; Sched.LRunRecv]
                                (Sched.init 8)))).
  { apply (exec_reachable 8 [Sched.LShutdown; Sched.LRunRecv] (Sched.init 8));
      [apply Sched.reach_init|vm_compute; reflexivity]. }
  refine (proj1 (proj2 (proj2 (proj2 (proj2
            (nothing_runs_after_the_run_loop_returned 8 _ Hr _))
            (Sched.LFeed (Some Sched.m1)) _ _))) (Some Sched.m1) eq_refl);
    vm_compute; reflexivity.
Defined.

(** X5. A pause never wedges the run loop: in every execution, whenever
    the run loop waits at its acknowledgement there is a connection paused
    at [CopyBuffers], at [Register] or at the receive of its closure, and
    the steps of that connection alone, none of which is blocked, lead
    through the receive of the closure to a state in which the run loop is
    back at its [select]; no message was added meanwhile. *)
Theorem paused_connection_releases_the_run_loop
    (lim : nat) (s : Sched.State) :
  Sched.reachable lim s -> Sched.panicked s = false ->
  Sched.runpc s = Sched.RAck ->
  exists i c s' c',
    Sched.conns s !! i = Some c /\ Sched.paused c = true
    /\ Sched.exec (Flow.release_labels i (Sched.pc c)) s = Some s'
    /\ Sched.runpc s' = Sched.RSelect
    /\ Sched.adds s' = Sched.adds s
    /\ Sched.conns s' !! i = Some c' /\ Sched.pc c' = Sched.CUnlocking.
Proof.
  intros Hr Hp Hrun.
  destruct (reachable_owner_inv _ _ Hr) as [_ Hack].
  destruct (Hack Hrun) as (i & c & Hi & Hpa).
  pose proof (lookup_lt_Some _ _ _ Hi) as Hlt.
  exists i, c.
  assert (Hlast : forall t ct,
            Sched.panicked t = false -> Sched.runpc t = Sched.RAck ->
            Sched.conns t !! i = Some ct -> Sched.pc ct = Sched.CRegistered ->
            exists s' c',
              Sched.exec [Sched.LPausec Sched.PRun (Sched.PConn i)] t = Some s'
              /\ Sched.runpc s' = Sched.RSelect
              /\ Sched.adds s' = Sched.adds t
              /\ Sched.conns s' !! i = Some c'
              /\ Sched.pc c' = Sched.CUnlocking).
  { intros t ct Hpt Hrt Hit Hpct. cbn [Sched.exec].
    rewrite (step_conn_registered t i ct) by done. cbn [mbind option_bind].
    exists (Sched.set_runpc Sched.RSelect
              (Sched.set_conn i
                 (Sched.called Sched.CallUnpause
                    (Sched.goto Sched.CUnlocking ct)) t)),
           (Sched.called Sched.CallUnpause (Sched.goto Sched.CUnlocking ct)).
    split; [done|]. split; [done|]. split; [done|].
    split; [|reflexivity]. simpl.
    apply list_lookup_insert_eq. by eapply lookup_lt_Some. }
  pose proof Hpa as Hpa'. unfold Sched.paused in Hpa'.
  destruct (Sched.pc c) eqn:Hpc; try done; cbn [Flow.release_labels].
  - (* CPaused *)
    cbn [Sched.exec]. rewrite (step_conn_paused s i c) by done.
    cbn [mbind option_bind]. set (s1 := Sched.set_conn i _ s).
    assert (Hi1 : Sched.conns s1 !! i
                  = Some (Sched.called Sched.CallCopyBuffers
                            (Sched.mkConn Sched.CCopied
                               (Agg.CopyBuffers (Sched.agg s)) (Sched.wire c)
                               (Sched.calls c))))
      by (simpl; by apply list_lookup_insert_eq).
    rewrite (step_conn_copied s1 i _ Hp Hi1 eq_refl).
    cbn [mbind option_bind]. set (s2 := Sched.set_conn i _ _).
    destruct (Hlast s2 (Sched.called Sched.CallRegister
                          (Sched.goto Sched.CRegistered
                             (Sched.called Sched.CallCopyBuffers
                                (Sched.mkConn Sched.CCopied
                                   (Agg.CopyBuffers (Sched.agg s))
                                   (Sched.wire c) (Sched.calls c))))))
      as (s' & c' & He & Hr' & Ha' & Hc' & Hpc'); try done.
    { simpl. apply list_lookup_insert_eq. by rewrite length_insert. }
    exists s', c'. by rewrite Ha'.
  - (* CCopied *)
    cbn [Sched.exec]. rewrite (step_conn_copied s i c) by done.
    cbn [mbind option_bind]. set (s1 := Sched.set_conn i _ _).
    destruct (Hlast s1 (Sched.called Sched.CallRegister
                          (Sched.goto Sched.CRegistered c)))
      as (s' & c' & He & Hr' & Ha' & Hc' & Hpc'); try done.
    { simpl. by apply list_lookup_insert_eq. }
    exists s', c'. by rewrite Ha'.
  - (* CRegistered *)
    destruct (Hlast s c) as (s' & c' & He & Hr' & Ha' & Hc' & Hpc');
      try done.
    by exists s', c'.
Qed.

Lemma paused_connection_releases_the_run_loop_witness :
  exists i c s' c',
    Sched.conns Sched.paused_state !! i = Some c /\ Sched.paused c = true
    /\ Sched.exec (Flow.release_labels i (Sched.pc c)) Sched.paused_state
       = Some s'
    /\ Sched.runpc s' = Sched.RSelect
    /\ Sched.adds s' = Sched.adds Sched.paused_state
    /\ Sched.conns s' !! i = Some c' /\ Sched.pc c' = Sched.CUnlocking.
Proof.
  apply (paused_connection_releases_the_run_loop 8 Sched.paused_state).
  - apply (exec_reachable 8 Sched.paused_schedule (Sched.init 8));
      [apply Sched.reach_init|vm_compute; reflexivity].
  - vm_compute; reflexivity.
  - vm_compute; reflexivity.
Defined.

(** X6. The lock [pmu] never stays locked without an owner: in every
    execution, [pmu] is locked exactly when some connection is between the
    [Lock] of [Pause] and the [Unlock] of the closure [Pause] returned. *)
Theorem pmu_locked_iff_a_connection_holds_it (lim : nat) (s : Sched.State) :
  Sched.reachable lim s ->
  (Agg.pmu (Sched.agg s) = true
   <-> exists i c, Sched.conns s !! i = Some c /\ Sched.holding c = true).
Proof.
  intros Hr. split.
  - apply (reachable_owner_inv _ _ Hr).
  - intros (i & c & Hi & Hh).
    destruct (reachable_mutex_inv _ _ Hr) as (_ & H2 & _). by eapply H2.
Qed.

Lemma pmu_locked_iff_a_connection_holds_it_witness :
  Agg.pmu (Sched.agg Sched.duplicate_state) = true
  <-> exists i c, Sched.conns Sched.duplicate_state !! i = Some c
                  /\ Sched.holding c = true.
Proof.
  apply (pmu_locked_iff_a_connection_holds_it 8 Sched.duplicate_state).
  apply (exec_reachable 8 Sched.duplicate_schedule (Sched.init 8));
    [apply Sched.reach_init|vm_compute; reflexivity].
Defined.

(** ** The aggregator's readers, [Flush], and snapshots on disk *)

Section PersistFacts.
Import logfilter Agg Persist.
Implicit Types (a : Aggregator) (id : string) (n : Z).
Implicit Types (filters : list filter) (ms : list MsgPtr).

Lemma filterMessages_nil ms : filterMessages ms [] = ms.
Proof.
  unfold filterMessages, allFiltersMatch. simpl.
  induction ms as [|m ms IH]; simpl; [done|]. by rewrite IH.
Qed.

Lemma CopyBuffers_elem a ms :
  ms ∈ CopyBuffers a
  <-> exists id b, buffers a !! id = Some b /\ ms = ring.messages b.
Proof.
  unfold CopyBuffers. rewrite list_elem_of_fmap. split.
  - intros ([id b] & -> & Hin). apply elem_of_map_to_list in Hin.
    by exists id, b.
  - intros (id & b & Hb & ->). exists (id, b). split; [done|].
    by apply elem_of_map_to_list.
Qed.

Lemma all_nil_replicate {A} (l : list (list A)) :
  Forall (fun x => x = []) l -> l = replicate (length l) [].
Proof.
  induction 1 as [|x l -> _ IH]; simpl; [done|]. by rewrite <- IH.
Qed.

Lemma enqueued_nil a :
  gochan.closed (msgc a) = false -> enqueued [] a = a.
Proof.
  destruct a as [bs [q cp cl] mu]. unfold enqueued, set_msgc. simpl.
  intros ->. by rewrite app_nil_r.
Qed.

Lemma enqueued_app l1 l2 a :
  enqueued l2 (enqueued l1 a) = enqueued (l1 ++ l2) a.
Proof. unfold enqueued, set_msgc. simpl. by rewrite app_assoc. Qed.

Lemma Feed_enqueued m a :
  gochan.closed (msgc a) = false ->
  length (gochan.buf (msgc a)) < gochan.cap (msgc a) ->
  Feed m a = Enqueued (enqueued [m] a).
Proof.
  intros Hc Hlt. unfold Feed, gochan.send. rewrite Hc.
  rewrite decide_True by done. done.
Qed.

(** Feeding on an open channel: everything goes in while there is room. *)
Lemma feed_all_room frames a :
  gochan.closed (msgc a) = false ->
  length (gochan.buf (msgc a)) + length frames <= gochan.cap (msgc a) ->
  feed_all frames a = FedAll (enqueued frames a).
Proof.
  revert a. induction frames as [|m frames IH]; intros a Hc Hlen; simpl.
  - by rewrite enqueued_nil.
  - simpl in Hlen. rewrite Feed_enqueued by (done || lia).
    rewrite IH; simpl; try done.
    + by rewrite enqueued_app.
    + rewrite length_app. simpl. lia.
Qed.

Lemma feed_all_full frames a :
  gochan.closed (msgc a) = false ->
  length (gochan.buf (msgc a)) <= gochan.cap (msgc a) ->
  gochan.cap (msgc a) < length (gochan.buf (msgc a)) + length frames ->
  let room := gochan.cap (msgc a) - length (gochan.buf (msgc a)) in
  feed_all frames a
  = FeedAllBlocks (enqueued (take room frames) a) (drop room frames).
Proof.
  revert a. induction frames as [|m frames IH]; intros a Hc Hle Hlen room;
    simpl in *; [lia|].
  destruct (decide (length (gochan.buf (msgc a)) < gochan.cap (msgc a)))
    as [Hlt|Hge].
  - rewrite Feed_enqueued by done.
    rewrite IH; simpl; try done; rewrite ?length_app; simpl; try lia.
    rewrite enqueued_app.
    replace (gochan.cap (msgc a) - (length (gochan.buf (msgc a)) + 1))
      with (room - 1) by (subst room; lia).
    destruct room as [|r] eqn:Hr; [subst room; lia|].
    simpl. by rewrite Nat.sub_0_r.
  - unfold Feed, gochan.send. rewrite Hc, decide_False by done.
    replace room with 0 by (subst room; lia). simpl.
    by rewrite enqueued_nil.
Qed.

Lemma deliver_buffered m a :
  exists a',
    deliver (Some m) a = Some a'
    /\ msgc a' = msgc a /\ pmu a' = pmu a
    /\ buffers a'
       = <[rfc5424.AppName m :=
             ring.Add (Some m)
               (default ring.NewBuffer (buffers a !! rfc5424.AppName m))]>
           (buffers a).
Proof.
  destruct (deliver_Some m a) as [a' Ha]. exists a'. split; [done|].
  apply deliver_frame in Ha as (H1 & H2 & m' & [= <-] & H3). done.
Qed.

Lemma default_buffer_well_kept a id :
  well_kept a ->
  ring.capacity (default ring.NewBuffer (buffers a !! id))
  = ring.DefaultBufferCapacity
  /\ ring.messages (default ring.NewBuffer (buffers a !! id)) = buffered id a.
Proof.
  intros Hw. unfold buffered.
  destruct (buffers a !! id) as [b|] eqn:Hb; simpl; [|done].
  by destruct (Hw id b Hb) as (-> & _).
Qed.

Lemma routed_unique id id' msg :
  Flow.routed id msg = true -> Flow.routed id' msg = true -> id = id'.
Proof.
  unfold Flow.routed. destruct msg as [m|]; [|done].
  intros H1 H2. repeat case_bool_decide; congruence.
Qed.

Lemma filter_routed_all id ms :
  Forall (fun m => Flow.routed id m = true) ms ->
  List.filter (Flow.routed id) ms = ms.
Proof.
  induction 1 as [|m ms Hm _ IH]; simpl; [done|]. by rewrite Hm, IH.
Qed.

Lemma filter_routed_none id id' ms :
  id <> id' -> Forall (fun m => Flow.routed id' m = true) ms ->
  List.filter (Flow.routed id) ms = [].
Proof.
  intros Hne. induction 1 as [|m ms Hm _ IH]; simpl; [done|].
  destruct (Flow.routed id m) eqn:Hr; [|done].
  exfalso. apply Hne. by eapply routed_unique.
Qed.

(** Replaying [msgs], none nil, into buffers with room for them appends
    to each buffer the messages of its application. *)
Lemma replay_appends msgs a :
  well_kept a ->
  Forall (fun m => is_Some m) msgs ->
  (forall id, length (buffered id a)
              + length (List.filter (Flow.routed id) msgs)
              <= ring.DefaultBufferCapacity) ->
  exists a',
    replay msgs a = Some a' /\ well_kept a'
    /\ msgc a' = msgc a /\ pmu a' = pmu a
    /\ forall id, buffered id a'
                  = buffered id a ++ List.filter (Flow.routed id) msgs.
Proof.
  revert a. induction msgs as [|msg msgs IH]; intros a Hw Hsome Hroom.
  - exists a. split; [done|]. split; [done|]. split; [done|].
    split; [done|]. intros id. simpl. by rewrite app_nil_r.
  - apply Forall_cons in Hsome as [[m ->] Hsome]. cbn [replay].
    destruct (deliver_buffered m a) as (a1 & Hd & Hm & Hp & Hb).
    rewrite Hd. cbn [mbind option_bind].
    destruct (default_buffer_well_kept a (rfc5424.AppName m) Hw)
      as [Hcap Hmsgs].
    assert (Hadd : ring.messages
                     (ring.Add (Some m)
                        (default ring.NewBuffer
                           (buffers a !! rfc5424.AppName m)))
                   = buffered (rfc5424.AppName m) a ++ [Some m]).
    { unfold ring.Add. simpl. rewrite Hcap, Hmsgs.
      specialize (Hroom (rfc5424.AppName m)). simpl in Hroom.
      rewrite bool_decide_true in Hroom by done. simpl in Hroom.
      replace (S (length (buffered (rfc5424.AppName m) a))
               - ring.DefaultBufferCapacity) with 0 by lia.
      done. }
    assert (Hbuf1 : forall id,
              buffered id a1
              = buffered id a
                ++ (if Flow.routed id (Some m) then [Some m] else [])).
    { intros id. unfold buffered at 1. rewrite Hb. simpl.
      case_bool_decide as Hid.
      - subst id. rewrite lookup_insert_eq. done.
      - rewrite lookup_insert_ne by done. fold (buffered id a).
        by rewrite app_nil_r. }
    assert (Hw1 : well_kept a1).
    { intros id b. rewrite Hb.
      destruct (decide (rfc5424.AppName m = id)) as [<-|Hne].
      - rewrite lookup_insert_eq. intros [= <-].
        split; [done|]. rewrite Hadd. split.
        + specialize (Hroom (rfc5424.AppName m)). simpl in Hroom.
          rewrite bool_decide_true in Hroom by done. simpl in Hroom.
          rewrite length_app. simpl. lia.
        + apply Forall_app. split.
          * unfold buffered.
            destruct (buffers a !! rfc5424.AppName m) as [b0|] eqn:Hb0;
              [|done].
            by destruct (Hw _ _ Hb0) as (_ & _ & ?).
          * constructor; [|done]. simpl. by rewrite bool_decide_true.
      - rewrite lookup_insert_ne by done. apply Hw. }
    destruct (IH a1 Hw1 Hsome) as (a' & Hr & Hw' & Hm' & Hp' & Hb').
    { intros id. rewrite Hbuf1, length_app.
      specialize (Hroom id). cbn [List.filter] in Hroom.
      destruct (Flow.routed id (Some m)); simpl in *; lia. }
    exists a'. split; [done|]. split; [done|].
    split; [congruence|]. split; [congruence|].
    intros id. rewrite Hb', Hbuf1, <- app_assoc. simpl.
    by destruct (bool_decide (rfc5424.AppName m = id)).
Qed.

(** The messages of application [id] among those of a list of buffers
    with distinct keys. *)
Lemma filter_routed_buffers id (l : list (string * ring.Buffer)) :
  NoDup l.*1 ->
  (forall k b, (k, b) ∈ l ->
     Forall (fun m => Flow.routed k m = true) (ring.messages b)) ->
  (forall b, (id, b) ∈ l ->
     List.filter (Flow.routed id)
       (concat ((fun kv => ring.ReadAll (ring.Clone kv.2)) <$> l))
     = ring.messages b)
  /\ (id ∉ l.*1 ->
     List.filter (Flow.routed id)
       (concat ((fun kv => ring.ReadAll (ring.Clone kv.2)) <$> l)) = []).
Proof.
  induction l as [|[k b0] l IH]; intros Hnd Hall.
  - split; [|done]. intros b Hin. by apply elem_of_nil in Hin.
  - rewrite fmap_cons in Hnd. apply NoDup_cons in Hnd as [Hk Hnd].
    destruct IH as [IH1 IH2]; [done| |].
    { intros k' b' Hin. apply (Hall k' b'). by right. }
    rewrite !fmap_cons, concat_cons, List.filter_app.
    change (ring.ReadAll (ring.Clone (k, b0).2)) with (ring.messages b0).
    assert (Hb0 : Forall (fun m => Flow.routed k m = true) (ring.messages b0))
      by (apply Hall; left).
    split.
    + intros b Hin. apply elem_of_cons in Hin as [[= <- <-]|Hin].
      * rewrite filter_routed_all by done. rewrite IH2 by done.
        by rewrite app_nil_r.
      * assert (id <> k).
        { intros ->. apply Hk. apply list_elem_of_fmap. by exists (k, b). }
        rewrite (filter_routed_none id k) by done.
        rewrite app_nil_l. by apply IH1.
    + intros Hnin. apply not_elem_of_cons in Hnin as [Hne Hnin].
      rewrite (filter_routed_none id k) by done.
      rewrite app_nil_l. by apply IH2.
Qed.

Lemma CopyBuffers_filter a id :
  well_kept a ->
  List.filter (Flow.routed id) (concat (CopyBuffers a)) = buffered id a.
Proof.
  intros Hw. unfold CopyBuffers, buffered.
  destruct (filter_routed_buffers id (map_to_list (buffers a)))
    as [H1 H2].
  - apply NoDup_fst_map_to_list.
  - intros k b Hin. apply elem_of_map_to_list in Hin.
    by destruct (Hw k b Hin) as (_ & _ & ?).
  - destruct (buffers a !! id) as [b|] eqn:Hb.
    + apply H1. by apply elem_of_map_to_list.
    + apply H2. intros Hin. apply list_elem_of_fmap in Hin as ([k b] & -> & Hin).
      apply elem_of_map_to_list in Hin. simpl in Hb. congruence.
Qed.

Lemma CopyBuffers_Some a :
  well_kept a -> Forall (fun m => is_Some m) (concat (CopyBuffers a)).
Proof.
  intros Hw. apply Forall_concat, Forall_forall. intros ms Hin.
  apply CopyBuffers_elem in Hin as (id & b & Hb & ->).
  destruct (Hw id b Hb) as (_ & _ & Hr).
  eapply Forall_impl; [exact Hr|]. intros [m|]; simpl; [by eexists|done].
Qed.

End PersistFacts.

Section KeptFacts.
Import logfilter Agg Persist.
Implicit Types (a : Aggregator) (id : string) (n : Z).

Lemma well_kept_new : well_kept NewAggregator.
Proof. intros id b Hb. simpl in Hb. by rewrite lookup_empty in Hb. Qed.

Lemma Add_well_kept id m (b : ring.Buffer) :
  rfc5424.AppName m = id ->
  ring.capacity b = ring.DefaultBufferCapacity ->
  Forall (fun x => Flow.routed id x = true) (ring.messages b) ->
  ring.capacity (ring.Add (Some m) b) = ring.DefaultBufferCapacity
  /\ length (ring.messages (ring.Add (Some m) b))
     <= ring.DefaultBufferCapacity
  /\ Forall (fun x => Flow.routed id x = true)
            (ring.messages (ring.Add (Some m) b)).
Proof.
  intros Hid Hcap Hall. unfold ring.Add. cbn [ring.capacity ring.messages].
  split; [done|]. split.
  - rewrite length_drop, length_app, Hcap. cbn [length].
    assert (0 < ring.DefaultBufferCapacity)
      by (unfold ring.DefaultBufferCapacity; lia).
    lia.
  - apply Forall_drop, Forall_app. split; [done|].
    constructor; [|done]. simpl. by rewrite bool_decide_true.
Qed.

Lemma deliver_well_kept m a a' :
  well_kept a -> deliver (Some m) a = Some a' -> well_kept a'.
Proof.
  intros Hw Hd. destruct (deliver_buffered m a) as (a1 & Hd1 & _ & _ & Hb).
  rewrite Hd in Hd1. simplify_eq. intros id b. rewrite Hb.
  destruct (decide (rfc5424.AppName m = id)) as [<-|Hne].
  - rewrite lookup_insert_eq. intros [= <-].
    destruct (buffers a !! rfc5424.AppName m) as [b0|] eqn:Hb0;
      cbn [default].
    + destruct (Hw _ _ Hb0) as (Hc & _ & Hr). by apply Add_well_kept.
    + by apply Add_well_kept.
  - rewrite lookup_insert_ne by done. apply Hw.
Qed.

Lemma Flush_well_kept a : well_kept a -> well_kept (Flush a).
Proof.
  intros Hw id b. unfold Flush. cbn [buffers set_buffers].
  rewrite lookup_fmap.
  destruct (buffers a !! id) as [b0|] eqn:Hb0; simpl; [|done].
  intros [= <-]. destruct (Hw _ _ Hb0) as (Hc & _ & _).
  split; [done|]. split; [simpl; lia|done].
Qed.

Lemma setup_well_kept id n filters a :
  well_kept a -> well_kept (ReadLastNAndSubscribe_setup id n filters a).2.
Proof.
  intros Hw id0 b. rewrite setup_buffers.
  destruct (decide (id = id0)) as [<-|Hne].
  - rewrite lookup_insert_eq. intros [= <-]. simpl.
    unfold getOrInitializeBuffer, buffered.
    destruct (buffers a !! id) as [b0|] eqn:Hb0; simpl.
    + exact (Hw _ _ Hb0).
    + split; [done|]. split; [lia|done].
  - rewrite lookup_insert_ne by done. apply Hw.
Qed.

Lemma step_well_kept l s s' :
  well_kept (Sched.agg s) -> Sched.step l s = Some s' ->
  well_kept (Sched.agg s').
Proof.
  intros Hw Hstep. pose proof (step_buffers_frame _ _ _ Hstep) as Hf.
  assert (Hext : forall a1 a2, buffers a1 = buffers a2 ->
                               well_kept a2 -> well_kept a1).
  { intros a1 a2 He H2 id b. rewrite He. apply H2. }
  unfold Sched.step in Hstep. destruct (Sched.panicked s); [done|].
  destruct l; simpl in Hstep, Hf;
    try (apply (Hext _ _ (proj1 Hf)); exact Hw).
  - unfold Sched.run_deliver in Hstep. destruct (Sched.runpc s); try done.
    destruct (deliver msg (Sched.agg s)) as [a|] eqn:Hd; simplify_eq;
      [|exact Hw].
    simpl. destruct msg as [m|]; [|done]. by eapply deliver_well_kept.
  - simplify_eq. simpl. by apply Flush_well_kept.
  - simplify_eq. simpl. by apply setup_well_kept.
Qed.

Lemma reachable_well_kept lim s :
  Sched.reachable lim s -> well_kept (Sched.agg s).
Proof.
  apply (reachable_ind_inv (fun s => well_kept (Sched.agg s))).
  - apply well_kept_new.
  - intros l s1 s2. apply step_well_kept.
Qed.

Lemma CopyBuffers_length a : length (CopyBuffers a) = size (buffers a).
Proof.
  unfold CopyBuffers. by rewrite length_fmap, length_map_to_list.
Qed.

Lemma getOrInitializeBuffer_frame id a :
  msgc (getOrInitializeBuffer id a).2 = msgc a
  /\ pmu (getOrInitializeBuffer id a).2 = pmu a.
Proof.
  unfold getOrInitializeBuffer. by destruct (buffers a !! id).
Qed.

End KeptFacts.

(** X7. In every execution, [CopyBuffers] returns one slice per buffer of
    the map, each slice the messages of one buffer; the messages of an
    application in the copy are those of its buffer, in the buffer's
    order, and no message of the copy is nil. *)
Theorem CopyBuffers_is_the_content_of_the_buffers
    (lim : nat) (s : Sched.State) :
  Sched.reachable lim s ->
  length (Agg.CopyBuffers (Sched.agg s)) = size (Agg.buffers (Sched.agg s))
  /\ (forall ms,
        ms ∈ Agg.CopyBuffers (Sched.agg s)
        <-> exists id b, Agg.buffers (Sched.agg s) !! id = Some b
                         /\ ms = ring.ReadAll b)
  /\ (forall id,
        List.filter (Flow.routed id) (concat (Agg.CopyBuffers (Sched.agg s)))
        = Agg.buffered id (Sched.agg s))
  /\ Forall (fun m => is_Some m) (concat (Agg.CopyBuffers (Sched.agg s))).
Proof.
  intros Hr. pose proof (reachable_well_kept _ _ Hr) as Hw.
  split; [apply CopyBuffers_length|].
  split; [apply CopyBuffers_elem|].
  split; [intros id; by apply CopyBuffers_filter|by apply CopyBuffers_Some].
Qed.

Lemma CopyBuffers_is_the_content_of_the_buffers_witness :
  length (Agg.CopyBuffers (Sched.agg Sched.duplicate_state))
  = size (Agg.buffers (Sched.agg Sched.duplicate_state)).
Proof.
  refine (proj1 (CopyBuffers_is_the_content_of_the_buffers 8
                   Sched.duplicate_state _)).
  apply (exec_reachable 8 Sched.duplicate_schedule (Sched.init 8));
    [apply Sched.reach_init|vm_compute; reflexivity].
Defined.

(** X8. [Flush] keeps every buffer in the map, with its capacity and its
    subscribers, and leaves none of them a message: afterwards
    [CopyBuffers] returns as many empty slices as there are buffers and
    [ReadLastN] computes nothing, for any application, count and filters.
    [Flush] touches neither the inbound channel nor the pause lock, and a
    second [Flush] changes nothing. *)
Theorem Flush_empties_every_buffer (a : Agg.Aggregator) :
  (forall id, is_Some (Agg.buffers (Agg.Flush a) !! id)
              <-> is_Some (Agg.buffers a !! id))
  /\ (forall id b, Agg.buffers a !! id = Some b ->
        exists b', Agg.buffers (Agg.Flush a) !! id = Some b'
                   /\ ring.messages b' = []
                   /\ ring.capacity b' = ring.capacity b
                   /\ ring.subscribers b' = ring.subscribers b)
  /\ Agg.msgc (Agg.Flush a) = Agg.msgc a
  /\ Agg.pmu (Agg.Flush a) = Agg.pmu a
  /\ Agg.CopyBuffers (Agg.Flush a) = replicate (size (Agg.buffers a)) []
  /\ (forall id n filters,
        Agg.ReadLastN_messages id n filters (Agg.Flush a) = [])
  /\ Agg.Flush (Agg.Flush a) = Agg.Flush a.
Proof.
  split; [|split; [|split; [|split; [|split; [|split]]]]].
  - intros id. unfold Agg.Flush. cbn [Agg.buffers Agg.set_buffers].
    rewrite lookup_fmap. by rewrite fmap_is_Some.
  - intros id b Hb. unfold Agg.Flush. cbn [Agg.buffers Agg.set_buffers].
    rewrite lookup_fmap, Hb. by eexists.
  - done.
  - done.
  - rewrite <- (map_size_fmap ring.Flush).
    change (ring.Flush <$> Agg.buffers a) with (Agg.buffers (Agg.Flush a)).
    rewrite <- CopyBuffers_length.
    apply all_nil_replicate, Forall_forall. intros ms Hin.
    apply CopyBuffers_elem in Hin as (id & b & Hb & ->).
    unfold Agg.Flush in Hb. cbn [Agg.buffers Agg.set_buffers] in Hb.
    rewrite lookup_fmap in Hb.
    destruct (Agg.buffers a !! id); simpl in Hb; by simplify_eq.
  - intros id n filters.
    assert (Hn : forall k, Agg.readLastN id k (Agg.Flush a) = []).
    { intros k. destruct (Z.le_gt_cases 0 k).
      - rewrite readLastN_nonneg by done. by rewrite Flush_discards.
      - rewrite readLastN_negative by lia. apply Flush_discards. }
    unfold Agg.ReadLastN_messages. rewrite !Hn.
    destruct (Nat.eqb _ _); [done|]. apply truncate_nil.
  - unfold Agg.Flush, Agg.set_buffers. simpl. f_equal.
    rewrite <- map_fmap_compose. apply map_fmap_ext. by intros id [c ms k].
Qed.

Lemma Flush_empties_every_buffer_witness :
  exists b',
    Agg.buffers (Agg.Flush Persist.two_apps) !! "web" = Some b'
    /\ ring.messages b' = [].
Proof.
  destruct (proj1 (proj2 (Flush_empties_every_buffer Persist.two_apps))
              "web"
              (default ring.NewBuffer
                 (Agg.buffers Persist.two_apps !! "web")))
    as (b' & H1 & H2 & _); [vm_compute; reflexivity|].
  exists b'. split; [exact H1|exact H2].
Defined.

(** X9. In every execution, every buffer of the aggregator has the
    capacity [getOrInitializeBuffer] gave it, and never holds more
    messages than that. *)
Theorem buffers_never_exceed_their_capacity
    (lim : nat) (s : Sched.State) (id : string) (b : ring.Buffer) :
  Sched.reachable lim s -> Agg.buffers (Sched.agg s) !! id = Some b ->
  ring.capacity b = ring.DefaultBufferCapacity
  /\ length (ring.ReadAll b) <= ring.DefaultBufferCapacity.
Proof.
  intros Hr Hb.
  by destruct (reachable_well_kept _ _ Hr id b Hb) as (? & ? & _).
Qed.

Lemma buffers_never_exceed_their_capacity_witness :
  ring.capacity
    (default ring.NewBuffer
       (Agg.buffers (Sched.agg Sched.duplicate_state) !! "web"))
  = ring.DefaultBufferCapacity.
Proof.
  refine (proj1 (buffers_never_exceed_their_capacity 8
                   Sched.duplicate_state "web" _ _ _)).
  - apply (exec_reachable 8 Sched.duplicate_schedule (Sched.init 8));
      [apply Sched.reach_init|vm_compute; reflexivity].
  - vm_compute; reflexivity.
Defined.

(** X10. A snapshot restores the buffers: the frames [WriteSnapshot]
    writes for the aggregator of any execution, when no write fails, are
    the messages of [CopyBuffers]; the run loop of a new aggregator that
    is fed these frames in order adds every one of them without a panic,
    and ends with, for every application, the messages the first
    aggregator held, in the same order. *)
Theorem snapshot_restores_the_buffers (lim : nat) (s : Sched.State) :
  Sched.reachable lim s ->
  Persist.WriteSnapshot true None (Sched.agg s)
  = (concat (Agg.CopyBuffers (Sched.agg s)), false)
  /\ exists a',
       Persist.replay (Persist.WriteSnapshot true None (Sched.agg s)).1
                      Agg.NewAggregator = Some a'
       /\ forall id, Agg.buffered id a' = Agg.buffered id (Sched.agg s).
Proof.
  intros Hr. pose proof (reachable_well_kept _ _ Hr) as Hw.
  split; [done|]. cbn [Persist.WriteSnapshot Persist.WriteTo fst].
  destruct (replay_appends (concat (Agg.CopyBuffers (Sched.agg s)))
              Agg.NewAggregator) as (a' & Hrep & _ & _ & _ & Hb).
  - apply well_kept_new.
  - by apply CopyBuffers_Some.
  - intros id. rewrite CopyBuffers_filter by done.
    unfold Agg.buffered at 1. simpl. rewrite lookup_empty. simpl.
    unfold Agg.buffered.
    destruct (Agg.buffers (Sched.agg s) !! id) as [b|] eqn:Hid;
      [|simpl; lia].
    by destruct (Hw id b Hid) as (_ & ? & _).
  - exists a'. split; [done|]. intros id. rewrite Hb.
    rewrite CopyBuffers_filter by done.
    unfold Agg.buffered at 1. simpl. by rewrite lookup_empty.
Qed.

Lemma snapshot_restores_the_buffers_witness :
  Persist.WriteSnapshot true None (Sched.agg Sched.duplicate_state)
  = (concat (Agg.CopyBuffers (Sched.agg Sched.duplicate_state)), false).
Proof.
  refine (proj1 (snapshot_restores_the_buffers 8 Sched.duplicate_state _)).
  apply (exec_reachable 8 Sched.duplicate_schedule (Sched.init 8));
    [apply Sched.reach_init|vm_compute; reflexivity].
Defined.

(** X11. [LoadSnapshot] returns nil for a file that does not exist and
    the error for one it cannot open, feeding nothing. For a file it can
    open, with the inbound channel open, it feeds the frames in the order
    of the file: all of them when the channel has room, and then it
    returns the error of the scanner; otherwise as many as there is room
    for, and then it waits in [Feed] with the rest. On a closed inbound
    channel the first frame makes it panic. *)
Theorem LoadSnapshot_feeds_the_frames_in_order
    (frames : list MsgPtr) (scan_err : bool) (a : Agg.Aggregator) :
  length (gochan.buf (Agg.msgc a)) <= gochan.cap (Agg.msgc a) ->
  Persist.LoadSnapshot Persist.NotExist a = Persist.LoadReturns false a
  /\ Persist.LoadSnapshot Persist.OpenFailed a = Persist.LoadReturns true a
  /\ (gochan.closed (Agg.msgc a) = false ->
      let room := gochan.cap (Agg.msgc a) - length (gochan.buf (Agg.msgc a)) in
      Persist.LoadSnapshot (Persist.Opened frames scan_err) a
      = if decide (length frames <= room)
        then Persist.LoadReturns scan_err (Persist.enqueued frames a)
        else Persist.LoadBlocks (Persist.enqueued (take room frames) a)
                                (drop room frames))
  /\ (gochan.closed (Agg.msgc a) = true -> frames <> [] ->
      Persist.LoadSnapshot (Persist.Opened frames scan_err) a
      = Persist.LoadPanics).
Proof.
  intros Hle. split; [done|]. split; [done|]. split.
  - intros Hc room. unfold Persist.LoadSnapshot. case_decide as Hroom.
    + rewrite feed_all_room; [done|done|]. subst room. lia.
    + rewrite feed_all_full; [done|done|done|]. subst room. lia.
  - intros Hc Hne. destruct frames as [|m frames]; [done|].
    unfold Persist.LoadSnapshot. simpl.
    unfold Agg.Feed, gochan.send. by rewrite Hc.
Qed.

Lemma LoadSnapshot_feeds_the_frames_in_order_witness :
  Persist.LoadSnapshot (Persist.Opened [Some Sched.m1; Some Sched.m2] false)
                       Agg.NewAggregator
  = Persist.LoadReturns false
      (Persist.enqueued [Some Sched.m1; Some Sched.m2] Agg.NewAggregator).
Proof.
  refine (proj1 (proj2 (proj2
            (LoadSnapshot_feeds_the_frames_in_order
               [Some Sched.m1; Some Sched.m2] false Agg.NewAggregator _)))
            _).
  - cbn. lia.
  - reflexivity.
Defined.

(** X12. [getOrInitializeBuffer] returns the buffer the map holds for
    [id] once it is done: the one that was there, leaving the aggregator
    as it was, or a new empty buffer when there was none. It touches no
    other buffer, nor the inbound channel, nor the pause lock, and a
    second call returns the same buffer and changes nothing. *)
Theorem getOrInitializeBuffer_returns_the_buffer_of_the_map
    (id : string) (a : Agg.Aggregator) :
  let buf := (Agg.getOrInitializeBuffer id a).1 in
  let a1 := (Agg.getOrInitializeBuffer id a).2 in
  Agg.getBuffer id a1 = Some buf
  /\ (Agg.getBuffer id a = None -> buf = ring.NewBuffer)
  /\ (forall b, Agg.getBuffer id a = Some b -> buf = b /\ a1 = a)
  /\ (forall id', id' <> id -> Agg.getBuffer id' a1 = Agg.getBuffer id' a)
  /\ Agg.msgc a1 = Agg.msgc a /\ Agg.pmu a1 = Agg.pmu a
  /\ Agg.getOrInitializeBuffer id a1 = (buf, a1).
Proof.
  intros buf a1. subst buf a1. unfold Agg.getBuffer.
  split; [apply getOrInitializeBuffer_lookup|].
  split; [|split; [|split; [|split; [|split]]]].
  - intros Hn. unfold Agg.getOrInitializeBuffer. by rewrite Hn.
  - intros b Hb. unfold Agg.getOrInitializeBuffer. by rewrite Hb.
  - intros id' Hne. by apply getOrInitializeBuffer_other.
  - apply getOrInitializeBuffer_frame.
  - apply getOrInitializeBuffer_frame.
  - pose proof (getOrInitializeBuffer_lookup id a) as Hl.
    destruct (Agg.getOrInitializeBuffer id a) as [buf a1]. simpl in *.
    unfold Agg.getOrInitializeBuffer. by rewrite Hl.
Qed.

Lemma getOrInitializeBuffer_returns_the_buffer_of_the_map_witness :
  (Agg.getOrInitializeBuffer "web" Agg.NewAggregator).1 = ring.NewBuffer.
Proof.
  apply (proj1 (proj2 (getOrInitializeBuffer_returns_the_buffer_of_the_map
                         "web" Agg.NewAggregator))).
  reflexivity.
Defined.

(** X13. The history [ReadLastNAndSubscribe] delivers is the list
    [ReadLastN] delivers for the same arguments, whenever there are no
    filters or [n] is not zero. With filters and [n = 0] the two differ:
    [ReadLastNAndSubscribe] delivers no history, while [ReadLastN]
    delivers every buffered message that matches. *)
Theorem ReadLastNAndSubscribe_history_and_ReadLastN
    (id : string) (n : Z) (filters : list logfilter.filter)
    (a : Agg.Aggregator) :
  ((filters = [] \/ n <> 0%Z) ->
     (Agg.ReadLastNAndSubscribe_setup id n filters a).1.1
     = Agg.ReadLastN_messages id n filters a)
  /\ (filters <> [] -> n = 0%Z ->
     (Agg.ReadLastNAndSubscribe_setup id n filters a).1.1 = []
     /\ Agg.ReadLastN_messages id n filters a
        = logfilter.filterMessages (Agg.buffered id a) filters).
Proof.
  rewrite setup_history. split.
  - intros [->|Hn].
    + unfold Agg.ReadLastN_messages. simpl.
      destruct (n <? 0)%Z eqn:Hlt.
      * rewrite readLastN_negative by lia. done.
      * rewrite readLastN_nonneg by lia. done.
    + destruct filters as [|f filters].
      * unfold Agg.ReadLastN_messages. simpl.
        destruct (n <? 0)%Z eqn:Hlt.
        -- rewrite readLastN_negative by lia. done.
        -- rewrite readLastN_nonneg by lia. done.
      * rewrite ReadLastN_messages_filtered by done.
        cbn [length Nat.ltb Nat.leb andb orb].
        assert ((n =? 0)%Z = false) as -> by lia. done.
  - intros Hf ->. rewrite ReadLastN_messages_filtered by done.
    rewrite filters_nonempty_ltb by done. simpl.
    rewrite drop_ge by lia.
    split; [apply truncate_nil|by apply truncate_nonpositive].
Qed.

Lemma ReadLastNAndSubscribe_history_and_ReadLastN_witness :
  (Agg.ReadLastNAndSubscribe_setup "web" 0 [fun _ => true]
     Persist.two_apps).1.1 = []
  /\ Agg.ReadLastN_messages "web" 0 [fun _ => true] Persist.two_apps
     = logfilter.filterMessages (Agg.buffered "web" Persist.two_apps)
                                [fun _ => true].
Proof.
  apply (proj2 (ReadLastNAndSubscribe_history_and_ReadLastN
                  "web" 0 [fun _ => true] Persist.two_apps));
    [discriminate|reflexivity].
Defined.

(** ** The stream of [ReadLastNAndSubscribe], along an execution *)

(** X14. The stream of [ReadLastNAndSubscribe] is the history, then the
    live messages: whatever the ring buffer, the consumer and [done] do,
    what the consumer has received is a prefix of the history followed by
    those of the first messages received from the subscriber channel that
    match every filter, in the order received; nothing received from the
    subscriber channel is delivered before the whole history, and at most
    the last message received is still to be delivered. While the
    goroutine waits at its outer [select], everything is delivered. *)
Theorem stream_is_history_then_matching_live_messages
    (filters : list logfilter.filter) (ls : list Query.Label)
    (msgs : list MsgPtr) (sub : gochan.chan MsgPtr) (p : Query.Producer) :
  Query.run true filters ls (Query.start true msgs sub) = Some p ->
  let rcv := Stream.along Stream.took true filters ls
               (Query.start true msgs sub) in
  exists h r,
    Query.out p = h ++ logfilter.filterMessages r filters
    /\ h `prefix_of` msgs /\ r `prefix_of` rcv
    /\ length rcv <= S (length r)
    /\ (rcv <> [] -> h = msgs)
    /\ (Query.phase p = Query.Live -> h = msgs /\ r = rcv).
Proof.
  intros Hrun rcv.
  pose proof (run_live_inv filters msgs [] ls _ p
                (start_live_inv filters msgs sub) Hrun) as Hinv.
  rewrite app_nil_l in Hinv. fold rcv in Hinv. clearbody rcv.
  unfold Stream.live_inv in Hinv.
  destruct (Query.phase p) eqn:Hp.
  - destruct Hinv as (<- & _ & ->). exists (Query.out p), [].
    split; [by rewrite app_nil_r|]. split; [by exists rest|].
    split; [done|]. split; [simpl; lia|]. done.
  - exists msgs, rcv. split; [done|]. split; [done|]. split; [done|].
    split; [lia|]. done.
  - destruct Hinv as (r & -> & _ & Ho). exists msgs, r.
    split; [done|]. split; [done|]. split; [by exists [msg]|].
    split; [rewrite length_app; simpl; lia|]. done.
  - destruct Hinv as [[-> Hpre]|(r & Hr & Hlen & Ho)].
    + exists (Query.out p), []. split; [by rewrite app_nil_r|].
      split; [done|]. split; [done|]. split; [simpl; lia|]. done.
    + exists msgs, r. split; [done|]. split; [done|]. split; [done|].
      split; [done|]. done.
Qed.

Lemma stream_is_history_then_matching_live_messages_witness :
  exists h r,
    Query.out (default (Query.start true [Some Sched.m1] (gochan.make 4))
                 (Query.run true [] Stream.two_live
                    (Query.start true [Some Sched.m1] (gochan.make 4))))
    = h ++ logfilter.filterMessages r []
    /\ h `prefix_of` [Some Sched.m1]
    /\ r `prefix_of` [Some Sched.m2; Some Sched.m3].
Proof.
  destruct (stream_is_history_then_matching_live_messages
              [] Stream.two_live [Some Sched.m1] (gochan.make 4)
              (default (Query.start true [Some Sched.m1] (gochan.make 4))
                 (Query.run true [] Stream.two_live
                    (Query.start true [Some Sched.m1] (gochan.make 4)))))
    as (h & r & Ho & Hh & Hr & _); [vm_compute; reflexivity|].
  exists h, r. split; [exact Ho|]. split; [exact Hh|exact Hr].
Defined.

(** X15. The goroutine of [ReadLastNAndSubscribe] takes the messages from
    the subscriber channel in the order the ring buffer queued them,
    skipping none: what it has received, with what is still queued, is
    what was queued. Only after the channel was closed and drained does it
    receive anything else, one nil for each receive. *)
Theorem live_messages_are_received_in_the_order_queued
    (subscribe : bool) (filters : list logfilter.filter)
    (ls : list Query.Label) (msgs : list MsgPtr)
    (sub : gochan.chan MsgPtr) (p : Query.Producer) :
  Query.run subscribe filters ls (Query.start subscribe msgs sub) = Some p ->
  exists k,
    Stream.along Stream.took subscribe filters ls
      (Query.start subscribe msgs sub)
    ++ gochan.buf (Query.subc p)
    = gochan.buf sub
      ++ Stream.along Stream.put subscribe filters ls
           (Query.start subscribe msgs sub)
      ++ replicate k None
    /\ (k <> 0 -> gochan.closed (Query.subc p) = true
                  /\ gochan.buf (Query.subc p) = []).
Proof.
  intros Hrun.
  assert (H0 : Stream.fifo_inv (gochan.buf sub) [] []
                 (Query.start subscribe msgs sub)).
  { exists 0. simpl. by rewrite app_nil_r. }
  exact (run_fifo_inv _ _ _ _ _ _ _ _ H0 Hrun).
Qed.

Lemma live_messages_are_received_in_the_order_queued_witness :
  exists k,
    Stream.along Stream.took true [] Stream.two_live
      (Query.start true [Some Sched.m1] (gochan.make 4))
    ++ gochan.buf
         (Query.subc
            (default (Query.start true [Some Sched.m1] (gochan.make 4))
               (Query.run true [] Stream.two_live
                  (Query.start true [Some Sched.m1] (gochan.make 4)))))
    = gochan.buf (gochan.make 4)
      ++ Stream.along Stream.put true [] Stream.two_live
           (Query.start true [Some Sched.m1] (gochan.make 4))
      ++ replicate k None.
Proof.
  destruct (live_messages_are_received_in_the_order_queued
              true [] Stream.two_live [Some Sched.m1] (gochan.make 4)
              (default (Query.start true [Some Sched.m1] (gochan.make 4))
                 (Query.run true [] Stream.two_live
                    (Query.start true [Some Sched.m1] (gochan.make 4)))))
    as (k & Hk & _); [vm_compute; reflexivity|].
  exists k. exact Hk.
Defined.

(** ** The role controller, over all its events *)

Section ControllerFacts.
Import Role Controller.
Implicit Types (s : Server) (m : Monitor).

Lemma same_core_refl s : same_core s s.
Proof. done. Qed.

Lemma same_core_trans s1 s2 s3 :
  same_core s1 s2 -> same_core s2 s3 -> same_core s1 s3.
Proof.
  unfold same_core. intros (-> & -> & ->) (-> & -> & ->). done.
Qed.

Lemma follow_tidy dial_ok addr s :
  (forall i, chans s !! i <> Some false) ->
  tidy false (mkMonitor (follow dial_ok addr s).2
                        (follow dial_ok addr s).1.1)
  /\ same_core s (follow dial_ok addr s).2
  /\ (follow dial_ok addr s).1.2 = negb dial_ok.
Proof.
  intros Hall. destruct dial_ok.
  - rewrite follow_dialled. simpl. split; [|done]. split.
    + intros i Hi. apply lookup_snoc_Some in Hi as [[_ Hi]|[-> _]].
      * by apply Hall in Hi.
      * done.
    + intros _ c [= <-]. by apply list_lookup_middle.
  - rewrite follow_failed. simpl. split; [|done]. split.
    + intros i Hi. by apply Hall in Hi.
    + done.
Qed.

Lemma closed_all m :
  tidy false m ->
  forall i,
    chans match unfollowc m with
          | Some c =>
              mkServer (agg (srv m)) (self (srv m))
                       (<[c := true]> (chans (srv m)))
                       (decoders (srv m)) (trace (srv m) ++ [EClose c])
          | None => srv m
          end !! i <> Some false.
Proof.
  intros [H1 H2] i Hi. destruct (unfollowc m) as [c|] eqn:Hu; simpl in Hi.
  - destruct (decide (i = c)) as [->|Hne].
    + rewrite list_lookup_insert_eq in Hi; [done|].
      eapply lookup_lt_Some, H2; done.
    + rewrite list_lookup_insert_ne in Hi by done.
      destruct (H1 i Hi) as [_ ?]. congruence.
  - by destruct (H1 i Hi).
Qed.

Lemma on_event_tidy dial_ok event m :
  tidy false m ->
  exists m' returned,
    on_event dial_ok event m = Some (m', returned)
    /\ tidy returned m' /\ same_core (srv m) (srv m').
Proof.
  intros Ht. destruct (Kind event) eqn:Hk;
    try (exists m, false; unfold on_event; rewrite Hk; done).
  rewrite on_event_leader by (done || exact (proj2 Ht eq_refl)).
  pose proof (closed_all m Ht) as Hall.
  set (s1 := match unfollowc m with Some c => _ | None => _ end) in *.
  assert (Hs1 : same_core (srv m) s1).
  { subst s1. by destruct (unfollowc m). }
  destruct (String.eqb (Addr event) (self (srv m))).
  - eexists _, true. split; [done|]. split; [|done].
    split; [|done]. intros i Hi. simpl in Hi. by apply Hall in Hi.
  - eexists _, false. split; [done|].
    destruct (follow_tidy dial_ok (Addr event) s1 Hall) as (Hf & Hc & _).
    split.
    + destruct Hf as [H1 H2]. split; simpl in *; done.
    + eapply same_core_trans; [exact Hs1|]. exact Hc.
Qed.

Lemma monitor_loop_tidy events m :
  tidy false m ->
  exists m' returned,
    monitor_loop events m = Some (m', returned)
    /\ tidy returned m' /\ same_core (srv m) (srv m').
Proof.
  revert m. induction events as [|[event dial_ok] events IH]; intros m Ht.
  - by exists m, false.
  - destruct (on_event_tidy dial_ok event m Ht)
      as (m1 & r & He & Ht1 & Hc1).
    simpl. rewrite He. destruct r.
    + by exists m1, true.
    + destruct (IH m1 Ht1) as (m' & r' & Hl & Ht' & Hc').
      exists m', r'. split; [done|]. split; [done|].
      by eapply same_core_trans.
Qed.

Lemma monitor_start_tidy leader dial_ok s :
  (forall i, chans s !! i <> Some false) ->
  tidy (monitor_start leader dial_ok s).2 (monitor_start leader dial_ok s).1
  /\ same_core s (srv (monitor_start leader dial_ok s).1).
Proof.
  intros Hall. unfold monitor_start. destruct leader as [addr|]; simpl.
  - destruct (String.eqb addr (self s)); simpl.
    + split; [|done]. split; [|done]. intros i Hi. by apply Hall in Hi.
    + destruct (follow_tidy dial_ok addr s Hall) as (Hf & Hc & He).
      destruct (follow dial_ok addr s) as [[u err] s2]. simpl in *.
      split; [|by destruct err]. by destruct err.
  - split; [|done]. split; [|done]. intros i Hi. by apply Hall in Hi.
Qed.

Lemma decoder_run_open d x frames s :
  decoders s !! d = Some x -> running x = true ->
  chans s !! unfollowc_of x = Some false ->
  gochan.closed (Agg.msgc (agg s)) = false ->
  length (gochan.buf (Agg.msgc (agg s))) + length frames
  <= gochan.cap (Agg.msgc (agg s)) ->
  decoder_run d frames s
  = Some (Stopped (stop d (set_agg (Persist.enqueued frames (agg s)) s))).
Proof.
  revert s. induction frames as [|msg frames IH];
    intros s Hd Hrun Hch Hc Hlen; simpl.
  - unfold decoder_iter. rewrite Hd. simpl. rewrite Hrun. simpl.
    rewrite enqueued_nil by done. by destruct s.
  - unfold decoder_iter. rewrite Hd. simpl. rewrite Hrun, Hch. simpl.
    simpl in Hlen. rewrite Feed_enqueued by (done || lia).
    change (mkServer ?a (self s) (chans s) (decoders s) (trace s))
      with (set_agg a s).
    rewrite (IH (set_agg (Persist.enqueued [msg] (agg s)) s)); try done.
    + cbn [agg set_agg]. by rewrite enqueued_app.
    + simpl. rewrite length_app. simpl. lia.
Qed.

End ControllerFacts.

(** X17. [monitorDiscoverd] never panics, whatever the leader found at
    the start, the events and the outcomes of the dials: it never closes
    an unfollow channel twice. Of the unfollow channels made by [follow]
    at most one is open at any time, the one the loop holds, and it is
    open as long as the loop runs: every earlier decoder has been told to
    stop. When the loop returns because the server leads, no unfollow
    channel is open. The controller closes neither the inbound channel of
    the aggregator nor touches its pause lock. *)
Theorem monitorDiscoverd_keeps_one_follower_stream
    (leader : option string) (dial_ok : bool)
    (events : list (Role.Event * bool)) (s : Role.Server) :
  (forall i, Role.chans s !! i <> Some false) ->
  exists m returned,
    Controller.monitorDiscoverd leader dial_ok events s = Some (m, returned)
    /\ (forall i, Role.chans (Role.srv m) !! i = Some false ->
                  returned = false /\ Role.unfollowc m = Some i)
    /\ (returned = false ->
        forall c, Role.unfollowc m = Some c ->
                  Role.chans (Role.srv m) !! c = Some false)
    /\ Role.self (Role.srv m) = Role.self s
    /\ Agg.msgc (Role.agg (Role.srv m)) = Agg.msgc (Role.agg s)
    /\ Agg.pmu (Role.agg (Role.srv m)) = Agg.pmu (Role.agg s).
Proof.
  intros Hall. unfold Controller.monitorDiscoverd.
  destruct (monitor_start_tidy leader dial_ok s Hall) as [Ht Hc].
  destruct (Controller.monitor_start leader dial_ok s) as [m0 r0].
  simpl in Ht, Hc. destruct r0.
  - exists m0, true. split; [done|]. destruct Ht as [H1 H2].
    split; [done|]. split; [done|]. exact Hc.
  - destruct (monitor_loop_tidy events m0 Ht) as (m & r & Hl & [H1 H2] & Hc').
    exists m, r. split; [done|]. split; [done|]. split; [done|].
    exact (same_core_trans _ _ _ Hc Hc').
Qed.

Lemma monitorDiscoverd_keeps_one_follower_stream_witness :
  exists m returned,
    Controller.monitorDiscoverd (Some "10.0.0.2:514") true
      [(Role.mkEvent Role.EventKindLeader "10.0.0.3:514", true);
       (Role.mkEvent Role.EventKindLeader "10.0.0.1:514", true)]
      Controller.fresh = Some (m, returned)
    /\ forall i, Role.chans (Role.srv m) !! i = Some false ->
                 returned = false /\ Role.unfollowc m = Some i.
Proof.
  destruct (monitorDiscoverd_keeps_one_follower_stream
              (Some "10.0.0.2:514") true
              [(Role.mkEvent Role.EventKindLeader "10.0.0.3:514", true);
               (Role.mkEvent Role.EventKindLeader "10.0.0.1:514", true)]
              Controller.fresh)
    as (m & r & Hm & H1 & _).
  - intros i. vm_compute. destruct i; discriminate.
  - exists m, r. split; [exact Hm|exact H1].
Defined.

(** X18. The decoder goroutine of [follow] feeds the frames of its stream
    in order and then returns: with its unfollow channel open and room on
    the open inbound channel, every frame is queued there, in the order
    of the stream. Once its unfollow channel is closed, the next frame
    makes it return with nothing fed; and with the channel open but the
    inbound channel closed, the next frame makes it panic. *)
Theorem decoder_feeds_until_unfollowed
    (d : nat) (x : Role.Decoder) (frames : list MsgPtr) (s : Role.Server) :
  Role.decoders s !! d = Some x -> Role.running x = true ->
  (Role.chans s !! Role.unfollowc_of x = Some false ->
   gochan.closed (Agg.msgc (Role.agg s)) = false ->
   length (gochan.buf (Agg.msgc (Role.agg s))) + length frames
   <= gochan.cap (Agg.msgc (Role.agg s)) ->
   Controller.decoder_run d frames s
   = Some (Role.Stopped
             (Role.stop d
                (Controller.set_agg
                   (Persist.enqueued frames (Role.agg s)) s))))
  /\ (Role.chans s !! Role.unfollowc_of x = Some true -> frames <> [] ->
      Controller.decoder_run d frames s = Some (Role.Stopped (Role.stop d s)))
  /\ (Role.chans s !! Role.unfollowc_of x = Some false ->
      gochan.closed (Agg.msgc (Role.agg s)) = true -> frames <> [] ->
      Controller.decoder_run d frames s = Some Role.Panicked).
Proof.
  intros Hd Hrun. split; [|split].
  - intros Hch Hc Hlen. by eapply decoder_run_open.
  - intros Hch Hne. destruct frames as [|msg frames]; [done|]. simpl.
    unfold Role.decoder_iter. rewrite Hd. simpl. by rewrite Hrun, Hch.
  - intros Hch Hc Hne. destruct frames as [|msg frames]; [done|]. simpl.
    unfold Role.decoder_iter. rewrite Hd. simpl. rewrite Hrun, Hch. simpl.
    unfold Agg.Feed, gochan.send. by rewrite Hc.
Qed.

Lemma decoder_feeds_until_unfollowed_witness :
  Controller.decoder_run 0 [Some Sched.m1; Some Sched.m2] Controller.following
  = Some (Role.Stopped
            (Role.stop 0
               (Controller.set_agg
                  (Persist.enqueued [Some Sched.m1; Some Sched.m2]
                     (Role.agg Controller.following))
                  Controller.following))).
Proof.
  refine (proj1 (decoder_feeds_until_unfollowed 0 (Role.mkDecoder 0 true)
                   [Some Sched.m1; Some Sched.m2] Controller.following _ _)
            _ _ _).
  - vm_compute; reflexivity.
  - reflexivity.
  - vm_compute; reflexivity.
  - vm_compute; reflexivity.
  - vm_compute. lia.
Defined.

(** ** The two feeds of a syslog connection *)

Section IngestionFacts.
Import Sched Flow Ingestion.
Implicit Types (s : State) (l : Label).

Lemma conn_step_fed k ck s s' :
  conn_step k ck s = Some s' ->
  Replicator.fed (rep s') = Replicator.fed (rep s).
Proof.
  intros Hstep. unfold conn_step in Hstep.
  destruct (pc ck); try done; case_step Hstep; simplify_eq; try done;
    match goal with
    | H : Replicator.receive _ _ = Replicator.Got _ _ |- _ =>
        by apply receive_Got in H as (? & ? & _ & _ & ? & _)
    end.
Qed.

Lemma conn_fail_fed k ck s s' :
  conn_fail k ck s = Some s' ->
  Replicator.fed (rep s') = Replicator.fed (rep s).
Proof.
  intros Hstep. unfold conn_fail in Hstep.
  destruct (pc ck); try done; case_step Hstep; simplify_eq; try done;
    match goal with
    | H : Replicator.receive _ _ = Replicator.Got _ _ |- _ =>
        by apply receive_Got in H as (? & ? & _ & _ & ? & _)
    end.
Qed.

Lemma rendezvous_rep snd rcv s s' :
  rendezvous snd rcv s = Some s' -> rep s' = rep s.
Proof.
  unfold rendezvous. destruct (_ && _); [|done]. intros [= <-].
  assert (Hu : forall i f t, rep (update_conn i f t) = rep t).
  { intros i f t. unfold update_conn. by destruct (conns t !! i). }
  destruct snd, rcv; simpl; rewrite ?Hu; simpl; rewrite ?Hu; done.
Qed.

(** A step other than those of the syslog connections. *)
Lemma step_fed_frame l s s' :
  step l s = Some s' ->
  match l with
  | LSyslog _ | LIngest _ => True
  | _ => Replicator.fed (rep s') = Replicator.fed (rep s)
         /\ ingests s' = ingests s
  end.
Proof.
  intros Hstep. pose proof (step_frame _ _ _ Hstep) as Hf.
  unfold step in Hstep. destruct (panicked s); [done|].
  destruct l; simpl in Hstep, Hf; try done.
  - rewrite (proj2 Hf). split; [done|].
    unfold run_recv in Hstep. destruct (runpc s); try done.
    destruct (gochan.recv _); by simplify_eq.
  - rewrite (proj2 Hf). split; [done|].
    unfold run_deliver in Hstep. destruct (runpc s); try done.
    destruct (Agg.deliver _ _); by simplify_eq.
  - rewrite (rendezvous_rep _ _ _ _ Hstep). split; [done|].
    by apply rendezvous_frame in Hstep as (_ & _ & _ & ? & _).
  - by simplify_eq.
  - destruct (conns s !! i) as [c|]; simpl in Hstep; [|done].
    split; [by eapply conn_step_fed|].
    by apply conn_step_agg in Hstep as (_ & _ & _ & ?).
  - destruct (conns s !! i) as [c|]; simpl in Hstep; [|done].
    split; [by eapply conn_fail_fed|].
    by apply conn_fail_agg in Hstep as (_ & _ & ?).
  - by simplify_eq.
  - rewrite (proj2 Hf). split; [done|].
    apply feed_cases in Hstep as [[-> _]|H]; [done|]. tauto.
  - rewrite (proj2 Hf). by simplify_eq.
  - rewrite (proj2 Hf). by simplify_eq.
  - rewrite (proj2 Hf). destruct (Agg.Shutdown _); by simplify_eq.
  - by simplify_eq.
Qed.

Lemma halfway_insert j g g' (gs : list Ingest) x :
  gs !! j = Some g -> between g = None -> between g' = Some x ->
  omap between (<[j := g']> gs) ≡ₚ x :: omap between gs.
Proof.
  revert j. induction gs as [|g0 gs IH]; intros [|j] Hj Hg Hg';
    simpl in *; try done.
  - simplify_eq. by rewrite Hg, Hg'.
  - specialize (IH j Hj Hg Hg').
    destruct (between g0); [|exact IH].
    etrans; [apply perm_skip, IH|apply perm_swap].
Qed.

Lemma step_replicated l s s' :
  step l s = Some s' ->
  Replicator.fed (rep s) ++ halfway s ⊆+ inflight s ->
  Replicator.fed (rep s') ++ halfway s' ⊆+ inflight s'.
Proof.
  intros Hstep Hinv.
  pose proof (step_inflight _ _ _ Hstep) as Hi.
  pose proof (step_fed_frame _ _ _ Hstep) as Hf.
  rewrite Hi. unfold halfway in *.
  destruct l; simpl in Hf;
    try (rewrite (proj1 Hf), (proj2 Hf);
         by apply submseteq_inserts_r).
  - unfold step in Hstep. destruct (panicked s); [done|].
    simpl in Hstep. simplify_eq. simpl.
    rewrite omap_app. simpl. rewrite app_nil_r.
    by apply submseteq_inserts_r.
  - unfold step in Hstep. destruct (panicked s) eqn:Hp; [done|].
    simpl in Hstep, Hi |- *.
    destruct (ingests s !! j) as [g|] eqn:Hj; simpl in Hstep; [|done].
    unfold ingest_step in Hstep.
    destruct (mid g) as [m|] eqn:Hm.
    + simplify_eq. simpl. rewrite Hp, app_nil_r.
      assert (omap between (ingests s)
              ≡ₚ Some m :: omap between (<[j := mkIngest (pending g) None]>
                                            (ingests s))) as Hperm.
      { rewrite <- (halfway_insert j (mkIngest (pending g) None) g
                      (<[j := mkIngest (pending g) None]> (ingests s))
                      (Some m)).
        - by rewrite list_insert_insert_eq, list_insert_id.
        - apply list_lookup_insert_eq. by eapply lookup_lt_Some.
        - done.
        - unfold between. by rewrite Hm. }
      rewrite Hperm in Hinv. rewrite <- app_assoc. exact Hinv.
    + destruct (pending g) as [|m rest] eqn:Hpe; [done|].
      destruct (feed (Some m) s) as [s1|] eqn:Hfd; simpl in Hstep; [|done].
      pose proof (feed_frame _ _ _ Hfd) as (_ & _ & Hr1 & _).
      apply feed_cases in Hfd
        as [[-> _]|(Hp1 & _ & _ & _ & _ & _ & _ & _ & Hg1 & _)].
      * simpl in Hstep. simplify_eq. simpl. by rewrite app_nil_r.
      * destruct (panicked s1) eqn:Hps; [congruence|]. simplify_eq.
        simpl. rewrite Hps, Hg1, Hr1.
        rewrite (halfway_insert j g (mkIngest rest (Some m))
                   (ingests s) (Some m)); try done.
        -- rewrite <- Permutation_middle, (Permutation_app_comm _ [Some m]).
           simpl. by apply submseteq_skip.
        -- unfold between. by rewrite Hm.
Qed.

Lemma reachable_replicated lim s :
  reachable lim s ->
  Replicator.fed (rep s) ++ halfway s ⊆+ inflight s.
Proof.
  apply (reachable_ind_inv
           (fun s => Replicator.fed (rep s) ++ halfway s ⊆+ inflight s)).
  - done.
  - intros l s1 s2 H1 H2. by eapply step_replicated.
Qed.

End IngestionFacts.

(** X19. [drainSyslogConn] passes each message to [Aggregator.Feed] first
    and to [Replicator.Feed] second: in every execution, the messages the
    replicator was fed, with those a syslog connection holds between its
    two feeds, are among the messages sent on the inbound channel of the
    aggregator, none counted more often than it was sent. So whatever the
    replicator was fed, the aggregator was sent before. *)
Theorem replicator_is_fed_after_the_aggregator
    (lim : nat) (s : Sched.State) :
  Sched.reachable lim s ->
  Replicator.fed (Sched.rep s) ++ Ingestion.halfway s ⊆+ Flow.inflight s
  /\ forall m, m ∈ Replicator.fed (Sched.rep s) -> m ∈ Flow.inflight s.
Proof.
  intros Hr. pose proof (reachable_replicated _ _ Hr) as Hsub.
  split; [done|]. intros m Hm.
  eapply elem_of_submseteq; [|exact Hsub]. apply elem_of_app. by left.
Qed.

Lemma replicator_is_fed_after_the_aggregator_witness :
  Replicator.fed
    (Sched.rep (default (Sched.init 8)
                  (Sched.exec Ingestion.crossed_schedule (Sched.init 8))))
  ++ Ingestion.halfway
       (default (Sched.init 8)
          (Sched.exec Ingestion.crossed_schedule (Sched.init 8)))
  ⊆+ Flow.inflight
       (default (Sched.init 8)
          (Sched.exec Ingestion.crossed_schedule (Sched.init 8))).
Proof.
  refine (proj1 (replicator_is_fed_after_the_aggregator 8 _ _)).
  apply (exec_reachable 8 Ingestion.crossed_schedule (Sched.init 8));
    [apply Sched.reach_init|vm_compute; reflexivity].
Defined.

(** X20. [Shutdown] works once: on an open inbound channel it closes the
    channel and leaves the queued messages, the buffers and the pause lock
    as they were; after it, a second [Shutdown] panics and so does every
    [Feed]. On a closed channel [Shutdown] panics. *)
Theorem Shutdown_closes_the_inbound_channel_once (a : Agg.Aggregator) :
  (gochan.closed (Agg.msgc a) = false ->
   exists a',
     Agg.Shutdown a = Some a'
     /\ Agg.buffers a' = Agg.buffers a /\ Agg.pmu a' = Agg.pmu a
     /\ gochan.buf (Agg.msgc a') = gochan.buf (Agg.msgc a)
     /\ gochan.closed (Agg.msgc a') = true
     /\ Agg.Shutdown a' = None
     /\ forall m, Agg.Feed m a' = Agg.FeedPanics)
  /\ (gochan.closed (Agg.msgc a) = true -> Agg.Shutdown a = None).
Proof.
  unfold Agg.Shutdown, gochan.close. split; intros Hc; rewrite Hc; [|done].
  eexists. split; [reflexivity|]. simpl. done.
Qed.

Lemma Shutdown_closes_the_inbound_channel_once_witness :
  exists a',
    Agg.Shutdown Persist.two_apps = Some a'
    /\ Agg.buffers a' = Agg.buffers Persist.two_apps
    /\ Agg.Shutdown a' = None.
Proof.
  destruct (proj1 (Shutdown_closes_the_inbound_channel_once Persist.two_apps))
    as (a' & H1 & H2 & _ & _ & _ & H3 & _); [reflexivity|].
  exists a'. split; [exact H1|]. split; [exact H2|exact H3].
Defined.
